(** * slack-irc bridge: the relay helpers and the [Bot] class

    A shallow embedding of [src/lib/helpers.js] (the helper functions
    [highlightUsername], [onlineIRCUsers], [ircTopic], [setNewTopic],
    [commandHelp], [privMessage], followed by the class [Bot]) and the
    properties of the specification that are stated about it.

    Conventions of the embedding.
    - A JavaScript string is a [string]; its code units are the
      characters of [ascii] (code units 0 to 255).
    - A JavaScript object used as a table is the association list of
      its own entries ([obj]), in the order in which the language
      enumerates them: a table that the program is given comes in
      that order, and the channel mapping, the one table that the
      program both fills and enumerates, is filled in the order of
      the table it is given.  A read [o[k]] that finds no own entry
      finds the member [k] of [Object.prototype], if there is one
      ([obj_read]); an assignment to the key [__proto__] of a table
      without such an entry stores nothing ([obj_assign]).
    - Regular expressions are matched by the backtracking matcher of
      the language ([Regex]); a pattern given as a string is parsed
      ([RegexSyntax]), so that a name or a suffix interpolated into a
      pattern means what it means to the program.
    - A method that can raise returns a [result]; a method that acts on
      one of the two networks returns the trace of its actions together
      with its outcome (the monad [M]).  A callback handed to a
      transport appears in the trace as a [listener]; what it does
      when called is a function of its own.
    - [logger] calls leave no trace.  The listener of workspace
      messages, which externalizes code blocks and files before it
      calls [sendToIRC], is not modelled: the relay of a workspace
      message is [sendToIRC]. *)

From Stdlib Require Import String Ascii List Bool Arith ZArith Lia Sorted Permutation.
Import ListNotations.
Open Scope string_scope.

(** ** Outcomes *)

Inductive exn : Type :=
| TypeError
| ReferenceError
| SyntaxError
| ConfigurationError.

Inductive result (A : Type) : Type :=
| Ok (a : A)
| Throw (e : exn).

Arguments Ok {A} a.
Arguments Throw {A} e.

Definition rbind {A B} (r : result A) (f : A -> result B) : result B :=
  match r with
  | Ok a => f a
  | Throw e => Throw e
  end.

Declare Scope result_scope.
Delimit Scope result_scope with res.
Notation "x <- r ;; k" := (rbind r (fun x => k))
  (at level 61, r at next level, right associativity) : result_scope.

Fixpoint mapR {A B} (f : A -> result B) (l : list A) : result (list B) :=
  match l with
  | [] => Ok []
  | a :: l' => (b <- f a ;; bs <- mapR f l' ;; Ok (b :: bs))%res
  end.

(** [Array.prototype.reduce] with a callback that may raise. *)
Fixpoint reduceR {A B} (f : B -> A -> result B) (l : list A) (init : B) : result B :=
  match l with
  | [] => Ok init
  | a :: l' => (b <- f init a ;; reduceR f l' b)%res
  end.

(** ** Strings and arrays of the host language *)

Module Js.

(** [s.split(sep)] for a one-character separator. *)
Fixpoint split (sep : ascii) (s : string) : list string :=
  match s with
  | EmptyString => [EmptyString]
  | String c s' =>
      if Ascii.eqb c sep then EmptyString :: split sep s'
      else match split sep s' with
           | w :: ws => String c w :: ws
           | [] => [String c EmptyString]
           end
  end.

(** [a.join(sep)] *)
Definition join (sep : string) (l : list string) : string := String.concat sep l.

(** [s.startsWith(p)] *)
Definition startsWith (s p : string) : bool := String.prefix p s.

Fixpoint indexOf_from (i : nat) (s needle : string) : Z :=
  if String.prefix needle s then Z.of_nat i
  else match s with
       | EmptyString => (-1)%Z
       | String _ s' => indexOf_from (S i) s' needle
       end.

(** [s.indexOf(needle)] *)
Definition indexOf (s needle : string) : Z := indexOf_from 0 s needle.

Fixpoint arr_indexOf_from (i : nat) (l : list string) (x : string) : Z :=
  match l with
  | [] => (-1)%Z
  | y :: l' => if String.eqb y x then Z.of_nat i else arr_indexOf_from (S i) l' x
  end.

(** [a.indexOf(x)] on an array of strings (strict equality). *)
Definition arr_indexOf (l : list string) (x : string) : Z := arr_indexOf_from 0 l x.

Definition is_upper (c : ascii) : bool :=
  let n := nat_of_ascii c in
  (((65 <=? n) && (n <=? 90)) || ((192 <=? n) && (n <=? 222) && negb (n =? 215)))%nat.

Definition is_lower (c : ascii) : bool :=
  let n := nat_of_ascii c in
  (((97 <=? n) && (n <=? 122)) || ((224 <=? n) && (n <=? 254) && negb (n =? 247)))%nat.

Definition lower_char (c : ascii) : ascii :=
  if is_upper c then ascii_of_nat (nat_of_ascii c + 32) else c.

Definition upper_char (c : ascii) : ascii :=
  if is_lower c then ascii_of_nat (nat_of_ascii c - 32) else c.

Fixpoint map_chars (f : ascii -> ascii) (s : string) : string :=
  match s with
  | EmptyString => EmptyString
  | String c s' => String (f c) (map_chars f s')
  end.

(** [s.toLowerCase()] *)
Definition toLowerCase (s : string) : string := map_chars lower_char s.

(** [s.substr(0, n)]; a length that is not positive gives the empty string. *)
Definition substr0 (n : nat) (s : string) : string := String.substring 0 n s.

(** [s.substring(n)] *)
Fixpoint substring_from (n : nat) (s : string) : string :=
  match n, s with
  | 0, _ => s
  | S n', String _ s' => substring_from n' s'
  | S _, EmptyString => EmptyString
  end.

(** [s[0]]: [None] is [undefined]. *)
Definition char0 (s : string) : option string :=
  match s with
  | EmptyString => None
  | String c _ => Some (String c EmptyString)
  end.

(** Truthiness of a string value. *)
Definition truthy (s : string) : bool :=
  match s with
  | EmptyString => false
  | _ => true
  end.

(** [a || b] on a possibly undefined string. *)
Definition or_else (a : option string) (b : string) : string :=
  match a with
  | Some s => if truthy s then s else b
  | None => b
  end.

End Js.

(** ** Objects used as tables *)

Definition obj (V : Type) : Type := list (string * V).

(** The own entry under [k]. *)
Fixpoint obj_get {V} (o : obj V) (k : string) : option V :=
  match o with
  | [] => None
  | (k', v) :: o' => if String.eqb k' k then Some v else obj_get o' k
  end.

(** The own entry under [k] is updated in place, or appended. *)
Fixpoint obj_set {V} (o : obj V) (k : string) (v : V) : obj V :=
  match o with
  | [] => [(k, v)]
  | (k', v') :: o' =>
      if String.eqb k' k then (k', v) :: o' else (k', v') :: obj_set o' k v
  end.

(** The members that every object inherits from [Object.prototype]:
    eleven functions, and the accessor [__proto__], which reads as the
    prototype itself. *)
Definition Object_prototype : list string :=
  ["constructor"; "__defineGetter__"; "__defineSetter__"; "hasOwnProperty";
   "__lookupGetter__"; "__lookupSetter__"; "isPrototypeOf"; "propertyIsEnumerable";
   "toString"; "valueOf"; "__proto__"; "toLocaleString"].

Definition inherited (k : string) : bool := existsb (String.eqb k) Object_prototype.

(** What a read of a table of strings can give: a string, or the
    member [name] of [Object.prototype]. *)
Inductive value : Type :=
| Str (s : string)
| Builtin (name : string).

Coercion Str : string >-> value.

(** [o[k]] on a table of strings; [None] is [undefined].  [k in o]
    holds exactly when the read gives a value. *)
Definition obj_read (o : obj string) (k : string) : option value :=
  match obj_get o k with
  | Some v => Some (Str v)
  | None => if inherited k then Some (Builtin k) else None
  end.

(** [o[k] = v] for a string [v]: without an own entry [__proto__],
    the assignment to that key calls the inherited setter, which
    ignores a value that is not an object. *)
Definition obj_assign (o : obj string) (k v : string) : obj string :=
  match obj_get o k with
  | None => if String.eqb k "__proto__" then o else obj_set o k v
  | Some _ => obj_set o k v
  end.

(** Truthiness of a value: a function and an object are truthy. *)
Definition truthy_value (v : value) : bool :=
  match v with
  | Str s => Js.truthy s
  | Builtin _ => true
  end.

(** [String(v)], the conversion that a template and the result of a
    replacement callback go through; a built-in function prints as
    the engine of the platform prints it. *)
Definition to_string (v : value) : string :=
  match v with
  | Str s => s
  | Builtin name =>
      if String.eqb name "__proto__" then "[object Object]"
      else "function " ++ (if String.eqb name "constructor" then "Object" else name)
           ++ "() { [native code] }"
  end.

(** [_.keys(o)], [_.values(o)] *)
Definition obj_keys {V} (o : obj V) : list string := map fst o.
Definition obj_values {V} (o : obj V) : list V := map snd o.

(** [_.invert(o)]: the result is filled by assignment. *)
Definition invert (o : obj string) : obj string :=
  fold_left (fun acc kv => obj_assign acc (snd kv) (fst kv)) o [].

(** ** Regular expressions of the host language

    The backtracking matcher of the language standard (continuation
    passing, leftmost alternative first, greedy and lazy quantifiers,
    capture groups, lookahead), over the pattern fragment that the
    program writes. *)

Module Regex.

Inductive citem : Type :=
| CChar (c : ascii)
| CRange (lo hi : ascii)
| CDigit (neg : bool)        (* \d, \D *)
| CWord (neg : bool)         (* \w, \W *)
| CSpace (neg : bool).       (* \s, \S *)

Inductive regex : Type :=
| REmpty
| RChar (c : ascii)
| RDot
| RSet (neg : bool) (items : list citem)
| RBol
| REol
| RSeq (r1 r2 : regex)
| RAlt (r1 r2 : regex)
| RRep (min : nat) (max : option nat) (greedy : bool) (r : regex)
| RGroup (idx : nat) (r : regex)
| RLook (neg : bool) (r : regex).

Definition in_range (lo hi n : nat) : bool := ((lo <=? n) && (n <=? hi))%nat.

Definition is_digit (c : ascii) : bool := in_range 48 57 (nat_of_ascii c).

Definition is_word (c : ascii) : bool :=
  let n := nat_of_ascii c in
  in_range 97 122 n || in_range 65 90 n || in_range 48 57 n || (n =? 95)%nat.

Definition is_space (c : ascii) : bool :=
  let n := nat_of_ascii c in
  in_range 9 13 n || (n =? 32)%nat || (n =? 160)%nat.

Definition is_line_terminator (c : ascii) : bool :=
  let n := nat_of_ascii c in (n =? 10)%nat || (n =? 13)%nat.

Section Matcher.

(** The [i] flag. *)
Variable ignoreCase : bool.

Definition char_eq (a c : ascii) : bool :=
  if ignoreCase then Ascii.eqb (Js.upper_char a) (Js.upper_char c) else Ascii.eqb a c.

Definition citem_raw (it : citem) (a : ascii) : bool :=
  match it with
  | CChar c => Ascii.eqb a c
  | CRange lo hi => in_range (nat_of_ascii lo) (nat_of_ascii hi) (nat_of_ascii a)
  | CDigit neg => xorb neg (is_digit a)
  | CWord neg => xorb neg (is_word a)
  | CSpace neg => xorb neg (is_space a)
  end.

Definition citem_match (it : citem) (a : ascii) : bool :=
  if ignoreCase
  then citem_raw it a || citem_raw it (Js.upper_char a) || citem_raw it (Js.lower_char a)
  else citem_raw it a.

Definition set_match (neg : bool) (items : list citem) (a : ascii) : bool :=
  xorb neg (existsb (fun it => citem_match it a) items).

Record mstate : Type := MState {
  m_pos : nat;                    (* index of the next character *)
  m_rest : string;                (* the input from that index on *)
  m_caps : list (nat * string)    (* the captures made so far *)
}.

Definition cont : Type := mstate -> option mstate.

Definition step_char (p : ascii -> bool) (k : cont) (s : mstate) : option mstate :=
  match m_rest s with
  | String a t => if p a then k (MState (S (m_pos s)) t (m_caps s)) else None
  | EmptyString => None
  end.

Fixpoint groups_of (r : regex) : list nat :=
  match r with
  | RSeq a b | RAlt a b => (groups_of a ++ groups_of b)%list
  | RRep _ _ _ a | RLook _ a => groups_of a
  | RGroup i a => i :: groups_of a
  | _ => []
  end.

Definition mem_nat (n : nat) (l : list nat) : bool := existsb (Nat.eqb n) l.

Definition clear_caps (gs : list nat) (s : mstate) : mstate :=
  MState (m_pos s) (m_rest s)
         (filter (fun e => negb (mem_nat (fst e) gs)) (m_caps s)).

Definition set_cap (i : nat) (v : string) (caps : list (nat * string)) : list (nat * string) :=
  (i, v) :: filter (fun e => negb (Nat.eqb (fst e) i)) caps.

Definition orelse (a b : option mstate) : option mstate :=
  match a with
  | Some x => Some x
  | None => b
  end.

Definition dec_max (max : option nat) : option nat := option_map Nat.pred max.

Definition max_is_zero (max : option nat) : bool :=
  match max with
  | Some 0 => true
  | _ => false
  end.

(** The quantifier, after the standard's RepeatMatcher, over the
    matcher [ma] of the repeated expression: an iteration beyond the
    mandatory ones must consume input. *)
Definition rep_loop (ma : cont -> mstate -> option mstate) (gs : list nat)
    (greedy : bool) (k : cont) : nat -> nat -> option nat -> mstate -> option mstate :=
  fix loop (fuel : nat) (min : nat) (max : option nat) (s : mstate) {struct fuel} :=
    match fuel with
    | 0 => None
    | S fuel' =>
        if max_is_zero max then k s
        else
          let d := fun y =>
            if ((min =? 0) && (m_pos y =? m_pos s))%nat then None
            else loop fuel' (Nat.pred min) (dec_max max) y in
          let xr := clear_caps gs s in
          if (min =? 0)%nat
          then if greedy then orelse (ma d xr) (k s)
               else orelse (k s) (ma d xr)
          else ma d xr
    end.

(** [rmatch r k s]: match [r] at state [s] and continue with [k]. *)
Fixpoint rmatch (r : regex) (k : cont) (s : mstate) {struct r} : option mstate :=
  match r with
  | REmpty => k s
  | RChar c => step_char (fun a => char_eq a c) k s
  | RDot => step_char (fun a => negb (is_line_terminator a)) k s
  | RSet neg items => step_char (set_match neg items) k s
  | RBol => if (m_pos s =? 0)%nat then k s else None
  | REol => match m_rest s with EmptyString => k s | _ => None end
  | RSeq a b => rmatch a (fun s' => rmatch b k s') s
  | RAlt a b => orelse (rmatch a k s) (rmatch b k s)
  | RGroup i a =>
      rmatch a (fun s' =>
        k (MState (m_pos s') (m_rest s')
             (set_cap i (String.substring 0 (m_pos s' - m_pos s) (m_rest s)) (m_caps s')))) s
  | RLook neg a =>
      match rmatch a Some s with
      | Some y => if neg then None else k (MState (m_pos s) (m_rest s) (m_caps y))
      | None => if neg then k s else None
      end
  | RRep min max greedy a =>
      rep_loop (rmatch a) (groups_of a) greedy k
               (S (min + String.length (m_rest s))) min max s
  end.

End Matcher.

(** A compiled expression with its flags. *)
Record RegExp : Type := MkRegExp {
  re_ast : regex;
  re_global : bool;
  re_ignoreCase : bool
}.

Fixpoint max_list (l : list nat) : nat :=
  match l with
  | [] => 0
  | n :: l' => Nat.max n (max_list l')
  end.

Definition ngroups (r : regex) : nat := max_list (groups_of r).

Fixpoint cap_lookup (i : nat) (caps : list (nat * string)) : option string :=
  match caps with
  | [] => None
  | (j, v) :: caps' => if (j =? i)%nat then Some v else cap_lookup i caps'
  end.

(** The match array: [index], [m[0]], and [m[1]] ... [m[n]]
    ([None] for a group that did not take part). *)
Record jsmatch : Type := MkMatch {
  mt_index : nat;
  mt_text : string;
  mt_groups : list (option string)
}.

Definition group (m : jsmatch) (i : nat) : option string :=
  match i with
  | 0 => Some (mt_text m)
  | S j => nth j (mt_groups m) None
  end.

Definition match_at (re : RegExp) (i : nat) (suffix : string) : option jsmatch :=
  match rmatch (re_ignoreCase re) (re_ast re) Some (MState i suffix []) with
  | Some e =>
      Some (MkMatch i (String.substring 0 (m_pos e - i) suffix)
              (map (fun g => cap_lookup g (m_caps e)) (seq 1 (ngroups (re_ast re)))))
  | None => None
  end.

(** The first match at or after index [i], [s] being the input from [i] on. *)
Fixpoint search (re : RegExp) (i : nat) (s : string) : option jsmatch :=
  match match_at re i s with
  | Some m => Some m
  | None =>
      match s with
      | EmptyString => None
      | String _ s' => search re (S i) s'
      end
  end.

(** [re.exec(s)] from index 0, [s.match(re)] for an expression that is
    not global, and [re.test(s)]. *)
Definition exec (re : RegExp) (s : string) : option jsmatch := search re 0 s.

Definition test (re : RegExp) (s : string) : bool :=
  match exec re s with
  | Some _ => true
  | None => false
  end.

(** [s.replace(re, f)]: every match when [re] is global, the first
    one otherwise; an empty match advances by one character; [skip]
    counts the characters of the last match still to be passed. *)
Fixpoint replace_go (re : RegExp) (f : jsmatch -> result string)
    (i : nat) (s : string) (skip : nat) (active : bool) {struct s} : result string :=
  match skip with
  | S n =>
      match s with
      | EmptyString => Ok EmptyString
      | String _ s' => replace_go re f (S i) s' n active
      end
  | 0 =>
      match (if active then match_at re i s else None) with
      | Some m =>
          (rep <- f m ;;
           match s with
           | EmptyString => Ok rep
           | String c s' =>
               let len := String.length (mt_text m) in
               if (len =? 0)%nat
               then (rest <- replace_go re f (S i) s' 0 (re_global re) ;;
                     Ok (rep ++ String c rest))
               else (rest <- replace_go re f (S i) s' (len - 1) (re_global re) ;;
                     Ok (rep ++ rest))
           end)%res
      | None =>
          match s with
          | EmptyString => Ok EmptyString
          | String c s' =>
              (rest <- replace_go re f (S i) s' 0 active ;; Ok (String c rest))%res
          end
      end
  end.

Definition replaceR (re : RegExp) (f : jsmatch -> result string) (s : string)
  : result string :=
  replace_go re f 0 s 0 true.

(** [s.replace(re, f)] for a callback that cannot raise. *)
Fixpoint replace_fn_go (re : RegExp) (f : jsmatch -> string)
    (i : nat) (s : string) (skip : nat) (active : bool) {struct s} : string :=
  match skip with
  | S n =>
      match s with
      | EmptyString => EmptyString
      | String _ s' => replace_fn_go re f (S i) s' n active
      end
  | 0 =>
      match (if active then match_at re i s else None) with
      | Some m =>
          match s with
          | EmptyString => f m
          | String c s' =>
              let len := String.length (mt_text m) in
              if (len =? 0)%nat
              then f m ++ String c (replace_fn_go re f (S i) s' 0 (re_global re))
              else f m ++ replace_fn_go re f (S i) s' (len - 1) (re_global re)
          end
      | None =>
          match s with
          | EmptyString => EmptyString
          | String c s' => String c (replace_fn_go re f (S i) s' 0 active)
          end
      end
  end.

Definition replace_fn (re : RegExp) (f : jsmatch -> string) (s : string) : string :=
  replace_fn_go re f 0 s 0 true.

End Regex.

(** ** Pattern syntax: [new RegExp(pattern, flags)]

    The pattern grammar of the language (with its web-compatibility
    extensions: a brace that opens no quantifier, [}] and a lone
    closing bracket are ordinary characters).  Word boundaries,
    backreferences, lookbehind, named groups and the [\c], [\u],
    [\k] and octal escapes are outside the fragment: the parser
    rejects a pattern that uses one, as it rejects a malformed one.
    No pattern that the program writes uses any of them, and neither
    does a name of the workspace; a property of a pattern that comes
    from elsewhere says which patterns it is about. *)

Module RegexSyntax.
Import Regex.

Definition pres : Type := option (regex * string * nat).

Definition hex_val (c : ascii) : option nat :=
  let n := nat_of_ascii c in
  if in_range 48 57 n then Some (n - 48)
  else if in_range 97 102 n then Some (n - 87)
  else if in_range 65 70 n then Some (n - 55)
  else None.

Definition digit_val (c : ascii) : option nat :=
  let n := nat_of_ascii c in
  if in_range 48 57 n then Some (n - 48) else None.

(** A run of decimal digits: its value and the rest of the input;
    [None] when there is no digit. *)
Fixpoint digits_acc (acc : nat) (s : string) : nat * string :=
  match s with
  | String c s' =>
      match digit_val c with
      | Some d => digits_acc (10 * acc + d) s'
      | None => (acc, s)
      end
  | EmptyString => (acc, s)
  end.

Definition digits (s : string) : option (nat * string) :=
  match s with
  | String c _ =>
      match digit_val c with
      | Some _ => Some (digits_acc 0 s)
      | None => None
      end
  | EmptyString => None
  end.

(** [{n}], [{n,}], [{n,m}] after the opening brace:
    the bounds and the rest of the input. *)
Definition braces (s : string) : option (nat * option nat * string) :=
  match digits s with
  | Some (n, String "}" s') => Some (n, Some n, s')
  | Some (n, String "," (String "}" s')) => Some (n, None, s')
  | Some (n, String "," s') =>
      match digits s' with
      | Some (m, String "}" s'') => Some (n, Some m, s'')
      | _ => None
      end
  | _ => None
  end.

(** A character escape shared by atoms and classes; the argument is
    the input after the backslash. *)
Definition char_escape (s : string) : option (ascii * string) :=
  match s with
  | EmptyString => None
  | String c s' =>
      if Ascii.eqb c "n" then Some ("010"%char, s')
      else if Ascii.eqb c "r" then Some ("013"%char, s')
      else if Ascii.eqb c "t" then Some ("009"%char, s')
      else if Ascii.eqb c "f" then Some ("012"%char, s')
      else if Ascii.eqb c "v" then Some ("011"%char, s')
      else if Ascii.eqb c "0" then
        match s' with
        | String d _ => if is_digit d then None else Some ("000"%char, s')
        | EmptyString => Some ("000"%char, s')
        end
      else if Ascii.eqb c "x" then
        match s' with
        | String h1 (String h2 s'') =>
            match hex_val h1, hex_val h2 with
            | Some a, Some b => Some (ascii_of_nat (16 * a + b), s'')
            | _, _ => Some (c, s')
            end
        | _ => Some (c, s')
        end
      else if is_digit c || Ascii.eqb c "c" || Ascii.eqb c "u" || Ascii.eqb c "k" then None
      else Some (c, s')
  end.

Definition class_escape (c : ascii) : option citem :=
  if Ascii.eqb c "d" then Some (CDigit false)
  else if Ascii.eqb c "D" then Some (CDigit true)
  else if Ascii.eqb c "w" then Some (CWord false)
  else if Ascii.eqb c "W" then Some (CWord true)
  else if Ascii.eqb c "s" then Some (CSpace false)
  else if Ascii.eqb c "S" then Some (CSpace true)
  else None.

(** One member of a bracketed class. *)
Definition class_atom (s : string) : option (citem * string) :=
  match s with
  | EmptyString => None
  | String "\" EmptyString => None
  | String "\" (String c s' as e) =>
      match class_escape c with
      | Some it => Some (it, s')
      | None =>
          if Ascii.eqb c "b" then Some (CChar "008"%char, s')
          else if Ascii.eqb c "B" then None
          else if Ascii.eqb c "-" then Some (CChar c, s')
          else match char_escape e with
               | Some (a, s'') => Some (CChar a, s'')
               | None => None
               end
      end
  | String c s' => Some (CChar c, s')
  end.

(** The members of a class up to the closing bracket. *)
Fixpoint class_items (fuel : nat) (s : string) : option (list citem * string) :=
  match fuel with
  | 0 => None
  | S f =>
      match s with
      | EmptyString => None
      | String "]" s' => Some ([], s')
      | _ =>
          match class_atom s with
          | None => None
          | Some (a, String "-" (String "]" s')) => Some ([a; CChar "-"], s')
          | Some (a, String "-" s') =>
              match class_atom s' with
              | None => None
              | Some (b, s'') =>
                  match class_items f s'' with
                  | None => None
                  | Some (rest, s3) =>
                      match a, b with
                      | CChar lo, CChar hi =>
                          if (nat_of_ascii lo <=? nat_of_ascii hi)%nat
                          then Some (CRange lo hi :: rest, s3)
                          else None
                      | _, _ => Some (a :: CChar "-" :: b :: rest, s3)
                      end
                  end
              end
          | Some (a, s') =>
              match class_items f s' with
              | None => None
              | Some (rest, s'') => Some (a :: rest, s'')
              end
          end
      end
  end.

Definition parse_class (s : string) : option (regex * string) :=
  match s with
  | String "^" s' =>
      match class_items (S (String.length s')) s' with
      | Some (items, rest) => Some (RSet true items, rest)
      | None => None
      end
  | _ =>
      match class_items (S (String.length s)) s with
      | Some (items, rest) => Some (RSet false items, rest)
      | None => None
      end
  end.

(** An escape in atom position; the argument is the input after the
    backslash. *)
Definition atom_escape (s : string) : option (regex * string) :=
  match s with
  | EmptyString => None
  | String c s' =>
      match class_escape c with
      | Some it => Some (RSet false [it], s')
      | None =>
          if Ascii.eqb c "b" || Ascii.eqb c "B" then None
          else match char_escape s with
               | Some (a, s'') => Some (RChar a, s'')
               | None => None
               end
      end
  end.

Definition lazy_suffix (min : nat) (max : option nat) (a : regex) (s : string) (idx : nat)
  : pres :=
  match s with
  | String "?" s' => Some (RRep min max false a, s', idx)
  | _ => Some (RRep min max true a, s, idx)
  end.

(** The quantifier that may follow an atom. *)
Definition parse_quant (a : regex) (s : string) (idx : nat) : pres :=
  match s with
  | EmptyString => Some (a, s, idx)
  | String c s' =>
      if Ascii.eqb c "*" then lazy_suffix 0 None a s' idx
      else if Ascii.eqb c "+" then lazy_suffix 1 None a s' idx
      else if Ascii.eqb c "?" then lazy_suffix 0 (Some 1) a s' idx
      else if Ascii.eqb c "{" then
        match braces s' with
        | Some (n, Some m, rest) =>
            if (n <=? m)%nat then lazy_suffix n (Some m) a rest idx else None
        | Some (n, None, rest) => lazy_suffix n None a rest idx
        | None => Some (a, s, idx)
        end
      else Some (a, s, idx)
  end.

Definition expect_close (p : pres) (wrap : regex -> regex) : pres :=
  match p with
  | Some (r, String ")" rest, idx) => Some (wrap r, rest, idx)
  | _ => None
  end.

Definition quantified (p : pres) : pres :=
  match p with
  | Some (r, rest, idx) => parse_quant r rest idx
  | None => None
  end.

Definition without_index (idx : nat) (p : option (regex * string)) : pres :=
  match p with
  | Some (r, rest) => Some (r, rest, idx)
  | None => None
  end.

(** Disjunction, alternative and term; [idx] counts the capture
    groups opened so far. *)
Fixpoint parse_disj (fuel : nat) (s : string) (idx : nat) {struct fuel} : pres :=
  match fuel with
  | 0 => None
  | S f =>
      match parse_alt f s idx with
      | Some (a, String "|" s', idx') =>
          match parse_disj f s' idx' with
          | Some (b, s'', idx'') => Some (RAlt a b, s'', idx'')
          | None => None
          end
      | other => other
      end
  end

with parse_alt (fuel : nat) (s : string) (idx : nat) {struct fuel} : pres :=
  match fuel with
  | 0 => None
  | S f =>
      match s with
      | EmptyString => Some (REmpty, s, idx)
      | String c _ =>
          if Ascii.eqb c "|" || Ascii.eqb c ")" then Some (REmpty, s, idx)
          else
            match parse_term f s idx with
            | Some (t, s', idx') =>
                match parse_alt f s' idx' with
                | Some (r, s'', idx'') => Some (RSeq t r, s'', idx'')
                | None => None
                end
            | None => None
            end
      end
  end

with parse_term (fuel : nat) (s : string) (idx : nat) {struct fuel} : pres :=
  match fuel with
  | 0 => None
  | S f =>
      match s with
      | EmptyString => None
      | String c s' =>
          if Ascii.eqb c "^" then Some (RBol, s', idx)
          else if Ascii.eqb c "$" then Some (REol, s', idx)
          else if Ascii.eqb c "(" then
            match s' with
            | String "?" (String ":" s'') =>
                quantified (expect_close (parse_disj f s'' idx) (fun r => r))
            | String "?" (String "=" s'') =>
                quantified (expect_close (parse_disj f s'' idx) (RLook false))
            | String "?" (String "!" s'') =>
                quantified (expect_close (parse_disj f s'' idx) (RLook true))
            | String "?" _ => None
            | _ => quantified (expect_close (parse_disj f s' (S idx)) (RGroup (S idx)))
            end
          else if Ascii.eqb c "." then parse_quant RDot s' idx
          else if Ascii.eqb c "\" then quantified (without_index idx (atom_escape s'))
          else if Ascii.eqb c "[" then quantified (without_index idx (parse_class s'))
          else if Ascii.eqb c "{" then
            match braces s' with
            | Some _ => None
            | None => parse_quant (RChar c) s' idx
            end
          else if Ascii.eqb c "*" || Ascii.eqb c "+" || Ascii.eqb c "?"
                  || Ascii.eqb c ")" || Ascii.eqb c "|"
          then None
          else parse_quant (RChar c) s' idx
      end
  end.

Definition parse (pattern : string) : option regex :=
  match parse_disj (3 * String.length pattern + 4) pattern 0 with
  | Some (r, EmptyString, _) => Some r
  | _ => None
  end.

Fixpoint has_flag (f : ascii) (flags : string) : bool :=
  match flags with
  | EmptyString => false
  | String c flags' => Ascii.eqb c f || has_flag f flags'
  end.

(** [new RegExp(pattern, flags)] *)
Definition RegExp_new (pattern flags : string) : result RegExp :=
  match parse pattern with
  | Some r => Ok (MkRegExp r (has_flag "g" flags) (has_flag "i" flags))
  | None => Throw SyntaxError
  end.

End RegexSyntax.

(** ** Replacement patterns and expression literals *)

Module Replace.
Import Regex RegexSyntax.

Definition cap_text (m : jsmatch) (n : nat) : string :=
  match group m n with
  | Some s => s
  | None => EmptyString
  end.

Definition valid_ref (m : jsmatch) (n : nat) : bool :=
  ((1 <=? n) && (n <=? List.length (mt_groups m)))%nat.

(** The expansion of a replacement string: [$$], [$&], the text
    before and after the match, and [$n], [$nn]. *)
Fixpoint expand (repl input : string) (m : jsmatch) {struct repl} : string :=
  match repl with
  | EmptyString => EmptyString
  | String "$" (String c r') =>
      if Ascii.eqb c "$" then String "$" (expand r' input m)
      else if Ascii.eqb c "&" then mt_text m ++ expand r' input m
      else if Ascii.eqb c "`" then String.substring 0 (mt_index m) input ++ expand r' input m
      else if Ascii.eqb c "'" then
        Js.substring_from (mt_index m + String.length (mt_text m)) input ++ expand r' input m
      else
        match digit_val c with
        | None => String "$" (String c (expand r' input m))
        | Some d1 =>
            let one :=
              if valid_ref m d1 then cap_text m d1 ++ expand r' input m
              else String "$" (String c (expand r' input m)) in
            match r' with
            | String c2 r'' =>
                match digit_val c2 with
                | Some d2 =>
                    if valid_ref m (10 * d1 + d2)
                    then cap_text m (10 * d1 + d2) ++ expand r'' input m
                    else one
                | None => one
                end
            | EmptyString => one
            end
        end
  | String c r' => String c (expand r' input m)
  end.

(** [s.replace(re, repl)] for a replacement string. *)
Definition replace_str (re : RegExp) (repl : string) (s : string) : string :=
  replace_fn re (fun m => expand repl s m) s.

(** An expression literal [/pattern/flags]. *)
Definition lit (pattern flags : string) : RegExp :=
  match RegExp_new pattern flags with
  | Ok re => re
  | Throw _ => MkRegExp (RSet false []) false false
  end.

End Replace.

(** ** The data of the two networks *)

Record User : Type := MkUser {
  user_id : string;
  user_name : string
}.

Record Channel : Type := MkChannel {
  chan_id : string;
  chan_name : string;
  is_channel : bool;
  is_member : bool;
  is_group : bool;
  members : list string
}.

(** The directory kept by the workspace client ([slack.rtm.dataStore]);
    a lookup that finds nothing gives [None] ([undefined]). *)
Record DataStore : Type := MkDataStore {
  getUserById : string -> option User;
  getChannelById : string -> option Channel;
  getChannelGroupOrDMById : string -> option Channel;
  getChannelOrGroupByName : string -> option Channel
}.

Record File : Type := MkFile {
  permalink : string;
  permalink_public : string;
  initial_comment : option string
}.

(** A workspace message event. *)
Record Message : Type := MkMessage {
  msg_channel : string;
  msg_user : string;
  msg_text : string;
  msg_subtype : option string;
  msg_file : option File
}.

(** A shadow session: an entry of [ircClients]. *)
Record Client : Type := MkClient {
  nick : string;
  slackName : string
}.

Record MuteUsers : Type := MkMuteUsers {
  mute_slack : list string;
  mute_irc : list string
}.

Record Bot : Type := MkBot {
  dataStore : DataStore;
  server : string;
  nickname : string;
  commandCharacters : list string;
  slackChannels : list string;
  ircChannels : list string;
  muteSlackbot : bool;
  nickSuffix : string;
  nickRegex : Regex.RegExp;
  muteUsers : MuteUsers;
  avatarUrl : option string;            (* [None]: disabled ([false]) *)
  slackUsernameFormat : string;
  channelMapping : obj string;
  invertedMapping : obj string;
  ircClients : option (obj Client);     (* [None]: the property is undefined *)
  messageQueues : option (obj (obj (list string)))
}.

(** ** Actions on the two networks *)

(** The closures handed to the transports, with what they capture. *)
Inductive listener : Type :=
| OnlineNames (message : Message) (query : option string) (ircChannel : value)
| OnlineOpened (ircChannel : value) (userNames : list string)
| TopicReply (message : Message)
| TopicSet (message : Message)
| PrivWarn
| PrivWhois (message : Message) (ircUser msg : string).

Inductive action : Type :=
| IrcSay (channel : value) (text : string)             (* ircClient.say *)
| IrcSend (args : list value)                          (* ircClient.send *)
| IrcOnce (event : string) (l : listener)              (* ircClient.once *)
| IrcWhois (nick : string) (l : listener)              (* ircClient.whois *)
| RtmSendMessage (text channel : string)               (* slack.rtm.sendMessage *)
| WebImOpen (user : string) (l : listener)             (* slack.web.im.open *)
| WebPostMessage (channel text username : string) (icon_url : option string)
                                                       (* slack.web.chat.postMessage *)
| AuthSetTopic (channel topic : string).               (* slack.authpost.channels.setTopic *)

(** A send on the legacy network: a message, a raw command, or the
    [WHOIS] request that [whois] sends. *)
Definition is_legacy_send (a : action) : bool :=
  match a with
  | IrcSay _ _ | IrcSend _ | IrcWhois _ _ => true
  | _ => false
  end.

(** A send on the workspace network: a message, a post, or a new
    topic. *)
Definition is_workspace_send (a : action) : bool :=
  match a with
  | RtmSendMessage _ _ | WebPostMessage _ _ _ _ | AuthSetTopic _ _ => true
  | _ => false
  end.

Definition legacy_sends (t : list action) : list action := filter is_legacy_send t.
Definition workspace_sends (t : list action) : list action := filter is_workspace_send t.

(** A handler: the trace of its actions and how it ends. *)
Definition M (A : Type) : Type := (list action * result A)%type.

Definition ret {A} (a : A) : M A := ([], Ok a).
Definition raise {A} (e : exn) : M A := ([], Throw e).
Definition emit (a : action) : M unit := ([a], Ok tt).
Definition lift {A} (r : result A) : M A := ([], r).

Definition bind {A B} (m : M A) (f : A -> M B) : M B :=
  match m with
  | (t, Ok a) => let (t', r) := f a in ((t ++ t')%list, r)
  | (t, Throw e) => (t, Throw e)
  end.

Definition trace {A} (m : M A) : list action := fst m.
Definition outcome {A} (m : M A) : result A := snd m.

Declare Scope M_scope.
Delimit Scope M_scope with M.
Notation "x <- m ;; k" := (bind m (fun x => k))
  (at level 61, m at next level, right associativity) : M_scope.
Notation "m ;;; k" := (bind m (fun _ => k))
  (at level 61, right associativity) : M_scope.

(** ** The program *)

Import Regex RegexSyntax Replace.

Definition nl : string := String "010" EmptyString.

(** The expression literals of the program. *)
Definition SLACK_REGEX : RegExp := Eval vm_compute in lit "@(\S+)" "g".
Definition CODE_REGEX : RegExp := Eval vm_compute in lit "```([^]*)```" "".
Definition re_newline : RegExp := Eval vm_compute in lit "\n|\r\n|\r" "g".
Definition re_amp : RegExp := Eval vm_compute in lit "&amp;" "g".
Definition re_lt : RegExp := Eval vm_compute in lit "&lt;" "g".
Definition re_gt : RegExp := Eval vm_compute in lit "&gt;" "g".
Definition re_bang_channel : RegExp := Eval vm_compute in lit "<!channel>" "g".
Definition re_bang_group : RegExp := Eval vm_compute in lit "<!group>" "g".
Definition re_bang_everyone : RegExp := Eval vm_compute in lit "<!everyone>" "g".
Definition re_channel_ref : RegExp := Eval vm_compute in lit "<#(C\w+)\|?(\w+)?>" "g".
Definition re_user_ref : RegExp := Eval vm_compute in lit "<@(U\w+)\|?(\w+)?>" "g".
Definition re_link : RegExp := Eval vm_compute in lit "<(?!!)([^|]+?)>" "g".
Definition re_command_ref : RegExp := Eval vm_compute in lit "<!(\w+)\|?(\w+)?>" "g".
Definition re_emoji : RegExp := Eval vm_compute in lit ":(\w+):" "g".
Definition re_labelled : RegExp := Eval vm_compute in lit "<.+?\|(.+?)>" "g".
Definition re_dot : RegExp := Eval vm_compute in lit "\." "g".
Definition re_hash : RegExp := Eval vm_compute in lit "^#" "".
Definition re_username : RegExp := Eval vm_compute in lit "\$username" "g".
Definition re_color : RegExp := Eval vm_compute in lit "\x03\d{2}(.+?)\x0F" "g".
Definition re_bold : RegExp := Eval vm_compute in lit "\x02(.+?)\x0F" "g".
Definition re_command : RegExp := Eval vm_compute in lit "^(\w+)\s?(\S+)?\s?(.*)$" "i".

Definition ALLOWED_SUBTYPES : list string := ["me_message"].
Definition REQUIRED_FIELDS : list string := ["server"; "nickname"; "channelMapping"; "token"].
Definition SERVER_NICKLEN : nat := 16.

Section Program.

(** [../assets/emoji.json], the table of emoji codes, and
    [validateChannelMapping] of [./validators]: both are imported by
    the program and are not part of it. *)
Variable emojis : obj string.
Variable validateChannelMapping : obj string -> result unit.

(** *** helpers.js *)

(** [highlightUsername(user, text)] *)
Definition highlightUsername (user text : string) : result string :=
  let words := Js.split " " text in
  (userRegExp <- RegExp_new ("^" ++ user ++ "[,.:!?]?$") "" ;;
   Ok (Js.join " "
         (map (fun word =>
                 if (Js.indexOf word ("@" ++ user) =? 0)%Z then word
                 else if test userRegExp word then "@" ++ word
                 else word) words)))%res.

(** [getIRCChannel(slackChannelID)] of the class, used by the helpers. *)
Definition getIRCChannel (bot : Bot) (slackChannelID : string) : result (option value) :=
  match getChannelGroupOrDMById (dataStore bot) slackChannelID with
  | None => Throw TypeError
  | Some channel =>
      let channelName :=
        if is_channel channel then "#" ++ chan_name channel else chan_name channel in
      Ok (obj_read (channelMapping bot) channelName)
  end.

(** [onlineIRCUsers(message, query)]: the one-shot listener is
    registered, then the names are requested. *)
Definition onlineIRCUsers (bot : Bot) (message : Message) (query : option string) : M unit :=
  (ircChannel <- lift (getIRCChannel bot (msg_channel message)) ;;
   match ircChannel with
   | None => ret tt
   | Some ircChannel =>
       emit (IrcOnce "names" (OnlineNames message query ircChannel)) ;;;
       emit (IrcSend [Str "NAMES"; ircChannel])
   end)%M.

(** [ircTopic(message)] *)
Definition ircTopic (bot : Bot) (message : Message) : M unit :=
  (ircChannel <- lift (getIRCChannel bot (msg_channel message)) ;;
   match ircChannel with
   | None => ret tt
   | Some ircChannel =>
       emit (IrcOnce "topic" (TopicReply message)) ;;;
       emit (IrcSend [Str "TOPIC"; ircChannel])
   end)%M.

(** [setNewTopic(message, argument, data)]: [argument.split] raises
    when the command had no argument. *)
Definition setNewTopic (bot : Bot) (message : Message)
    (argument : option string) (data : string) : M unit :=
  (ircChannel <- lift (getIRCChannel bot (msg_channel message)) ;;
   match ircChannel with
   | None => ret tt
   | Some ircChannel =>
       match argument with
       | None => raise TypeError
       | Some argument =>
           let newTopic := Js.split " " argument in
           emit (IrcOnce "topic" (TopicSet message)) ;;;
           emit (IrcSend [Str "TOPIC"; ircChannel; Str (argument ++ " " ++ data)])
       end
   end)%M.

Definition help_reply : string :=
  "```.online [, query]``` " ++
  "Sends a list of all names in the IRC channel as a DM. " ++
  "If query parameter is provided, sends a list of partially matching nicks and displays " ++
  "them in the Slack channel." ++ nl ++
  "```.irctopic``` " ++
  "Sends the IRC channel topic to the Slack channel." ++
  "```.topic [new topic]``` " ++
  "Sets the topic in the IRC Channel." ++
  "```.help``` " ++
  "Displays this message.".

(** [commandHelp(message)] *)
Definition commandHelp (bot : Bot) (message : Message) : M unit :=
  emit (RtmSendMessage ("HELP: " ++ help_reply) (msg_channel message)).

Definition priv_refusal : string :=
  "The `.msg` command should be used through this DM only, " ++
  "using it in an open channel allows visibility to all in that channel. " ++
  "Your original message has not been sent to the user and you may want to delete it from the public channel.".

(** [privMessage(message, ircUser, msg)]: outside a direct
    conversation the warning is requested through [im.open]; in one,
    the sender's queue is read from [messageQueues] and the liveness
    of the target is asked for. *)
Definition privMessage (bot : Bot) (message : Message) (ircUser msg : string) : M unit :=
  if negb (Js.startsWith (msg_channel message) "D")
  then emit (WebImOpen (msg_user message) PrivWarn)
  else
    match messageQueues bot with
    | None => raise TypeError
    | Some _ => emit (IrcWhois ircUser (PrivWhois message ircUser msg))
    end.

(** The callback of [im.open] in [privMessage]; [dm] is [data.channel.id]. *)
Definition privMessage_opened (dm : string) : M unit :=
  emit (RtmSendMessage priv_refusal dm).

(** The callback of [whois] in [privMessage]; [host] is [resp.host].
    The queue of the sender for the target gets the text, then
    [sendMessagesToIRC] is called, a method the class does not have.
    Where the sender has no queue the write raises; so does [push]
    where the target is the name of an inherited member, which is
    what the read of the queue finds.  (A sender id that is itself
    the name of an inherited member is not an id of the workspace:
    the write would land on the built-in, and the callback raises
    all the same.) *)
Definition privMessage_whois (bot : Bot) (message : Message) (ircUser msg : string)
    (host : option string) : Bot * M unit :=
  match host with
  | Some h =>
      if Js.truthy h then
        match messageQueues bot with
        | None => (bot, raise TypeError)
        | Some queues =>
            match obj_get queues (msg_user message) with
            | None => (bot, raise TypeError)
            | Some messageQueue =>
                let queued (q : list string) :=
                  let queues' :=
                    obj_set queues (msg_user message)
                            (obj_set messageQueue ircUser (q ++ [msg])%list) in
                  (MkBot (dataStore bot) (server bot) (nickname bot) (commandCharacters bot)
                         (slackChannels bot) (ircChannels bot) (muteSlackbot bot)
                         (nickSuffix bot) (nickRegex bot) (muteUsers bot) (avatarUrl bot)
                         (slackUsernameFormat bot) (channelMapping bot) (invertedMapping bot)
                         (ircClients bot) (Some queues'),
                   raise TypeError) in
                match obj_get messageQueue ircUser with
                | Some q => queued q
                | None => if inherited ircUser then (bot, raise TypeError) else queued []
                end
            end
        end
      else (bot, emit (RtmSendMessage ("`" ++ ircUser ++ "` is not online.") (msg_channel message)))
  | None => (bot, emit (RtmSendMessage ("`" ++ ircUser ++ "` is not online.") (msg_channel message)))
  end.

(** *** The class [Bot] *)

Inductive AvatarOpt : Type :=
| AvatarUnset
| AvatarFalse
| AvatarUrl (u : string).

(** The configuration entry handed to the constructor. *)
Record Options : Type := MkOptions {
  opt_server : option string;
  opt_nickname : option string;
  opt_channelMapping : option (obj string);
  opt_token : option string;
  opt_commandCharacters : option (list string);
  opt_muteSlackbot : option bool;
  opt_userNickSuffix : option string;
  opt_muteUsers : option (option (list string) * option (list string));
  opt_avatarUrl : AvatarOpt;
  opt_slackUsernameFormat : option string
}.

Definition empty_store : DataStore :=
  MkDataStore (fun _ => None) (fun _ => None) (fun _ => None) (fun _ => None).

(** A required field that is missing or falsy. *)
Definition required (field : option string) : result string :=
  match field with
  | Some s => if Js.truthy s then Ok s else Throw ConfigurationError
  | None => Throw ConfigurationError
  end.

(** The loop of the constructor over [options.channelMapping]: the
    channel password is removed and the legacy name lowercased. *)
Definition normalize (ircChan : string) : string :=
  Js.toLowerCase (hd EmptyString (Js.split " " ircChan)).

Definition build_channelMapping (mapping : obj string) : obj string :=
  fold_left (fun acc kv => obj_assign acc (fst kv) (normalize (snd kv))) mapping [].

Definition defaultUrl : string := "http://api.adorable.io/avatars/48/$username.png".

(** [new Bot(options)] *)
Definition Bot_new (options : Options) : result Bot :=
  (server <- required (opt_server options) ;;
   nickname <- required (opt_nickname options) ;;
   mapping <- match opt_channelMapping options with
              | Some m => Ok m
              | None => Throw ConfigurationError
              end ;;
   _ <- required (opt_token options) ;;
   _ <- validateChannelMapping mapping ;;
   let nickSuffix := Js.or_else (opt_userNickSuffix options) "-sl" in
   nickRegex <- RegExp_new ("@?(\S+" ++ nickSuffix ++ "\d?)") "g" ;;
   let muteUsers :=
     match opt_muteUsers options with
     | Some (sl, ir) =>
         MkMuteUsers (match sl with Some l => l | None => [] end)
                     (match ir with Some l => l | None => [] end)
     | None => MkMuteUsers [] []
     end in
   let avatarUrl :=
     match opt_avatarUrl options with
     | AvatarFalse => None
     | AvatarUnset => Some defaultUrl
     | AvatarUrl u => Some (Js.or_else (Some u) defaultUrl)
     end in
   let channelMapping := build_channelMapping mapping in
   Ok (MkBot empty_store server nickname
         (match opt_commandCharacters options with Some l => l | None => [] end)
         (obj_keys mapping) (obj_values mapping)
         (match opt_muteSlackbot options with Some b => b | None => false end)
         nickSuffix nickRegex muteUsers avatarUrl
         (Js.or_else (opt_slackUsernameFormat options) "$username (IRC)")
         channelMapping (invert channelMapping)
         None None))%res.

(** [currentShadowNicks()]: [_.keys] of an undefined table is empty. *)
Definition currentShadowNicks (bot : Bot) : list string :=
  match ircClients bot with
  | Some clients => map (fun kv => nick (snd kv)) clients
  | None => []
  end.

(** [ircNick(slackName)] *)
Definition ircNick (bot : Bot) (slackName : string) : string :=
  Js.substr0 (SERVER_NICKLEN - String.length (nickSuffix bot))
             (replace_str re_dot "-" slackName)
  ++ nickSuffix bot.

(** [parseText(text)]: the chain of replacements; the callbacks of
    the channel and user references destructure the directory's
    answer. *)
Definition parseText (bot : Bot) (text : string) : result string :=
  let t1 := replace_str re_newline " " text in
  let t2 := replace_str re_amp "&" t1 in
  let t3 := replace_str re_lt "<" t2 in
  let t4 := replace_str re_gt ">" t3 in
  let t5 := replace_str re_bang_channel "@channel" t4 in
  let t6 := replace_str re_bang_group "@group" t5 in
  let t7 := replace_str re_bang_everyone "@everyone" t6 in
  (t8 <- replaceR re_channel_ref (fun m =>
           match getChannelById (dataStore bot) (cap_text m 1) with
           | None => Throw TypeError
           | Some c => Ok (Js.or_else (group m 2) ("#" ++ chan_name c))
           end) t7 ;;
   t9 <- replaceR re_user_ref (fun m =>
           match getUserById (dataStore bot) (cap_text m 1) with
           | None => Throw TypeError
           | Some u => Ok (Js.or_else (group m 2) ("@" ++ user_name u))
           end) t8 ;;
   let t10 := replace_fn re_link (fun m => cap_text m 1) t9 in
   let t11 := replace_fn re_command_ref (fun m =>
                "<" ++ Js.or_else (group m 2) (cap_text m 1) ++ ">") t10 in
   let t12 := replace_fn re_emoji (fun m =>
                match obj_read emojis (cap_text m 1) with
                | Some glyph => to_string glyph
                | None => mt_text m
                end) t11 in
   let t13 := replace_fn SLACK_REGEX (fun m =>
                let ircNick := ircNick bot (cap_text m 1) in
                if (Js.arr_indexOf (currentShadowNicks bot) ircNick >? -1)%Z
                then ircNick else mt_text m) t12 in
   Ok (replace_fn re_labelled (fun m => cap_text m 1) t13))%res.

(** [isCommandMessage(message)] *)
Definition isCommandMessage (bot : Bot) (message : string) : bool :=
  match Js.char0 message with
  | Some c => negb (Js.arr_indexOf (commandCharacters bot) c =? -1)%Z
  | None => false
  end.

(** [processCommandMessage(message)].  The handler of [msg] is called
    through [priv], a name that is bound nowhere: its binding is
    commented out and [privMessage] is not imported by the class. *)
Definition processCommandMessage (bot : Bot) (message : Message) : M unit :=
  let commandString := Js.substring_from 1 (msg_text message) in
  match exec re_command commandString with
  | None => ret tt
  | Some m =>
      if (1 <? S (List.length (mt_groups m)))%nat then
        let command := cap_text m 1 in
        let argument := group m 2 in
        let remaining := cap_text m 3 in
        if String.eqb command "online" then onlineIRCUsers bot message argument
        else if String.eqb command "irctopic" then ircTopic bot message
        else if String.eqb command "help" then commandHelp bot message
        else if String.eqb command "topic" then setNewTopic bot message argument remaining
        else if String.eqb command "msg" then
          if Js.truthy remaining then raise ReferenceError
          else emit (RtmSendMessage "You must supply a message." (msg_channel message))
        else ret tt
      else ret tt
  end.

Definition option_eqb (s : option string) (x : string) : bool :=
  match s with
  | Some s => String.eqb s x
  | None => false
  end.

Definition falsy_opt (s : option string) : bool :=
  match s with
  | Some s => negb (Js.truthy s)
  | None => true
  end.

(** [sendToIRC(message)] *)
Definition sendToIRC (bot : Bot) (message : Message) : M unit :=
  match getChannelGroupOrDMById (dataStore bot) (msg_channel message) with
  | None => ret tt
  | Some channel =>
      if muteSlackbot bot && String.eqb (msg_user message) "USLACKBOT" then ret tt
      else
        match getUserById (dataStore bot) (msg_user message) with
        | None => raise TypeError
        | Some user =>
            if negb (Js.arr_indexOf (mute_slack (muteUsers bot)) (user_name user) =? -1)%Z
            then ret tt
            else
              let channelName :=
                if is_channel channel then "#" ++ chan_name channel else chan_name channel in
              match obj_read (channelMapping bot) channelName with
              | None => ret tt
              | Some ircChannel =>
                  if truthy_value ircChannel then
                    (text <- lift (parseText bot (msg_text message)) ;;
                     text <-
                       (if isCommandMessage bot text then
                          processCommandMessage bot message ;;;
                          let prelude := "Command sent from Slack by " ++ user_name user ++ ":" in
                          emit (IrcSay ircChannel prelude) ;;;
                          ret text
                        else if falsy_opt (msg_subtype message) then
                          ret ("<" ++ user_name user ++ "> " ++ text)
                        else if option_eqb (msg_subtype message) "file_share" then
                          match msg_file message with
                          | None => raise TypeError
                          | Some file =>
                              let text := "<" ++ user_name user ++ "> File uploaded "
                                          ++ permalink file ++ " / " ++ permalink_public file in
                              match initial_comment file with
                              | Some comment => ret (text ++ " - " ++ comment)
                              | None => ret text
                              end
                          end
                        else if option_eqb (msg_subtype message) "me_message" then
                          ret ("Action: " ++ user_name user ++ " " ++ text)
                        else ret text) ;;
                     emit (IrcSay ircChannel text))%M
                  else ret tt
              end
        end
  end.

(** [currentChannelUsernames(slackChannel)]: a member that the
    directory does not know makes [.name] raise. *)
Definition currentChannelUsernames (bot : Bot) (slackChannel : Channel) : result (list string) :=
  mapR (fun member =>
          match getUserById (dataStore bot) member with
          | Some u => Ok (user_name u)
          | None => Throw TypeError
          end) (members slackChannel).

(** [mapSlackUsers(slackChannel, text)] *)
Definition mapSlackUsers (bot : Bot) (slackChannel : Channel) (text : string) : result string :=
  (names <- currentChannelUsernames bot slackChannel ;;
   reduceR (fun current username => highlightUsername username current) names text)%res.

(** [replaceUsernames(text)] *)
Definition replaceUsernames (bot : Bot) (text : string) : string :=
  replace_fn (nickRegex bot) (fun m =>
    let slackNick := cap_text m 1 in
    match find (fun kv => String.eqb (nick (snd kv)) slackNick)
               (match ircClients bot with Some c => c | None => [] end) with
    | Some kv => slackName (snd kv)
    | None => mt_text m
    end) text.

(** [convertFormatting(text)] *)
Definition convertFormatting (text : string) : string :=
  let converted := replace_str re_color "`$1`" text in
  replace_str re_bold "*$1*" converted.

(** [sendToSlack(author, channel, text)] *)
Definition sendToSlack (bot : Bot) (author channel text : string) : M unit :=
  match obj_read (invertedMapping bot) (Js.toLowerCase channel) with
  | None => ret tt
  | Some (Builtin _) => raise TypeError    (* it has no method [replace] *)
  | Some (Str slackChannelName) =>
      if Js.truthy slackChannelName then
        let name := replace_str re_hash "" slackChannelName in
        match getChannelOrGroupByName (dataStore bot) name with
        | None => ret tt
        | Some slackChannel =>
            if negb (is_member slackChannel) && negb (is_group slackChannel) then ret tt
            else if negb (Js.arr_indexOf (mute_irc (muteUsers bot)) author =? -1)%Z then ret tt
            else
              (_ <- lift (currentChannelUsernames bot slackChannel) ;;
               let currentShadowUsernames := currentShadowNicks bot in
               if (Js.arr_indexOf currentShadowUsernames author >? -1)%Z then ret tt
               else
                 let replacedText := replaceUsernames bot text in
                 let convertedText := convertFormatting replacedText in
                 mappedText <- lift (mapSlackUsers bot slackChannel convertedText) ;;
                 let iconUrl :=
                   match avatarUrl bot with
                   | Some url =>
                       if negb (String.eqb author (nickname bot)) && Js.truthy url
                       then Some (replace_str re_username author url)
                       else None
                   | None => None
                   end in
                 emit (WebPostMessage (chan_id slackChannel) mappedText
                         (replace_str re_username author (slackUsernameFormat bot))
                         iconUrl))%M
        end
      else ret tt
  end.

(** The listeners of the legacy client for [message], [notice] and
    [action]. *)
Definition on_message (bot : Bot) (author to text : string) : M unit :=
  sendToSlack bot author to text.

Definition on_notice (bot : Bot) (author to text : string) : M unit :=
  sendToSlack bot author to ("*" ++ text ++ "*").

Definition on_action (bot : Bot) (author to text : string) : M unit :=
  sendToSlack bot author to ("_" ++ text ++ "_").

End Program.

(** *** Callbacks and listeners of the legacy client *)

(** [a.sort()] on an array of strings: ascending order of the code
    units. *)
Fixpoint sort_insert (x : string) (l : list string) : list string :=
  match l with
  | [] => [x]
  | y :: l' => if String.leb x y then x :: l else y :: sort_insert x l'
  end.

Definition js_sort (l : list string) : list string := fold_right sort_insert [] l.

(** The loop of the [names] callback of [onlineIRCUsers] for a query:
    the expression is built from the query for each name in turn. *)
Fixpoint online_matched (query : string) (userNames : list string) : result (list string) :=
  match userNames with
  | [] => Ok []
  | name :: rest =>
      (re <- RegExp_new query "i" ;;
       matched <- online_matched query rest ;;
       Ok (match exec re name with
           | Some _ => name :: matched
           | None => matched
           end))%res
  end.

Definition online_reply (query : string) (matched : list string) : string :=
  match matched with
  | [] => "No users are online matching '" ++ query ++ "'."
  | _ :: _ =>
      "'" ++ query ++ "' matched the following users: " ++ Js.join ", " (js_sort matched)
  end.

(** The [names] callback of [onlineIRCUsers] when the command had a
    query; [userNames] is [_.keys(names)]. *)
Definition onlineIRCUsers_names (message : Message) (query : string)
    (userNames : list string) : M unit :=
  (matched <- lift (online_matched query userNames) ;;
   emit (RtmSendMessage (online_reply query matched) (msg_channel message)))%M.

(** Without a query the callback opens the direct conversation with
    the requester; this is the callback of that request, [dm] being
    [data.channel.id] and [ircChannel] the channel as the template
    of the reply prints it. *)
Definition onlineIRCUsers_opened (ircChannel : string) (userNames : list string)
    (dm : string) : M unit :=
  emit (RtmSendMessage
          ("The following users are in " ++ ircChannel ++ ": "
           ++ Js.join ", " (js_sort userNames)) dm).

(** The [names] listener that [onlineIRCUsers] registers
    ([OnlineNames]), called with the names of the reply; the callback
    that it hands to [im.open] ([OnlineOpened]) is
    [onlineIRCUsers_opened], for the channel as a string. *)
Definition onlineIRCUsers_listener (message : Message) (query : option string)
    (ircChannel : value) (userNames : list string) : M unit :=
  match query with
  | None => emit (WebImOpen (msg_user message) (OnlineOpened ircChannel userNames))
  | Some query => onlineIRCUsers_names message query userNames
  end.



(** [a.forEach(f)] for a callback that acts on the networks. *)
Fixpoint forEachM {A} (f : A -> M unit) (l : list A) : M unit :=
  match l with
  | [] => ret tt
  | a :: l' => (f a ;;; forEachM f l')%M
  end.

(** The listeners of [join], [part] and [quit], which the class
    attaches when the status notices are configured. *)
Definition on_join (bot : Bot) (channel nick : string) : M unit :=
  if negb (String.eqb nick (nickname bot))
  then sendToSlack bot (nickname bot) channel ("*" ++ nick ++ "* has joined the IRC channel")
  else ret tt.

Definition on_part (bot : Bot) (channel nick : string) : M unit :=
  sendToSlack bot (nickname bot) channel ("*" ++ nick ++ "* has left the IRC channel").

Definition on_quit (bot : Bot) (nick : string) (channels : list string) : M unit :=
  forEachM (fun channel =>
              sendToSlack bot (nickname bot) channel
                          ("*" ++ nick ++ "* has quit the IRC channel")) channels.

(** * Vocabulary of the properties *)

(** ** A configured bridge, used to run the program *)

Module Example.

Definition validate_ok (m : obj string) : result unit := Ok tt.

Definition emoji_table : obj string := [("smile", ":-)")].

Definition options : Options :=
  MkOptions (Some "irc.example.org") (Some "bridge")
            (Some [("#general", "#General-IRC secret"); ("private", "#Priv")])
            (Some "xoxb-token") (Some ["."; "!"]) None None
            (Some (Some ["mallory"], Some ["troll"])) AvatarUnset None.

Definition alice : User := MkUser "U1" "alice".
Definition bob : User := MkUser "U2" "bob".
Definition mallory : User := MkUser "U3" "mallory".
Definition general : Channel := MkChannel "C1" "general" true true false ["U1"; "U2"].
Definition direct : Channel := MkChannel "D1" "" false false false [].

Definition by_id {A} (table : list (string * A)) (id : string) : option A := obj_get table id.

Definition store : DataStore :=
  MkDataStore (by_id [("U1", alice); ("U2", bob); ("U3", mallory)])
              (by_id [("C1", general)])
              (by_id [("C1", general); ("D1", direct)])
              (by_id [("general", general)]).

(** The bridge after construction, once the workspace client has
    filled the directory and a shadow session exists for bob. *)
Definition running (b : Bot) : Bot :=
  MkBot store (server b) (nickname b) (commandCharacters b) (slackChannels b)
        (ircChannels b) (muteSlackbot b) (nickSuffix b) (nickRegex b) (muteUsers b)
        (avatarUrl b) (slackUsernameFormat b) (channelMapping b) (invertedMapping b)
        (Some [("U2", MkClient "bob-sl" "bob")]) (messageQueues b).

Definition bot : Bot :=
  Eval vm_compute in
    match Bot_new validate_ok options with
    | Ok b => running b
    | Throw _ =>
        MkBot empty_store "" "" [] [] [] false "" re_dot (MkMuteUsers [] []) None "" [] []
              None None
    end.

Definition say (text : string) : Message := MkMessage "C1" "U1" text None None.

End Example.

(** ** Tables *)

(** An entry of the channel mapping after the constructor's loop, and
    an entry of a table after [_.invert]. *)
Definition normalized (kv : string * string) : string * string :=
  (fst kv, normalize (snd kv)).

Definition swapped (kv : string * string) : string * string := (snd kv, fst kv).

(** The key under which a value is read: [o[v]] converts [v] to a
    string, and [undefined] reads under its name. *)
Definition key_of (v : option value) : string :=
  match v with
  | Some v => to_string v
  | None => "undefined"
  end.

(** [invertedMapping[channelMapping[s]] == s] and
    [channelMapping[invertedMapping[c]] == c]. *)
Definition round_trip_workspace (bot : Bot) (s : string) : Prop :=
  obj_read (invertedMapping bot) (key_of (obj_read (channelMapping bot) s)) = Some (Str s).

Definition round_trip_legacy (bot : Bot) (c : string) : Prop :=
  obj_read (channelMapping bot) (key_of (obj_read (invertedMapping bot) c)) = Some (Str c).

(** A configuration that maps a private group called [__proto__]. *)
Definition proto_mapping : obj string :=
  [("#general", "#general-irc"); ("__proto__", "#secret")].

Definition proto_options : Options :=
  MkOptions (Some "irc.example.org") (Some "bridge") (Some proto_mapping)
            (Some "xoxb-token") None None None None AvatarUnset None.

(** A configuration in which the legacy name of a channel is
    [__proto__] once normalized. *)
Definition proto_target_mapping : obj string :=
  [("#general", "#general-irc"); ("private", "__PROTO__ secret")].

Definition proto_target_options : Options :=
  MkOptions (Some "irc.example.org") (Some "bridge") (Some proto_target_mapping)
            (Some "xoxb-token") None None None None AvatarUnset None.

(** ** Texts *)

(** [contains c s]: the character [c] occurs in [s]. *)
Fixpoint contains (c : ascii) (s : string) : bool :=
  match s with
  | EmptyString => false
  | String a s' => Ascii.eqb a c || contains c s'
  end.

(** A token: a text without the separator. *)
Definition sep_free (sep : ascii) (w : string) : Prop := contains sep w = false.

(** The control characters of the legacy network: color code, bold,
    and reset. *)
Definition COLOR : ascii := "003"%char.
Definition BOLD : ascii := "002"%char.
Definition RESET : ascii := "015"%char.

(** ** The matcher *)

(** [reach s s' w]: the matcher went from [s] to [s'] over the
    characters [w] of the input. *)
Definition reach (s s' : mstate) (w : string) : Prop :=
  m_rest s = w ++ m_rest s' /\ m_pos s' = m_pos s + String.length w.

(** A matcher only continues at a later position of the same input. *)
Definition forward (ma : cont -> mstate -> option mstate) : Prop :=
  forall k s e, ma k s = Some e -> exists s' w, k s' = Some e /\ reach s s' w.

(** A matcher looks at its continuation only on the states it can
    reach. *)
Definition local_cont (ma : cont -> mstate -> option mstate) : Prop :=
  forall k1 k2 s,
    (forall y w, reach s y w -> k1 y = k2 y) -> ma k1 s = ma k2 s.


(** ** Messages that are relayed *)

(** A message in a mapped channel from a user that is not muted:
    [channel] and [user] are the directory's answers for the message
    and [ircChannel] the legacy channel of the mapping. *)
Definition relayable (bot : Bot) (message : Message)
    (channel : Channel) (user : User) (ircChannel : string) : Prop :=
  getChannelGroupOrDMById (dataStore bot) (msg_channel message) = Some channel /\
  muteSlackbot bot && String.eqb (msg_user message) "USLACKBOT" = false /\
  getUserById (dataStore bot) (msg_user message) = Some user /\
  ~ In (user_name user) (mute_slack (muteUsers bot)) /\
  obj_get (channelMapping bot)
          (if is_channel channel then "#" ++ chan_name channel else chan_name channel)
  = Some ircChannel /\
  Js.truthy ircChannel = true.

(** The notice that announces a command. *)
Definition prelude (user : User) : string :=
  "Command sent from Slack by " ++ user_name user ++ ":".

(** ** User names as patterns *)

(** A character with no meaning in a pattern, and a name made of
    such characters. *)
Definition plain_char (c : ascii) : bool :=
  negb (Ascii.eqb c "^" || Ascii.eqb c "$" || Ascii.eqb c "\" || Ascii.eqb c "."
        || Ascii.eqb c "*" || Ascii.eqb c "+" || Ascii.eqb c "?" || Ascii.eqb c "("
        || Ascii.eqb c ")" || Ascii.eqb c "[" || Ascii.eqb c "]" || Ascii.eqb c "{"
        || Ascii.eqb c "}" || Ascii.eqb c "|").

Fixpoint plain (s : string) : bool :=
  match s with
  | EmptyString => true
  | String c s' => plain_char c && plain s'
  end.

(** A name a member can have: plain, and not starting with [@]. *)
Definition member_name (u : string) : Prop :=
  plain u = true /\ String.prefix "@" u = false.

(** The characters that may follow the name. *)
Definition PUNCT : list citem := [CChar ","; CChar "."; CChar ":"; CChar "!"; CChar "?"].

Definition is_punct (c : ascii) : bool :=
  Ascii.eqb c "," || Ascii.eqb c "." || Ascii.eqb c ":" || Ascii.eqb c "!" || Ascii.eqb c "?".

(** After the name: nothing, or one of the five characters. *)
Definition tail_ok (t : string) : bool :=
  match t with
  | EmptyString => true
  | String a EmptyString => is_punct a
  | _ => false
  end.

(** The expression that [highlightUsername] builds from a plain name
    [u]: the literal characters of [u] between the anchors, followed
    by the optional character. *)
Fixpoint lits (u : string) (r : regex) : regex :=
  match u with
  | EmptyString => r
  | String c u' => RSeq (RChar c) (lits u' r)
  end.

Definition name_tail : regex :=
  RSeq (RRep 0 (Some 1) true (RSet false PUNCT)) (RSeq REol REmpty).

Definition name_regex (u : string) : regex := RSeq RBol (lits u name_tail).

(** *** The specification of the highlighting, token by token *)

(** [w] is the name, or the name followed by one of [,.:!?]. *)
Definition names_user (u w : string) : bool :=
  String.eqb w u
  || existsb (fun p => String.eqb w (u ++ String p "")) [","; "."; ":"; "!"; "?"]%char.

(** A token is prefixed exactly when it does not begin with [@] and
    the name, and is the name or the name followed by one of the five
    characters. *)
Definition highlight_word (u w : string) : string :=
  if negb (String.prefix ("@" ++ u) w) && names_user u w then "@" ++ w else w.

(** The pass over the members of a channel, on one token. *)
Definition pass_word (names : list string) (w : string) : string :=
  fold_left (fun w u => highlight_word u w) names w.

(** ** Nicknames, markup and commands *)

(** What [ircNick] does to one character of the name. *)
Definition dash (c : ascii) : ascii := if Ascii.eqb c "." then "-"%char else c.

(** [contains_any p s]: a character of [s] satisfies [p]. *)
Fixpoint contains_any (p : ascii -> bool) (s : string) : bool :=
  match s with
  | EmptyString => false
  | String a s' => p a || contains_any p s'
  end.

(** [requires_in p r]: every match of [r] passes over a character
    that satisfies [p]. *)
Fixpoint requires_in (p : ascii -> bool) (r : regex) : bool :=
  match r with
  | RChar c => p c
  | RSeq a b => requires_in p a || requires_in p b
  | RAlt a b => requires_in p a && requires_in p b
  | RRep min max _ a =>
      negb (min =? 0)%nat && negb (max_is_zero max) && requires_in p a
  | RGroup _ a => requires_in p a
  | _ => false
  end.

(** The characters that mean something to [parseText]: line breaks,
    [&], [<], [:] and [@]. *)
Definition markup_char (c : ascii) : bool :=
  Ascii.eqb c "010" || Ascii.eqb c "013" || Ascii.eqb c "&" || Ascii.eqb c "<"
  || Ascii.eqb c ":" || Ascii.eqb c "@".

(** The characters that can start a reference or an entity. *)
Definition reference_char (c : ascii) : bool := Ascii.eqb c "&" || Ascii.eqb c "<".

(** What the call of [processCommandMessage] may do, before any
    listener that it registers is run: nothing is said on a legacy
    channel; the raw requests are [NAMES] and [TOPIC] for what
    [getIRCChannel] gives for the channel of the message; a workspace
    message goes to the channel the command came from. *)
Definition command_action (bot : Bot) (message : Message) (a : action) : Prop :=
  match a with
  | IrcSend args =>
      exists ircChannel,
        getIRCChannel bot (msg_channel message) = Ok (Some ircChannel) /\
        (args = [Str "NAMES"; ircChannel] \/ args = [Str "TOPIC"; ircChannel]
         \/ exists topic : string, args = [Str "TOPIC"; ircChannel; Str topic])
  | IrcOnce event _ => event = "names" \/ event = "topic"
  | RtmSendMessage _ channel => channel = msg_channel message
  | IrcSay _ _ | IrcWhois _ _ | WebImOpen _ _ | WebPostMessage _ _ _ _
  | AuthSetTopic _ _ => False
  end.


(** The name under which [sendToIRC] looks a channel up. *)
Definition channelName (channel : Channel) : string :=
  if is_channel channel then "#" ++ chan_name channel else chan_name channel.

(** A post without avatar. *)
Definition no_avatar (a : action) : Prop :=
  match a with
  | WebPostMessage _ _ _ icon => icon = None
  | _ => True
  end.

(** One token of a highlighted text against the token it comes from. *)
Definition prefixed_or_same (w w' : string) : Prop := w' = w \/ w' = "@" ++ w.

(** The configured bridge as the constructor leaves it: an empty
    directory and no shadow session. *)
Definition constructed : Bot :=
  Eval vm_compute in
    match Bot_new Example.validate_ok Example.options with
    | Ok b => b
    | Throw _ =>
        MkBot empty_store "" "" [] [] [] false "" re_dot (MkMuteUsers [] []) None "" [] []
              None None
    end.

(** ** Legacy messages that are routed *)

(** The legacy channel [channel] leads to the workspace channel
    [slackChannel]: its lowercased name is in the inverted mapping,
    the directory knows the workspace channel under the mapped name
    without its [#], and the bridge is a member of it or it is a
    private group. *)
Definition routed (bot : Bot) (channel : string) (slackChannel : Channel) : Prop :=
  exists slackChannelName,
    obj_get (invertedMapping bot) (Js.toLowerCase channel) = Some slackChannelName /\
    Js.truthy slackChannelName = true /\
    getChannelOrGroupByName (dataStore bot) (replace_str re_hash "" slackChannelName)
    = Some slackChannel /\
    (is_member slackChannel = true \/ is_group slackChannel = true).

(** The running bridge with a directory that has lost the user U2, a
    member of the channel. *)
Definition stale : Bot :=
  let b := Example.bot in
  MkBot (MkDataStore (Example.by_id [("U1", Example.alice)])
                     (getChannelById Example.store)
                     (getChannelGroupOrDMById Example.store)
                     (getChannelOrGroupByName Example.store))
        (server b) (nickname b) (commandCharacters b) (slackChannels b)
        (ircChannels b) (muteSlackbot b) (nickSuffix b) (nickRegex b) (muteUsers b)
        (avatarUrl b) (slackUsernameFormat b) (channelMapping b) (invertedMapping b)
        (ircClients b) (messageQueues b).

(** The running bridge in a workspace that has a private group
    called [constructor], which the configuration does not map. *)
Definition constructor_group : Channel := MkChannel "G1" "constructor" false true true ["U1"].

Definition with_group : Bot :=
  let b := Example.bot in
  MkBot (MkDataStore (getUserById Example.store)
                     (getChannelById Example.store)
                     (fun id => if String.eqb id "G1" then Some constructor_group
                                else getChannelGroupOrDMById Example.store id)
                     (getChannelOrGroupByName Example.store))
        (server b) (nickname b) (commandCharacters b) (slackChannels b)
        (ircChannels b) (muteSlackbot b) (nickSuffix b) (nickRegex b) (muteUsers b)
        (avatarUrl b) (slackUsernameFormat b) (channelMapping b) (invertedMapping b)
        (ircClients b) (messageQueues b).

(** [u] occurs in [w], letter case ignored: at the start, and
    anywhere. *)
Fixpoint ci_prefix (u w : string) : bool :=
  match u, w with
  | EmptyString, _ => true
  | String c u', String a w' => char_eq true a c && ci_prefix u' w'
  | String _ _, EmptyString => false
  end.

Fixpoint ci_contains (u w : string) : bool :=
  ci_prefix u w ||
  match w with
  | EmptyString => false
  | String _ w' => ci_contains u w'
  end.

(** The order of [sort] without a comparison function, on strings of
    code units. *)
Definition code_unit_order (a b : string) : Prop := String.leb a b = true.

(** * Properties *)

(** ** Arrays and objects *)

Lemma arr_indexOf_from_In : forall l x i,
  In x l -> (0 <= Js.arr_indexOf_from i l x)%Z.
Proof.
  induction l as [|y l IH]; intros x i Hin; simpl in *.
  - contradiction.
  - destruct (String.eqb_spec y x) as [->|Hne].
    + lia.
    + destruct Hin as [->|Hin]; [congruence | now apply IH].
Qed.

Lemma arr_indexOf_In : forall l x, In x l -> (Js.arr_indexOf l x =? -1)%Z = false.
Proof.
  intros l x Hin. unfold Js.arr_indexOf.
  pose proof (arr_indexOf_from_In l x 0 Hin). apply Z.eqb_neq. lia.
Qed.

Lemma arr_indexOf_In_gt : forall l x, In x l -> (Js.arr_indexOf l x >? -1)%Z = true.
Proof.
  intros l x Hin. unfold Js.arr_indexOf.
  pose proof (arr_indexOf_from_In l x 0 Hin). apply Z.gtb_lt. lia.
Qed.

Lemma obj_set_fresh : forall V (o : obj V) k v,
  ~ In k (obj_keys o) -> obj_set o k v = (o ++ [(k, v)])%list.
Proof.
  induction o as [|[k' v'] o IH]; intros k v Hn; simpl in *.
  - reflexivity.
  - destruct (String.eqb_spec k' k) as [->|Hne].
    + exfalso. apply Hn. now left.
    + f_equal. apply IH. intro Hin. apply Hn. now right.
Qed.

Lemma obj_get_In : forall V (o : obj V) k v,
  NoDup (obj_keys o) -> (obj_get o k = Some v <-> In (k, v) o).
Proof.
  induction o as [|[k' v'] o IH]; intros k v Hnd; simpl in *.
  - split; [discriminate | contradiction].
  - inversion Hnd as [|? ? Hnot Hnd']; subst.
    destruct (String.eqb_spec k' k) as [->|Hne].
    + split.
      * intros [= ->]. now left.
      * intros [[= ->]|Hin]; [reflexivity|].
        exfalso. apply Hnot. unfold obj_keys. apply in_map_iff. now exists (k, v).
    + rewrite (IH k v Hnd'). split.
      * now right.
      * intros [[= -> ->]|Hin]; [congruence | assumption].
Qed.

Lemma obj_get_fresh : forall V (o : obj V) k, ~ In k (obj_keys o) -> obj_get o k = None.
Proof.
  induction o as [|[k' v'] o IH]; intros k Hn; simpl in *; [reflexivity|].
  destruct (String.eqb_spec k' k) as [->|Hne].
  - exfalso. apply Hn. now left.
  - apply IH. intro Hin. apply Hn. now right.
Qed.

Lemma obj_read_own : forall o k v, obj_get o k = Some v -> obj_read o k = Some (Str v).
Proof.
  intros o k v H. unfold obj_read. now rewrite H.
Qed.

Lemma obj_read_cases : forall o k v,
  obj_read o k = Some v ->
  match v with
  | Str c => obj_get o k = Some c
  | Builtin name => name = k /\ inherited name = true /\ obj_get o name = None
  end.
Proof.
  intros o k v H. unfold obj_read in H. destruct (obj_get o k) as [c|] eqn:Hget.
  - now injection H as <-.
  - destruct (inherited k) eqn:Hk; [|discriminate]. injection H as <-. now repeat split.
Qed.

Lemma obj_assign_fresh : forall o k v,
  ~ In k (obj_keys o) -> k <> "__proto__" -> obj_assign o k v = (o ++ [(k, v)])%list.
Proof.
  intros o k v Hn Hk. unfold obj_assign. rewrite (obj_get_fresh _ o k Hn).
  destruct (String.eqb_spec k "__proto__"); [contradiction|].
  now apply obj_set_fresh.
Qed.

(** A loop of assignments to keys that are all new, none of them
    [__proto__], appends the entries in order. *)
Lemma fold_assign_fresh : forall (f : string * string -> string * string) l acc,
  NoDup (obj_keys (acc ++ map f l)%list) ->
  ~ In "__proto__" (obj_keys (map f l)) ->
  fold_left (fun a kv => obj_assign a (fst (f kv)) (snd (f kv))) l acc = (acc ++ map f l)%list.
Proof.
  induction l as [|kv l IH]; intros acc Hnd Hp; simpl in *.
  - now rewrite app_nil_r.
  - assert (Hfresh : ~ In (fst (f kv)) (obj_keys acc)).
    { unfold obj_keys in *. rewrite map_app in Hnd. simpl in Hnd.
      apply NoDup_remove_2 in Hnd. intro Hin. apply Hnd.
      apply in_or_app. now left. }
    rewrite obj_assign_fresh; [|exact Hfresh|intro E; apply Hp; left; exact E].
    rewrite IH; rewrite <- ?app_assoc; simpl.
    + destruct (f kv); reflexivity.
    + destruct (f kv); exact Hnd.
    + intro Hin. apply Hp. now right.
Qed.

Lemma keys_normalized : forall mapping, obj_keys (map normalized mapping) = obj_keys mapping.
Proof.
  intros. unfold obj_keys. rewrite map_map. reflexivity.
Qed.

Lemma values_normalized : forall mapping,
  obj_values (map normalized mapping) = map normalize (obj_values mapping).
Proof.
  intros. unfold obj_values. rewrite !map_map. reflexivity.
Qed.

Lemma keys_swapped : forall o, obj_keys (map swapped o) = obj_values o.
Proof.
  intros. unfold obj_keys, obj_values. rewrite map_map. reflexivity.
Qed.

Lemma In_swapped : forall o k v, In (v, k) (map swapped o) <-> In (k, v) o.
Proof.
  intros o k v. rewrite in_map_iff. split.
  - intros [[k' v'] [Heq Hin]]. unfold swapped in Heq. simpl in Heq.
    now inversion Heq; subst.
  - intros Hin. now exists (k, v).
Qed.

Lemma build_channelMapping_map : forall mapping,
  NoDup (obj_keys mapping) ->
  ~ In "__proto__" (obj_keys mapping) ->
  build_channelMapping mapping = map normalized mapping.
Proof.
  intros mapping Hnd Hp. unfold build_channelMapping.
  apply (fold_assign_fresh normalized mapping []); simpl; rewrite keys_normalized; assumption.
Qed.

Lemma invert_map : forall o,
  NoDup (obj_values o) -> ~ In "__proto__" (obj_values o) -> invert o = map swapped o.
Proof.
  intros o Hnd Hp. unfold invert.
  apply (fold_assign_fresh swapped o []); simpl; rewrite keys_swapped; assumption.
Qed.

(** On a table whose keys and whose values are pairwise distinct,
    none of the values being [__proto__], [_.invert] gives the inverse
    lookup. *)
Lemma invert_inverse : forall o,
  NoDup (obj_keys o) -> NoDup (obj_values o) -> ~ In "__proto__" (obj_values o) ->
  forall k v, obj_get o k = Some v <-> obj_get (invert o) v = Some k.
Proof.
  intros o Hk Hv Hp k v. rewrite (invert_map o Hv Hp).
  rewrite (obj_get_In _ o k v Hk).
  rewrite obj_get_In by (rewrite keys_swapped; exact Hv).
  symmetry. apply In_swapped.
Qed.

Section Constructor.

Variable validateChannelMapping : obj string -> result unit.

Lemma Bot_new_mappings : forall options bot mapping,
  Bot_new validateChannelMapping options = Ok bot ->
  opt_channelMapping options = Some mapping ->
  channelMapping bot = build_channelMapping mapping /\
  invertedMapping bot = invert (build_channelMapping mapping).
Proof.
  intros options bot mapping Hnew Hm. unfold Bot_new in Hnew. rewrite Hm in Hnew.
  destruct (required (opt_server options)); simpl in Hnew; [|discriminate].
  destruct (required (opt_nickname options)); simpl in Hnew; [|discriminate].
  destruct (required (opt_token options)); simpl in Hnew; [|discriminate].
  destruct (validateChannelMapping mapping); simpl in Hnew; [|discriminate].
  destruct (RegExp_new _ _); simpl in Hnew; [|discriminate].
  injection Hnew as <-. simpl. split; reflexivity.
Qed.

(** For a bridge constructed from a channel mapping whose
    normalized legacy channel names (password removed, lowercased)
    are pairwise distinct, and in which no workspace channel and no
    normalized legacy channel is called [__proto__], every
    configured pair is stored and read back in both directions:
    [channelMapping[s]] is the normalized legacy name [c] of [s],
    [invertedMapping[channelMapping[s]]] is [s] and
    [channelMapping[invertedMapping[c]]] is [c]; and the two tables
    are inverse of each other entry by entry. *)
Theorem mapped_channels_round_trip : forall options bot mapping,
  opt_channelMapping options = Some mapping ->
  NoDup (obj_keys mapping) ->
  NoDup (map normalize (obj_values mapping)) ->
  ~ In "__proto__" (obj_keys mapping) ->
  ~ In "__proto__" (map normalize (obj_values mapping)) ->
  Bot_new validateChannelMapping options = Ok bot ->
  (forall s configured,
     In (s, configured) mapping ->
     obj_read (channelMapping bot) s = Some (Str (normalize configured)) /\
     round_trip_workspace bot s /\
     round_trip_legacy bot (normalize configured)) /\
  (forall s c, obj_get (channelMapping bot) s = Some c <->
               obj_get (invertedMapping bot) c = Some s).
Proof.
  intros options bot mapping Hm Hkeys Hvals Hpk Hpv Hnew.
  destruct (Bot_new_mappings options bot mapping Hnew Hm) as [Hcm Hinv].
  rewrite (build_channelMapping_map mapping Hkeys Hpk) in Hcm, Hinv.
  assert (Hk : NoDup (obj_keys (map normalized mapping)))
    by (rewrite keys_normalized; exact Hkeys).
  assert (Hv : NoDup (obj_values (map normalized mapping)))
    by (rewrite values_normalized; exact Hvals).
  assert (Hp : ~ In "__proto__" (obj_values (map normalized mapping)))
    by (rewrite values_normalized; exact Hpv).
  assert (Hinverse : forall s c, obj_get (channelMapping bot) s = Some c <->
                                 obj_get (invertedMapping bot) c = Some s).
  { intros s c. rewrite Hcm, Hinv. apply (invert_inverse _ Hk Hv Hp). }
  split; [|exact Hinverse].
  intros s configured Hin.
  assert (Hs : obj_get (channelMapping bot) s = Some (normalize configured)).
  { rewrite Hcm. apply (obj_get_In _ _ s (normalize configured) Hk).
    apply in_map_iff. now exists (s, configured). }
  assert (Hc : obj_get (invertedMapping bot) (normalize configured) = Some s)
    by now apply Hinverse.
  unfold round_trip_workspace, round_trip_legacy.
  rewrite (obj_read_own _ _ _ Hs), (obj_read_own _ _ _ Hc). cbn [key_of to_string].
  rewrite (obj_read_own _ _ _ Hs), (obj_read_own _ _ _ Hc). repeat split.
Qed.

End Constructor.

Lemma NoDup_strings : forall l : list string,
  (if list_eq_dec string_dec (nodup string_dec l) l then true else false) = true ->
  NoDup l.
Proof.
  intros l H. destruct (list_eq_dec string_dec (nodup string_dec l) l) as [E|]; [|discriminate].
  rewrite <- E. apply NoDup_nodup.
Qed.

Lemma not_In_strings : forall (x : string) l,
  (if in_dec string_dec x l then true else false) = false -> ~ In x l.
Proof.
  intros x l H. destruct (in_dec string_dec x l); [discriminate | assumption].
Qed.

Lemma mapped_channels_round_trip_witness :
  obj_read (channelMapping constructed) "#general" = Some (Str "#general-irc") /\
  round_trip_workspace constructed "#general" /\
  round_trip_legacy constructed "#general-irc".
Proof.
  destruct (mapped_channels_round_trip Example.validate_ok Example.options constructed
              [("#general", "#General-IRC secret"); ("private", "#Priv")]) as [H _].
  - reflexivity.
  - apply NoDup_strings. reflexivity.
  - apply NoDup_strings. reflexivity.
  - apply not_In_strings. reflexivity.
  - apply not_In_strings. reflexivity.
  - reflexivity.
  - apply (H "#general" "#General-IRC secret"). left. reflexivity.
Defined.

(** C8.  A private group can be called [__proto__], and a
    configuration can map it.  The constructor's assignment
    [this.channelMapping[slackChan] = ...] then stores nothing: the
    group is among the configured workspace channels, the normalized
    legacy names are pairwise distinct, and neither lookup leads
    back: [channelMapping["__proto__"]] reads the prototype of the
    table, under which the inverted table holds nothing, and the
    inverted table has no entry for the legacy channel.  In the same
    way [_.invert] stores nothing for a legacy name that is
    [__proto__] once normalized, and the inverse lookup of that name
    reads the prototype of the table. *)
Theorem proto_channel_breaks_lookups :
  (NoDup (obj_keys proto_mapping) /\
   NoDup (map normalize (obj_values proto_mapping)) /\
   exists bot,
     Bot_new Example.validate_ok proto_options = Ok bot /\
     In "__proto__" (slackChannels bot) /\
     In "#secret" (map normalize (ircChannels bot)) /\
     channelMapping bot = [("#general", "#general-irc")] /\
     invertedMapping bot = [("#general-irc", "#general")] /\
     obj_read (channelMapping bot) "__proto__" = Some (Builtin "__proto__") /\
     obj_read (invertedMapping bot) "#secret" = None /\
     ~ round_trip_workspace bot "__proto__" /\
     ~ round_trip_legacy bot "#secret") /\
  (NoDup (obj_keys proto_target_mapping) /\
   NoDup (map normalize (obj_values proto_target_mapping)) /\
   exists bot,
     Bot_new Example.validate_ok proto_target_options = Ok bot /\
     In "private" (slackChannels bot) /\
     channelMapping bot = [("#general", "#general-irc"); ("private", "__proto__")] /\
     invertedMapping bot = [("#general-irc", "#general")] /\
     obj_read (invertedMapping bot) "__proto__" = Some (Builtin "__proto__") /\
     ~ round_trip_workspace bot "private" /\
     ~ round_trip_legacy bot "__proto__").
Proof.
  split.
  - split; [apply NoDup_strings; reflexivity|].
    split; [apply NoDup_strings; reflexivity|].
    destruct (Bot_new Example.validate_ok proto_options) as [bot|] eqn:Hnew;
      [|vm_compute in Hnew; discriminate].
    exists bot. split; [reflexivity|].
    vm_compute in Hnew. injection Hnew as <-.
    repeat split; try reflexivity.
    + right. left. reflexivity.
    + right. left. reflexivity.
    + vm_compute. discriminate.
    + vm_compute. discriminate.
  - split; [apply NoDup_strings; reflexivity|].
    split; [apply NoDup_strings; reflexivity|].
    destruct (Bot_new Example.validate_ok proto_target_options) as [bot|] eqn:Hnew;
      [|vm_compute in Hnew; discriminate].
    exists bot. split; [reflexivity|].
    vm_compute in Hnew. injection Hnew as <-.
    repeat split; try reflexivity.
    + right. left. reflexivity.
    + vm_compute. discriminate.
    + vm_compute. discriminate.
Qed.

(** Two legacy channels that differ by case only: the constructor
    accepts the mapping, and the inverse lookup is lost for the first
    workspace channel. *)
Example duplicate_targets_not_inverse :
  let mapping := [("#a", "#Chat"); ("#b", "#chat key")] in
  build_channelMapping mapping = [("#a", "#chat"); ("#b", "#chat")] /\
  obj_get (invert (build_channelMapping mapping)) "#chat" = Some "#b".
Proof. split; reflexivity. Qed.

(** ** Mute lists and echo suppression *)

Section Relay.

Variable emojis : obj string.

Lemma sendToIRC_muted : forall bot message user,
  getUserById (dataStore bot) (msg_user message) = Some user ->
  In (user_name user) (mute_slack (muteUsers bot)) ->
  trace (sendToIRC emojis bot message) = [].
Proof.
  intros bot message user Huser Hmuted. unfold sendToIRC.
  destruct (getChannelGroupOrDMById _ _); [|reflexivity].
  destruct (muteSlackbot bot && _); [reflexivity|].
  rewrite Huser. rewrite (arr_indexOf_In _ _ Hmuted). reflexivity.
Qed.

Lemma trace_bind_lift : forall A B (r : result A) (f : A -> M B),
  trace (bind (lift r) f) =
  match r with
  | Ok a => trace (f a)
  | Throw _ => []
  end.
Proof.
  intros A B [a|e] f; unfold bind, lift, trace; simpl; [|reflexivity].
  destruct (f a); reflexivity.
Qed.

Lemma sendToSlack_muted : forall bot author channel text,
  In author (mute_irc (muteUsers bot)) ->
  trace (sendToSlack bot author channel text) = [].
Proof.
  intros bot author channel text Hmuted. unfold sendToSlack.
  destruct (obj_read _ _) as [[slackChannelName|builtin]|]; [|reflexivity|reflexivity].
  destruct (Js.truthy slackChannelName); [|reflexivity].
  destruct (getChannelOrGroupByName _ _) as [slackChannel|]; [|reflexivity].
  destruct (negb (is_member slackChannel) && negb (is_group slackChannel)); [reflexivity|].
  rewrite (arr_indexOf_In _ _ Hmuted). reflexivity.
Qed.

Lemma sendToSlack_shadow : forall bot author channel text,
  In author (currentShadowNicks bot) ->
  trace (sendToSlack bot author channel text) = [].
Proof.
  intros bot author channel text Hshadow. unfold sendToSlack.
  destruct (obj_read _ _) as [[slackChannelName|builtin]|]; [|reflexivity|reflexivity].
  destruct (Js.truthy slackChannelName); [|reflexivity].
  destruct (getChannelOrGroupByName _ _) as [slackChannel|]; [|reflexivity].
  destruct (negb (is_member slackChannel) && negb (is_group slackChannel)); [reflexivity|].
  destruct (negb _); [reflexivity|].
  rewrite trace_bind_lift.
  destruct (currentChannelUsernames bot slackChannel); [|reflexivity].
  rewrite (arr_indexOf_In_gt _ _ Hshadow). reflexivity.
Qed.

(** C4.  A workspace message whose sender's username is in the
    workspace mute list produces no send on the legacy network, and a
    legacy message whose author is in the legacy mute list produces no
    send on the workspace network. *)
Theorem mute_enforcement :
  (forall bot message user,
     getUserById (dataStore bot) (msg_user message) = Some user ->
     In (user_name user) (mute_slack (muteUsers bot)) ->
     legacy_sends (trace (sendToIRC emojis bot message)) = []) /\
  (forall bot author channel text,
     In author (mute_irc (muteUsers bot)) ->
     workspace_sends (trace (sendToSlack bot author channel text)) = []).
Proof.
  split.
  - intros bot message user Huser Hmuted.
    now rewrite (sendToIRC_muted bot message user Huser Hmuted).
  - intros bot author channel text Hmuted.
    now rewrite (sendToSlack_muted bot author channel text Hmuted).
Qed.

(** C5.  A legacy message whose author is the nickname of a live
    shadow session (an entry of [ircClients]) produces no send on the
    workspace network, whatever its text and channel, and whether it
    arrives as a message, a notice or an action. *)
Theorem shadow_echo_suppressed : forall bot author channel text,
  In author (currentShadowNicks bot) ->
  workspace_sends (trace (on_message bot author channel text)) = [] /\
  workspace_sends (trace (on_notice bot author channel text)) = [] /\
  workspace_sends (trace (on_action bot author channel text)) = [].
Proof.
  intros bot author channel text Hshadow.
  unfold on_message, on_notice, on_action.
  now rewrite !(sendToSlack_shadow bot author channel _ Hshadow).
Qed.

End Relay.

Lemma mute_enforcement_witness :
  legacy_sends (trace (sendToIRC Example.emoji_table Example.bot
                         (MkMessage "C1" "U3" "hello" None None))) = [] /\
  workspace_sends (trace (sendToSlack Example.bot "troll" "#General-IRC" "hello")) = [].
Proof.
  split.
  - apply (proj1 (mute_enforcement Example.emoji_table)) with (user := Example.mallory).
    + reflexivity.
    + simpl. left. reflexivity.
  - apply (proj2 (mute_enforcement Example.emoji_table)).
    simpl. left. reflexivity.
Defined.

Lemma shadow_echo_suppressed_witness :
  workspace_sends (trace (on_message Example.bot "bob-sl" "#General-IRC" "hello")) = [] /\
  workspace_sends (trace (on_notice Example.bot "bob-sl" "#General-IRC" "hello")) = [] /\
  workspace_sends (trace (on_action Example.bot "bob-sl" "#General-IRC" "hello")) = [].
Proof.
  apply shadow_echo_suppressed. simpl. left. reflexivity.
Defined.

(** ** Facts about strings *)

Lemma append_assoc : forall a b c : string, (a ++ b) ++ c = a ++ (b ++ c).
Proof.
  induction a as [|x a IH]; intros b c; simpl; [reflexivity | now rewrite IH].
Qed.

Lemma append_nil_r : forall a : string, a ++ "" = a.
Proof.
  induction a as [|x a IH]; simpl; [reflexivity | now rewrite IH].
Qed.

Lemma length_append : forall a b : string,
  String.length (a ++ b) = String.length a + String.length b.
Proof.
  induction a as [|x a IH]; intros b; simpl; [reflexivity | now rewrite IH].
Qed.


(** ** Facts about the matcher *)

Module RegexFacts.
Import Regex.

Lemma reach_refl : forall s, reach s s "".
Proof.
  intros s. split; simpl; [reflexivity | lia].
Qed.

Lemma reach_trans : forall s1 s2 s3 w1 w2,
  reach s1 s2 w1 -> reach s2 s3 w2 -> reach s1 s3 (w1 ++ w2).
Proof.
  intros s1 s2 s3 w1 w2 [H1 P1] [H2 P2]. split.
  - rewrite H1, H2. now rewrite append_assoc.
  - rewrite length_append. lia.
Qed.

Lemma reach_same : forall s s1 s' w,
  m_pos s1 = m_pos s -> m_rest s1 = m_rest s -> reach s1 s' w -> reach s s' w.
Proof.
  intros s s1 s' w Hp Hr [H P]. split; congruence.
Qed.

Lemma step_char_inv : forall p k s e,
  step_char p k s = Some e ->
  exists a t, m_rest s = String a t /\ p a = true /\
              k (MState (S (m_pos s)) t (m_caps s)) = Some e.
Proof.
  intros p k s e H. unfold step_char in H.
  destruct (m_rest s) as [|a t]; [discriminate|].
  destruct (p a) eqn:Hp; [|discriminate].
  now exists a, t.
Qed.

Lemma step_char_forward : forall p, forward (step_char p).
Proof.
  intros p k s e H. apply step_char_inv in H as (a & t & Hr & _ & Hk).
  exists (MState (S (m_pos s)) t (m_caps s)), (String a "").
  split; [exact Hk|]. split; simpl; [exact Hr | lia].
Qed.

Lemma orelse_Some : forall a b e,
  orelse a b = Some e -> a = Some e \/ (a = None /\ b = Some e).
Proof.
  intros [x|] b e H; simpl in H; [left; exact H | right; now split].
Qed.

Lemma rep_loop_forward : forall ma gs greedy k,
  forward ma ->
  forall fuel min max s e,
    rep_loop ma gs greedy k fuel min max s = Some e ->
    exists s' w, k s' = Some e /\ reach s s' w.
Proof.
  intros ma gs greedy k Hma.
  induction fuel as [|fuel IH]; intros min max s e H; simpl in H; [discriminate|].
  destruct (max_is_zero max).
  { exists s, "". split; [exact H | apply reach_refl]. }
  set (d := fun y => if ((min =? 0) && (m_pos y =? m_pos s))%nat then None
                     else rep_loop ma gs greedy k fuel (Nat.pred min) (dec_max max) y) in H.
  assert (Hiter : ma d (clear_caps gs s) = Some e ->
                  exists s' w, k s' = Some e /\ reach s s' w).
  { intros Hm. apply Hma in Hm as (y & w1 & Hd & Hr1). unfold d in Hd.
    destruct ((min =? 0) && (m_pos y =? m_pos s))%nat; [discriminate|].
    apply IH in Hd as (s' & w2 & Hk & Hr2).
    exists s', (w1 ++ w2). split; [exact Hk|].
    apply reach_trans with y; [|exact Hr2].
    now apply reach_same with (clear_caps gs s). }
  assert (Hstop : k s = Some e -> exists s' w, k s' = Some e /\ reach s s' w).
  { intros Hk. exists s, "". split; [exact Hk | apply reach_refl]. }
  destruct (min =? 0)%nat; [|now apply Hiter].
  destruct greedy; apply orelse_Some in H as [H|[_ H]]; auto.
Qed.

Lemma rep_loop_S : forall ma gs greedy k fuel min max s,
  rep_loop ma gs greedy k (S fuel) min max s =
  if max_is_zero max then k s
  else
    let d := fun y =>
      if ((min =? 0) && (m_pos y =? m_pos s))%nat then None
      else rep_loop ma gs greedy k fuel (Nat.pred min) (dec_max max) y in
    let xr := clear_caps gs s in
    if (min =? 0)%nat
    then if greedy then orelse (ma d xr) (k s) else orelse (k s) (ma d xr)
    else ma d xr.
Proof.
  reflexivity.
Qed.

Lemma rmatch_forward : forall ic r, forward (rmatch ic r).
Proof.
  intros ic. induction r as [|c| |neg items| | |a IHa b IHb|a IHa b IHb
                            |min max greedy a IHa|i a IHa|neg a IHa];
    intros k s e H; cbn [rmatch] in H.
  - exists s, "". split; [exact H | apply reach_refl].
  - now apply step_char_forward in H.
  - now apply step_char_forward in H.
  - now apply step_char_forward in H.
  - destruct (m_pos s =? 0)%nat; [|discriminate].
    exists s, "". split; [exact H | apply reach_refl].
  - destruct (m_rest s) eqn:Hr; [|discriminate].
    exists s, "". split; [exact H | apply reach_refl].
  - apply IHa in H as (s1 & w1 & H & R1). apply IHb in H as (s2 & w2 & H & R2).
    exists s2, (w1 ++ w2). split; [exact H | now apply reach_trans with s1].
  - apply orelse_Some in H as [H|[_ H]]; [now apply IHa | now apply IHb].
  - now apply rep_loop_forward in H.
  - apply IHa in H as (s1 & w1 & H & R1).
    eexists _, w1. split; [exact H|]. destruct R1 as [R P]. split; simpl; assumption.
  - destruct (rmatch ic a Some s) as [y|]; destruct neg; try discriminate.
    + eexists _, "". split; [exact H|]. split; simpl; [reflexivity | lia].
    + exists s, "". split; [exact H | apply reach_refl].
Qed.





End RegexFacts.

(** ** Formatting of legacy text *)




(** Terminated sequences are converted. *)
Example convertFormatting_color :
  convertFormatting (String COLOR "04red" ++ String RESET " and " ++
                     String BOLD "bold" ++ String RESET "!")
  = "`red` and *bold*!".
Proof. reflexivity. Qed.

(** ** Commands *)

Lemma arr_indexOf_from_not_In : forall l x i,
  ~ In x l -> Js.arr_indexOf_from i l x = (-1)%Z.
Proof.
  induction l as [|y l IH]; intros x i Hn; simpl in *; [reflexivity|].
  destruct (String.eqb_spec y x) as [->|Hne].
  - exfalso. apply Hn. now left.
  - apply IH. intro Hin. apply Hn. now right.
Qed.

Lemma arr_indexOf_not_In : forall l x, ~ In x l -> (Js.arr_indexOf l x =? -1)%Z = true.
Proof.
  intros l x Hn. unfold Js.arr_indexOf. rewrite arr_indexOf_from_not_In by exact Hn.
  reflexivity.
Qed.

Section Commands.

Variable emojis : obj string.

(** What [sendToIRC] does with a text that starts with a command
    character: the dispatch, then the notice, then the text. *)
Lemma sendToIRC_command : forall bot message channel user ircChannel text,
  relayable bot message channel user ircChannel ->
  parseText emojis bot (msg_text message) = Ok text ->
  isCommandMessage bot text = true ->
  sendToIRC emojis bot message =
  (processCommandMessage bot message ;;;
   emit (IrcSay ircChannel (prelude user)) ;;;
   emit (IrcSay ircChannel text))%M.
Proof.
  intros bot message channel user ircChannel text
         (Hchan & Hbot & Huser & Hmute & Hmap & Htruthy) Hparse Hcmd.
  unfold sendToIRC. rewrite Hchan, Hbot, Huser.
  rewrite (arr_indexOf_not_In _ _ Hmute). cbn [negb].
  rewrite (obj_read_own _ _ _ Hmap). cbn [truthy_value]. rewrite Htruthy, Hparse.
  unfold lift. cbn [bind]. rewrite Hcmd.
  fold (prelude user).
  destruct (processCommandMessage bot message) as [t [[]|e]]; cbn -[prelude];
    rewrite <- ?app_assoc; reflexivity.
Qed.

(** When the dispatch ends normally, the sends to the legacy channel
    end with the notice followed by the text of the command. *)
Lemma sendToIRC_command_sends : forall bot message channel user ircChannel text,
  relayable bot message channel user ircChannel ->
  parseText emojis bot (msg_text message) = Ok text ->
  isCommandMessage bot text = true ->
  outcome (processCommandMessage bot message) = Ok tt ->
  sendToIRC emojis bot message =
  ((trace (processCommandMessage bot message)
    ++ [IrcSay ircChannel (prelude user); IrcSay ircChannel text])%list, Ok tt).
Proof.
  intros bot message channel user ircChannel text Hrel Hparse Hcmd Hok.
  rewrite (sendToIRC_command bot message channel user ircChannel text Hrel Hparse Hcmd).
  destruct (processCommandMessage bot message) as [t r]. simpl in Hok. subst r.
  reflexivity.
Qed.

(** C3, as the program has it.  For a message in a mapped channel
    from a user that is not muted, whose parsed text starts with a
    command character and whose text after the first character does
    not match the expression of commands, no command handler runs, and
    the message is still handled as a command: the notice
    [Command sent from Slack by <user>:] is sent to the mapped legacy
    channel, followed by the parsed text itself. *)
Theorem unmatched_command_is_announced : forall bot message channel user ircChannel text,
  relayable bot message channel user ircChannel ->
  parseText emojis bot (msg_text message) = Ok text ->
  isCommandMessage bot text = true ->
  exec re_command (Js.substring_from 1 (msg_text message)) = None ->
  sendToIRC emojis bot message =
  ([IrcSay ircChannel (prelude user); IrcSay ircChannel text], Ok tt).
Proof.
  intros bot message channel user ircChannel text Hrel Hparse Hcmd Hnomatch.
  assert (Hp : processCommandMessage bot message = ([], Ok tt)).
  { unfold processCommandMessage. rewrite Hnomatch. reflexivity. }
  rewrite (sendToIRC_command_sends bot message channel user ircChannel text Hrel Hparse Hcmd);
    rewrite Hp; reflexivity.
Qed.

(** C1.  The command [.msg bob hello] reaches no handler: whatever
    the channel it comes from, direct conversation or shared channel,
    the dispatch raises [ReferenceError] before any action, so that
    nothing is queued and no warning is sent; and a message in a
    direct conversation, which is not a mapped channel, is not
    dispatched at all. *)
Theorem msg_command_raises :
  (forall bot channel user,
     processCommandMessage bot (MkMessage channel user ".msg bob hello" None None)
     = ([], Throw ReferenceError)) /\
  sendToIRC Example.emoji_table Example.bot
            (MkMessage "D1" "U1" ".msg bob hello" None None) = ([], Ok tt).
Proof.
  split; [intros bot channel user|]; reflexivity.
Qed.

Lemma channel_ref_raises : forall f e,
  f (MkMatch 4 "<#C9>" [Some "C9"; None]) = Throw e ->
  replaceR re_channel_ref f "see <#C9>" = Throw e.
Proof.
  intros f e H. vm_compute. vm_compute in H. now rewrite H.
Qed.

Lemma channel_ref_absent : forall f,
  replaceR re_channel_ref f "ask <@U9|carol>" = Ok "ask <@U9|carol>".
Proof.
  intros f. vm_compute. reflexivity.
Qed.

Lemma user_ref_raises : forall f e,
  f (MkMatch 4 "<@U9|carol>" [Some "U9"; Some "carol"]) = Throw e ->
  replaceR re_user_ref f "ask <@U9|carol>" = Throw e.
Proof.
  intros f e H. vm_compute. vm_compute in H. now rewrite H.
Qed.

(** C2.  A channel reference or a user reference that the directory
    does not resolve makes [parseText] raise [TypeError]. *)
Theorem parseText_unresolved_reference_raises : forall bot,
  (getChannelById (dataStore bot) "C9" = None ->
   parseText emojis bot "see <#C9>" = Throw TypeError) /\
  (getUserById (dataStore bot) "U9" = None ->
   parseText emojis bot "ask <@U9|carol>" = Throw TypeError).
Proof.
  intros bot. split; intros H; unfold parseText; cbv zeta.
  - match goal with
    | |- context [replaceR re_channel_ref _ ?s] =>
        replace s with "see <#C9>" by (vm_compute; reflexivity)
    end.
    rewrite (channel_ref_raises _ TypeError); [reflexivity|].
    cbn [cap_text group mt_groups nth]. now rewrite H.
  - match goal with
    | |- context [replaceR re_channel_ref _ ?s] =>
        replace s with "ask <@U9|carol>" by (vm_compute; reflexivity)
    end.
    rewrite channel_ref_absent. cbn [rbind].
    rewrite (user_ref_raises _ TypeError); [reflexivity|].
    cbn [cap_text group mt_groups nth]. now rewrite H.
Qed.

End Commands.

Lemma example_relayable : forall text,
  relayable Example.bot (Example.say text) Example.general Example.alice "#general-irc".
Proof.
  intros text. unfold relayable. repeat split.
  simpl. intros [H|[]]. discriminate.
Qed.

Lemma unmatched_command_is_announced_witness :
  sendToIRC Example.emoji_table Example.bot (Example.say ". hi")
  = ([IrcSay "#general-irc" "Command sent from Slack by alice:";
      IrcSay "#general-irc" ". hi"], Ok tt).
Proof.
  apply (unmatched_command_is_announced Example.emoji_table Example.bot (Example.say ". hi")
           Example.general Example.alice "#general-irc" ". hi").
  - unfold relayable. repeat split. simpl. intros [H|[]]. discriminate.
  - reflexivity.
  - reflexivity.
  - reflexivity.
Defined.

(** C3, as the specification has it, fails on the message [. hi]: the
    dot is a command character and the rest, which starts with a
    space, does not match the expression of commands; the message is
    not sent as [<alice> . hi], and the notice is sent. *)
Lemma unmatched_command_not_relayed_normally :
  relayable Example.bot (Example.say ". hi") Example.general Example.alice "#general-irc" /\
  parseText Example.emoji_table Example.bot ". hi" = Ok ". hi" /\
  isCommandMessage Example.bot ". hi" = true /\
  exec re_command (Js.substring_from 1 ". hi") = None /\
  sendToIRC Example.emoji_table Example.bot (Example.say ". hi")
  <> ([IrcSay "#general-irc" "<alice> . hi"], Ok tt) /\
  In (IrcSay "#general-irc" "Command sent from Slack by alice:")
     (trace (sendToIRC Example.emoji_table Example.bot (Example.say ". hi"))).
Proof.
  split; [apply example_relayable|].
  repeat split; try reflexivity.
  - vm_compute. discriminate.
  - vm_compute. left. reflexivity.
Qed.

Lemma parseText_unresolved_reference_raises_witness :
  parseText Example.emoji_table Example.bot "see <#C9>" = Throw TypeError /\
  parseText Example.emoji_table Example.bot "ask <@U9|carol>" = Throw TypeError.
Proof.
  split.
  - apply (proj1 (parseText_unresolved_reference_raises Example.emoji_table Example.bot)).
    reflexivity.
  - apply (proj2 (parseText_unresolved_reference_raises Example.emoji_table Example.bot)).
    reflexivity.
Defined.

(** C10.  On the command [.msg bob hello], sent in a mapped channel
    by a user that is not muted, the dispatch raises before the
    notice: neither the notice nor the text of the command is sent. *)
Theorem command_text_not_sent_on_msg :
  relayable Example.bot (Example.say ".msg bob hello")
            Example.general Example.alice "#general-irc" /\
  parseText Example.emoji_table Example.bot ".msg bob hello" = Ok ".msg bob hello" /\
  isCommandMessage Example.bot ".msg bob hello" = true /\
  sendToIRC Example.emoji_table Example.bot (Example.say ".msg bob hello")
  = ([], Throw ReferenceError).
Proof.
  split; [apply example_relayable|].
  repeat split; reflexivity.
Qed.

(** The same happens, with [TypeError], for [.topic] without an
    argument. *)
Example command_text_not_sent_on_topic :
  sendToIRC Example.emoji_table Example.bot (Example.say ".topic") = ([], Throw TypeError).
Proof. reflexivity. Qed.

(** The other commands are announced and sent. *)
Example command_text_sent_on_online :
  sendToIRC Example.emoji_table Example.bot (Example.say ".online bo")
  = ([IrcOnce "names" (OnlineNames (Example.say ".online bo") (Some "bo") "#general-irc");
      IrcSend [Str "NAMES"; Str "#general-irc"];
      IrcSay "#general-irc" "Command sent from Slack by alice:";
      IrcSay "#general-irc" ".online bo"], Ok tt).
Proof. reflexivity. Qed.

(** ** The relay at work *)

Example relay_to_legacy :
  sendToIRC Example.emoji_table Example.bot
    (Example.say "<@U1|alice>: <#C1> hi <!channel> :smile: @bob &amp; <http://a.b|label>")
  = ([IrcSay "#general-irc" "<alice> alice: #general hi @channel :-) bob-sl & label"], Ok tt).
Proof. reflexivity. Qed.

(** An emoji code that is the name of an inherited member is found
    by [in], and replaced by what the member prints as. *)
Example relay_inherited_emoji :
  parseText Example.emoji_table Example.bot ":smile: :constructor: :__proto__: :nothing:"
  = Ok ":-) function Object() { [native code] } [object Object] :nothing:".
Proof. reflexivity. Qed.

Example relay_to_workspace :
  sendToSlack Example.bot "carol" "#General-IRC"
    (String COLOR "04red" ++ String RESET " alice: hi bob-sl bob")
  = ([WebPostMessage "C1" "`red` @alice: hi @bob @bob" "carol (IRC)"
        (Some "http://api.adorable.io/avatars/48/carol.png")], Ok tt).
Proof. reflexivity. Qed.

(** A legacy target whose name is that of an inherited member is
    found in the inverted table, as a function, and the call of its
    [replace] raises. *)
Example relay_from_target_named_constructor :
  sendToSlack Example.bot "carol" "Constructor" "hello" = ([], Throw TypeError) /\
  sendToSlack Example.bot "carol" "#elsewhere" "hello" = ([], Ok tt).
Proof. split; reflexivity. Qed.

(** [privMessage] on its own: the warning outside a direct
    conversation; in one, the read of [messageQueues], which the
    constructor does not create. *)
Lemma privMessage_shared_channel : forall bot message ircUser msg,
  Js.startsWith (msg_channel message) "D" = false ->
  privMessage bot message ircUser msg = ([WebImOpen (msg_user message) PrivWarn], Ok tt).
Proof.
  intros bot message ircUser msg H. unfold privMessage. rewrite H. reflexivity.
Qed.

Lemma privMessage_direct_unset : forall bot message ircUser msg,
  Js.startsWith (msg_channel message) "D" = true ->
  messageQueues bot = None ->
  privMessage bot message ircUser msg = ([], Throw TypeError).
Proof.
  intros bot message ircUser msg H Hq. unfold privMessage. rewrite H, Hq. reflexivity.
Qed.

(** With a queue table in place, the callback of [whois] for a target
    that is online queues the text and then raises, on the call of the
    missing method. *)
Example privMessage_whois_online :
  let bot :=
    MkBot empty_store "" "" [] [] [] false "-sl" re_dot (MkMuteUsers [] []) None "" [] []
          None (Some [("U1", [])]) in
  let message := MkMessage "D1" "U1" ".msg bob hello" None None in
  messageQueues (fst (privMessage_whois bot message "bob" "hello" (Some "irc.example.org")))
  = Some [("U1", [("bob", ["hello"])])] /\
  snd (privMessage_whois bot message "bob" "hello" (Some "irc.example.org"))
  = ([], Throw TypeError).
Proof. split; reflexivity. Qed.

Lemma Bot_new_messageQueues : forall validate options bot,
  Bot_new validate options = Ok bot -> messageQueues bot = None /\ ircClients bot = None.
Proof.
  intros validate options bot Hnew. unfold Bot_new in Hnew.
  destruct (required (opt_server options)); simpl in Hnew; [|discriminate].
  destruct (required (opt_nickname options)); simpl in Hnew; [|discriminate].
  destruct (opt_channelMapping options); simpl in Hnew; [|discriminate].
  destruct (required (opt_token options)); simpl in Hnew; [|discriminate].
  destruct (validate o); simpl in Hnew; [|discriminate].
  destruct (RegExp_new _ _); simpl in Hnew; [|discriminate].
  injection Hnew as <-. split; reflexivity.
Qed.

(** ** Highlighting of user names *)

(** C7.  The user name is read as a pattern: for the name [john.doe]
    the token [john-doe], which is not the name, is prefixed. *)
Theorem highlightUsername_dot_matches_any :
  highlightUsername "john.doe" "john-doe left, john.doe: stayed"
  = Ok "@john-doe left, @john.doe: stayed".
Proof. reflexivity. Qed.

(** C6.  For the name [..] a second application prefixes the token
    again, and so does a second pass over the members of a channel. *)
Theorem highlightUsername_prefixes_twice :
  highlightUsername ".." "a." = Ok "@a." /\
  highlightUsername ".." "@a." = Ok "@@a." /\
  (let bot :=
     MkBot (MkDataStore (fun _ => Some (MkUser "U7" "..")) (fun _ => None)
                        (fun _ => None) (fun _ => None))
           "" "" [] [] [] false "-sl" re_dot (MkMuteUsers [] []) None "" [] [] None None in
   let channel := MkChannel "C1" "general" true true false ["U7"] in
   mapSlackUsers bot channel "a." = Ok "@a." /\
   mapSlackUsers bot channel "@a." = Ok "@@a.").
Proof. repeat split. Qed.

(** A name that is not a well-formed pattern makes the function raise. *)
Example highlightUsername_raises :
  highlightUsername "c++" "c++ rocks" = Throw SyntaxError.
Proof. reflexivity. Qed.

(** *** Names without pattern characters

    For a name in which no character has a meaning in a pattern, the
    function does what the specification says. *)

Module SyntaxFacts.
Import RegexSyntax.

Ltac split_plain H :=
  unfold plain_char in H; apply negb_true_iff in H;
  repeat (apply orb_false_iff in H; let H' := fresh "H" in destruct H as [H H']).

Lemma parse_quant_none : forall a c s idx,
  Ascii.eqb c "*" = false -> Ascii.eqb c "+" = false ->
  Ascii.eqb c "?" = false -> Ascii.eqb c "{" = false ->
  parse_quant a (String c s) idx = Some (a, String c s, idx).
Proof.
  intros a c s idx H1 H2 H3 H4. unfold parse_quant. now rewrite H1, H2, H3, H4.
Qed.

Lemma parse_term_plain : forall f c c' s idx,
  plain_char c = true ->
  Ascii.eqb c' "*" = false -> Ascii.eqb c' "+" = false ->
  Ascii.eqb c' "?" = false -> Ascii.eqb c' "{" = false ->
  parse_term (S f) (String c (String c' s)) idx = Some (RChar c, String c' s, idx).
Proof.
  intros f c c' s idx Hc H1 H2 H3 H4. split_plain Hc.
  cbn [parse_term].
  repeat match goal with
         | H : Ascii.eqb c _ = false |- _ => rewrite H; clear H
         end.
  cbn [orb]. now apply parse_quant_none.
Qed.

Lemma parse_alt_tail : forall f idx,
  parse_alt (S (S (S f))) "[,.:!?]?$" idx = Some (name_tail, "", idx).
Proof.
  intros f idx. reflexivity.
Qed.

Lemma parse_alt_plain : forall u f idx,
  plain u = true ->
  parse_alt (String.length u + S (S (S f))) (u ++ "[,.:!?]?$") idx
  = Some (lits u name_tail, "", idx).
Proof.
  induction u as [|c u IH]; intros f idx Hu.
  - apply parse_alt_tail.
  - simpl in Hu. apply andb_true_iff in Hu as [Hc Hu].
    cbn [String.length Nat.add append]. cbn [parse_alt].
    assert (Hbar : Ascii.eqb c "|" || Ascii.eqb c ")" = false).
    { split_plain Hc.
      repeat match goal with
             | H : Ascii.eqb c _ = false |- _ => rewrite H; clear H
             end.
      reflexivity. }
    rewrite Hbar.
    assert (Hterm : parse_term (String.length u + S (S (S f)))
                               (String c (u ++ "[,.:!?]?$")) idx
                    = Some (RChar c, u ++ "[,.:!?]?$", idx)).
    { replace (String.length u + S (S (S f))) with (S (String.length u + S (S f))) by lia.
      destruct u as [|c' u'].
      - apply parse_term_plain; [exact Hc | reflexivity..].
      - simpl in Hu. apply andb_true_iff in Hu as [Hc' _]. split_plain Hc'.
        cbn [append]. apply parse_term_plain; assumption. }
    rewrite Hterm. rewrite (IH f idx Hu). reflexivity.
Qed.

Lemma parse_disj_S : forall f s idx,
  parse_disj (S f) s idx =
  match parse_alt f s idx with
  | Some (a, String "|" s', idx') =>
      match parse_disj f s' idx' with
      | Some (b, s'', idx'') => Some (RAlt a b, s'', idx'')
      | None => None
      end
  | other => other
  end.
Proof.
  reflexivity.
Qed.

Lemma parse_alt_bol : forall f s idx,
  parse_alt (S (S f)) (String "^" s) idx =
  match parse_alt (S f) s idx with
  | Some (r, s'', idx'') => Some (RSeq RBol r, s'', idx'')
  | None => None
  end.
Proof.
  reflexivity.
Qed.

(** The pattern built from a plain name. *)
Lemma parse_name : forall u,
  plain u = true -> parse ("^" ++ u ++ "[,.:!?]?$") = Some (name_regex u).
Proof.
  intros u Hu. unfold parse.
  cbn [append String.length]. rewrite length_append. cbn [String.length].
  set (n := String.length u).
  replace (3 * S (n + 9) + 4) with (S (S (S (n + S (S (S (2 * n + 28))))))) by lia.
  rewrite parse_disj_S, parse_alt_bol.
  replace (S (n + S (S (S (2 * n + 28))))) with (n + S (S (S (S (2 * n + 28))))) by lia.
  unfold n. rewrite (parse_alt_plain u _ 0 Hu). reflexivity.
Qed.

Lemma RegExp_new_name : forall u,
  plain u = true ->
  RegExp_new ("^" ++ u ++ "[,.:!?]?$") "" = Ok (MkRegExp (name_regex u) false false).
Proof.
  intros u Hu. unfold RegExp_new. now rewrite (parse_name u Hu).
Qed.

End SyntaxFacts.

Module MatchFacts.
Import RegexFacts.

Lemma prefix_append : forall u t, String.prefix u (u ++ t) = true.
Proof.
  induction u as [|c u IH]; intros t; simpl.
  - destruct t; reflexivity.
  - destruct (ascii_dec c c); [apply IH | congruence].
Qed.

Lemma prefix_split : forall u w,
  String.prefix u w = true -> exists t, w = u ++ t.
Proof.
  induction u as [|c u IH]; intros w H.
  - now exists w.
  - destruct w as [|a w]; simpl in H; [discriminate|].
    destruct (ascii_dec c a) as [->|]; [|discriminate].
    apply IH in H as [t ->]. now exists t.
Qed.

Lemma rmatch_lits : forall u r k p t caps,
  rmatch false (lits u r) k (MState p (u ++ t) caps)
  = rmatch false r k (MState (p + String.length u) t caps).
Proof.
  induction u as [|c u IH]; intros r k p t caps.
  - simpl. now rewrite Nat.add_0_r.
  - cbn [lits rmatch append String.length]. unfold step_char. cbn [m_rest m_pos m_caps].
    unfold char_eq. rewrite Ascii.eqb_refl. rewrite IH. f_equal. f_equal. lia.
Qed.

Lemma rmatch_lits_fail : forall u r k p w caps,
  String.prefix u w = false ->
  rmatch false (lits u r) k (MState p w caps) = None.
Proof.
  induction u as [|c u IH]; intros r k p w caps H.
  - destruct w; discriminate.
  - cbn [lits rmatch]. unfold step_char. cbn [m_rest m_pos m_caps].
    destruct w as [|a w]; [reflexivity|]. simpl in H.
    unfold char_eq. destruct (Ascii.eqb_spec a c) as [->|Hne].
    + destruct (ascii_dec c c); [|congruence]. now apply IH.
    + reflexivity.
Qed.

Lemma set_match_punct : forall a, set_match false false PUNCT a = is_punct a.
Proof.
  intros a. unfold set_match, PUNCT, is_punct, citem_match, citem_raw. simpl.
  now rewrite orb_false_r, !orb_assoc.
Qed.

Lemma clear_caps_nil : forall s, clear_caps [] s = s.
Proof.
  intros [p r caps]. unfold clear_caps. cbn [m_pos m_rest m_caps]. f_equal.
  induction caps as [|e caps IH]; [reflexivity|].
  cbn [filter]. rewrite IH. reflexivity.
Qed.

Lemma rmatch_name_tail : forall p t caps,
  rmatch false name_tail Some (MState p t caps) =
  if tail_ok t then Some (MState (p + String.length t) "" caps) else None.
Proof.
  intros p t caps. unfold name_tail. cbn [rmatch m_rest].
  destruct t as [|a t].
  - cbn. now rewrite Nat.add_0_r.
  - cbn [String.length Nat.add]. rewrite rep_loop_S.
    cbn [max_is_zero Nat.eqb andb groups_of]. cbv zeta. rewrite clear_caps_nil.
    cbn [rmatch]. unfold step_char at 1. cbn [m_rest m_pos m_caps].
    rewrite set_match_punct. cbn [tail_ok].
    replace (S p =? p)%nat with false by (symmetry; apply Nat.eqb_neq; lia).
    destruct t as [|b t].
    + cbn [String.length]. rewrite rep_loop_S. cbn [dec_max option_map Nat.pred max_is_zero].
      cbn [m_rest orelse]. destruct (is_punct a); [|reflexivity].
      cbn [orelse]. f_equal. f_equal. lia.
    + cbn [String.length]. rewrite rep_loop_S. cbn [dec_max option_map Nat.pred max_is_zero].
      cbn [m_rest orelse]. destruct (is_punct a); reflexivity.
Qed.

Lemma search_bol : forall r g s i,
  search (MkRegExp (RSeq RBol r) g false) (S i) s = None.
Proof.
  intros r g. induction s as [|a s IH]; intros i; simpl; unfold match_at; simpl; auto.
Qed.

Lemma eqb_append_l : forall u a b, String.eqb (u ++ a) (u ++ b) = String.eqb a b.
Proof.
  induction u as [|c u IH]; intros a b; simpl; [reflexivity|].
  now rewrite Ascii.eqb_refl.
Qed.

Lemma names_user_append : forall u t, names_user u (u ++ t) = tail_ok t.
Proof.
  intros u t. unfold names_user. cbn [existsb].
  rewrite <- (append_nil_r u) at 2. rewrite !eqb_append_l.
  destruct t as [|a [|b t]]; [reflexivity| |]; simpl; unfold is_punct;
    repeat match goal with
           | |- context [Ascii.eqb ?x ?y] => destruct (Ascii.eqb x y)
           end; reflexivity.
Qed.

Lemma names_user_prefix : forall u w, names_user u w = true -> String.prefix u w = true.
Proof.
  intros u w H. unfold names_user in H. cbn [existsb] in H.
  repeat (apply orb_true_iff in H; destruct H as [H|H]);
    try discriminate; apply String.eqb_eq in H; subst;
    try apply prefix_append.
  rewrite <- (append_nil_r u) at 2. apply prefix_append.
Qed.

(** The test of the function on one token, for a plain name. *)
Lemma test_name : forall u w,
  test (MkRegExp (name_regex u) false false) w = names_user u w.
Proof.
  intros u w. unfold test, exec.
  assert (Hs : search (MkRegExp (name_regex u) false false) 0 w
               = match_at (MkRegExp (name_regex u) false false) 0 w).
  { destruct w as [|a w]; simpl.
    - destruct (match_at _ 0 ""); reflexivity.
    - destruct (match_at _ 0 (String a w)); [reflexivity|]. apply search_bol. }
  rewrite Hs. unfold match_at, name_regex. cbn [re_ast re_ignoreCase rmatch m_pos Nat.eqb].
  destruct (String.prefix u w) eqn:Hp.
  - apply prefix_split in Hp as [t ->].
    rewrite rmatch_lits, rmatch_name_tail, names_user_append.
    destruct (tail_ok t); reflexivity.
  - rewrite (rmatch_lits_fail u _ _ _ _ _ Hp).
    destruct (names_user u w) eqn:Hn; [|reflexivity].
    apply names_user_prefix in Hn. congruence.
Qed.

Lemma indexOf_from_zero : forall s needle i,
  (Js.indexOf_from i s needle =? 0)%Z = (i =? 0)%nat && String.prefix needle s.
Proof.
  induction s as [|a s IH]; intros needle i; cbn [Js.indexOf_from].
  - destruct (String.prefix needle ""); destruct i; reflexivity.
  - destruct (String.prefix needle (String a s)).
    + destruct i; reflexivity.
    + rewrite IH. cbn [Nat.eqb andb]. now rewrite andb_false_r.
Qed.

Lemma indexOf_zero : forall s needle,
  (Js.indexOf s needle =? 0)%Z = String.prefix needle s.
Proof.
  intros. unfold Js.indexOf. now rewrite indexOf_from_zero.
Qed.

End MatchFacts.

(** For a plain name, [highlightUsername] prefixes exactly the tokens
    that are the name, or the name followed by one of [,.:!?]. *)
Lemma highlightUsername_plain : forall user text,
  plain user = true ->
  highlightUsername user text
  = Ok (Js.join " " (map (highlight_word user) (Js.split " " text))).
Proof.
  intros user text Hu. unfold highlightUsername.
  rewrite (SyntaxFacts.RegExp_new_name user Hu). cbn [rbind].
  f_equal. f_equal. apply map_ext. intros w.
  rewrite MatchFacts.indexOf_zero, MatchFacts.test_name. unfold highlight_word.
  destruct (String.prefix ("@" ++ user) w); destruct (names_user user w); reflexivity.
Qed.

(** *** Tokens *)

Module SplitFacts.

Lemma split_not_nil : forall sep s, Js.split sep s <> [].
Proof.
  intros sep s. destruct s as [|c s]; simpl; [discriminate|].
  destruct (Ascii.eqb c sep); [discriminate|].
  destruct (Js.split sep s); discriminate.
Qed.

Lemma split_free : forall sep s, Forall (sep_free sep) (Js.split sep s).
Proof.
  intros sep. induction s as [|c s IH]; simpl.
  - constructor; [reflexivity | constructor].
  - destruct (Ascii.eqb c sep) eqn:Hc.
    + constructor; [reflexivity | exact IH].
    + destruct (Js.split sep s) as [|w ws].
      * constructor; [unfold sep_free; simpl; now rewrite Hc | constructor].
      * inversion IH as [|? ? Hw Hws]; subst.
        constructor; [unfold sep_free in *; simpl; now rewrite Hc, Hw | exact Hws].
Qed.

Lemma split_append : forall sep w rest,
  sep_free sep w ->
  Js.split sep (w ++ String sep rest) = w :: Js.split sep rest.
Proof.
  intros sep. induction w as [|c w IH]; intros rest Hw; simpl.
  - now rewrite Ascii.eqb_refl.
  - unfold sep_free in Hw. simpl in Hw. apply orb_false_iff in Hw as [Hc Hw].
    rewrite Hc. now rewrite (IH rest Hw).
Qed.

Lemma split_single : forall sep w, sep_free sep w -> Js.split sep w = [w].
Proof.
  intros sep. induction w as [|c w IH]; intros Hw; simpl; [reflexivity|].
  unfold sep_free in Hw. simpl in Hw. apply orb_false_iff in Hw as [Hc Hw].
  rewrite Hc. now rewrite (IH Hw).
Qed.

Lemma split_join : forall sep ws,
  ws <> [] -> Forall (sep_free sep) ws ->
  Js.split sep (Js.join (String sep "") ws) = ws.
Proof.
  intros sep. induction ws as [|w ws IH]; intros Hne Hall; [congruence|].
  inversion Hall as [|? ? Hw Hws]; subst.
  destruct ws as [|w' ws'].
  - simpl. now apply split_single.
  - unfold Js.join in *. cbn [String.concat]. cbn [append].
    rewrite (split_append sep w _ Hw). f_equal. apply IH; [discriminate | exact Hws].
Qed.

Lemma join_split : forall sep s, Js.join (String sep "") (Js.split sep s) = s.
Proof.
  intros sep. induction s as [|c s IH]; simpl; [reflexivity|].
  destruct (Ascii.eqb_spec c sep) as [->|Hne].
  - unfold Js.join in *. cbn [String.concat].
    destruct (Js.split sep s) as [|w ws] eqn:Hs.
    + now apply split_not_nil in Hs.
    + cbn [append]. now rewrite IH.
  - unfold Js.join in *. destruct (Js.split sep s) as [|w ws] eqn:Hs.
    + now apply split_not_nil in Hs.
    + destruct ws as [|w' ws']; simpl in *; now rewrite IH.
Qed.

End SplitFacts.

(** *** Idempotence for plain names *)

Lemma prefix_cons : forall c u w, String.prefix (String c u) (String c w) = String.prefix u w.
Proof.
  intros c u w. simpl. destruct (ascii_dec c c); [reflexivity | congruence].
Qed.

Lemma highlight_word_idempotent : forall u w,
  highlight_word u (highlight_word u w) = highlight_word u w.
Proof.
  intros u w.
  destruct (negb (String.prefix ("@" ++ u) w) && names_user u w) eqn:Hc.
  - assert (E : highlight_word u w = "@" ++ w)
      by (unfold highlight_word; now rewrite Hc).
    rewrite E. apply andb_true_iff in Hc as [_ Hn].
    apply MatchFacts.names_user_prefix in Hn.
    unfold highlight_word. cbn [append]. rewrite prefix_cons, Hn. reflexivity.
  - assert (E : highlight_word u w = w)
      by (unfold highlight_word; now rewrite Hc).
    rewrite E. exact E.
Qed.

Lemma highlight_word_free : forall u w,
  sep_free " " w -> sep_free " " (highlight_word u w).
Proof.
  intros u w Hw. unfold highlight_word.
  destruct (negb _ && _); [|exact Hw]. unfold sep_free in *. simpl. exact Hw.
Qed.

Lemma tokens_highlighted : forall f text,
  (forall w, sep_free " " w -> sep_free " " (f w)) ->
  Js.split " " (Js.join " " (map f (Js.split " " text))) = map f (Js.split " " text).
Proof.
  intros f text Hf. apply SplitFacts.split_join.
  - pose proof (SplitFacts.split_not_nil " " text) as Hne.
    destruct (Js.split " " text); [congruence | discriminate].
  - pose proof (SplitFacts.split_free " " text) as Hall.
    induction Hall; constructor; auto.
Qed.

(** For a plain name a second application changes nothing. *)
Lemma highlightUsername_idempotent : forall user text once,
  plain user = true ->
  highlightUsername user text = Ok once ->
  highlightUsername user once = Ok once.
Proof.
  intros user text once Hu H. rewrite (highlightUsername_plain user text Hu) in H.
  injection H as <-. rewrite (highlightUsername_plain user _ Hu).
  rewrite tokens_highlighted by (intros w; apply highlight_word_free).
  rewrite map_map. f_equal. f_equal. apply map_ext. intros w.
  apply highlight_word_idempotent.
Qed.

Lemma pass_word_free : forall names w,
  sep_free " " w -> sep_free " " (pass_word names w).
Proof.
  induction names as [|u names IH]; intros w Hw; simpl; [exact Hw|].
  apply IH. now apply highlight_word_free.
Qed.

Lemma reduce_plain : forall names text,
  Forall member_name names ->
  reduceR (fun current username => highlightUsername username current) names text
  = Ok (Js.join " " (map (pass_word names) (Js.split " " text))).
Proof.
  induction names as [|u names IH]; intros text Hall.
  - simpl. rewrite map_id. now rewrite (SplitFacts.join_split " " text).
  - inversion Hall as [|? ? [Hu _] Hnames]; subst.
    cbn [reduceR]. rewrite (highlightUsername_plain u text Hu). cbn [rbind].
    rewrite (IH _ Hnames).
    rewrite tokens_highlighted by (intros w; apply highlight_word_free).
    rewrite map_map. reflexivity.
Qed.

Lemma prefix_nil : forall w, String.prefix "" w = true.
Proof.
  destruct w; reflexivity.
Qed.

Lemma prefix_String : forall c u a w,
  String.prefix (String c u) (String a w) = Ascii.eqb c a && String.prefix u w.
Proof.
  intros c u a w. cbn [String.prefix].
  destruct (ascii_dec c a) as [->|Hne].
  - now rewrite Ascii.eqb_refl.
  - apply Ascii.eqb_neq in Hne. now rewrite Hne.
Qed.

Lemma prefix_at : forall w, String.prefix "@" ("@" ++ w) = true.
Proof.
  intros w. cbn [append]. now rewrite prefix_String, Ascii.eqb_refl, prefix_nil.
Qed.

Lemma highlight_word_at : forall u w,
  String.prefix "@" u = false -> String.prefix "@" w = true ->
  highlight_word u w = w.
Proof.
  intros u w Hu Hw. unfold highlight_word.
  destruct (names_user u w) eqn:Hn; [|now rewrite andb_false_r].
  exfalso. pose proof (MatchFacts.names_user_prefix u w Hn) as Hp.
  apply MatchFacts.prefix_split in Hp as [t ->].
  rewrite MatchFacts.names_user_append in Hn.
  destruct u as [|c u].
  - cbn [append] in Hw. destruct t as [|a [|b t]]; cbn [tail_ok] in Hn.
    + discriminate Hw.
    + rewrite prefix_String, prefix_nil, andb_true_r in Hw.
      apply Ascii.eqb_eq in Hw. subst a. vm_compute in Hn. discriminate Hn.
    + discriminate Hn.
  - cbn [append] in Hw. rewrite prefix_String, prefix_nil in Hu, Hw. congruence.
Qed.

Lemma pass_word_at : forall names w,
  Forall member_name names -> String.prefix "@" w = true -> pass_word names w = w.
Proof.
  induction names as [|u names IH]; intros w Hall Hw; simpl; [reflexivity|].
  inversion Hall as [|? ? [_ Hu] Hnames]; subst.
  rewrite (highlight_word_at u w Hu Hw). now apply IH.
Qed.

Lemma highlight_word_cases : forall u w,
  highlight_word u w = w \/ highlight_word u w = "@" ++ w.
Proof.
  intros u w. unfold highlight_word. destruct (negb _ && _); auto.
Qed.

Lemma pass_word_cases : forall names w,
  Forall member_name names ->
  pass_word names w = w \/ pass_word names w = "@" ++ w.
Proof.
  induction names as [|u names IH]; intros w Hall; simpl; [now left|].
  inversion Hall as [|? ? Hu Hnames]; subst.
  destruct (highlight_word_cases u w) as [->| ->].
  - now apply IH.
  - right. apply pass_word_at; [exact Hnames | apply prefix_at].
Qed.

Lemma pass_word_idempotent : forall names w,
  Forall member_name names ->
  pass_word names (pass_word names w) = pass_word names w.
Proof.
  intros names w Hall. destruct (pass_word_cases names w Hall) as [H|H]; rewrite H.
  - exact H.
  - apply pass_word_at; [exact Hall | apply prefix_at].
Qed.

(** For members whose names are plain and do not start with [@], a
    second pass over the members of the channel changes nothing. *)
Lemma mapSlackUsers_idempotent : forall bot slackChannel names text once,
  currentChannelUsernames bot slackChannel = Ok names ->
  Forall member_name names ->
  mapSlackUsers bot slackChannel text = Ok once ->
  mapSlackUsers bot slackChannel once = Ok once.
Proof.
  intros bot slackChannel names text once Hnames Hall H.
  unfold mapSlackUsers in *. rewrite Hnames in *. cbn [rbind] in *.
  rewrite (reduce_plain names text Hall) in H. injection H as <-.
  rewrite (reduce_plain names _ Hall).
  rewrite tokens_highlighted by (intros w; apply pass_word_free).
  rewrite map_map. f_equal. f_equal. apply map_ext. intros w.
  now apply pass_word_idempotent.
Qed.

(** ** The quantifier never runs out of fuel *)

Module FuelFacts.
Import Regex RegexFacts.

Lemma reach_clear : forall gs s y w, reach (clear_caps gs s) y w -> reach s y w.
Proof.
  intros gs s y w H. now apply reach_same with (clear_caps gs s).
Qed.

Lemma rep_loop_local : forall ma gs greedy,
  local_cont ma ->
  forall fuel k1 k2 min max s,
    (forall y w, reach s y w -> k1 y = k2 y) ->
    rep_loop ma gs greedy k1 fuel min max s = rep_loop ma gs greedy k2 fuel min max s.
Proof.
  intros ma gs greedy Hma. induction fuel as [|fuel IH]; intros k1 k2 min max s Hk;
    [reflexivity|].
  rewrite !rep_loop_S. cbv zeta.
  rewrite (Hk s "" (reach_refl s)).
  assert (Hd : ma (fun y => if ((min =? 0) && (m_pos y =? m_pos s))%nat then None
                            else rep_loop ma gs greedy k1 fuel (Nat.pred min) (dec_max max) y)
                  (clear_caps gs s)
               = ma (fun y => if ((min =? 0) && (m_pos y =? m_pos s))%nat then None
                              else rep_loop ma gs greedy k2 fuel (Nat.pred min) (dec_max max) y)
                    (clear_caps gs s)).
  { apply Hma. intros y w Hr. destruct ((min =? 0) && (m_pos y =? m_pos s))%nat; [reflexivity|].
    apply IH. intros z w' Hr'. apply (Hk z (w ++ w')).
    apply reach_trans with y; [now apply reach_clear with gs | exact Hr']. }
  rewrite Hd. reflexivity.
Qed.

Lemma rmatch_local : forall ic r, local_cont (rmatch ic r).
Proof.
  intros ic. induction r as [|c| |neg items| | |a IHa b IHb|a IHa b IHb
                            |min max greedy a IHa|i a IHa|neg a IHa];
    intros k1 k2 s Hk; cbn [rmatch].
  - apply (Hk s "" (reach_refl s)).
  - unfold step_char. destruct (m_rest s) as [|x t] eqn:Hr; [reflexivity|].
    destruct (char_eq ic x c); [|reflexivity].
    apply (Hk _ (String x "")). split; simpl; [exact Hr | lia].
  - unfold step_char. destruct (m_rest s) as [|x t] eqn:Hr; [reflexivity|].
    destruct (negb (is_line_terminator x)); [|reflexivity].
    apply (Hk _ (String x "")). split; simpl; [exact Hr | lia].
  - unfold step_char. destruct (m_rest s) as [|x t] eqn:Hr; [reflexivity|].
    destruct (set_match ic neg items x); [|reflexivity].
    apply (Hk _ (String x "")). split; simpl; [exact Hr | lia].
  - destruct (m_pos s =? 0)%nat; [|reflexivity]. apply (Hk s "" (reach_refl s)).
  - destruct (m_rest s); [|reflexivity]. apply (Hk s "" (reach_refl s)).
  - apply IHa. intros y w Hr. apply IHb. intros z w' Hr'.
    apply (Hk z (w ++ w')). now apply reach_trans with y.
  - rewrite (IHa k1 k2 s Hk), (IHb k1 k2 s Hk). reflexivity.
  - now apply rep_loop_local.
  - apply IHa. intros y w [R P]. apply (Hk _ w). split; simpl; assumption.
  - destruct (rmatch ic a Some s); destruct neg; try reflexivity.
    + apply (Hk _ ""). split; simpl; [reflexivity | lia].
    + apply (Hk s "" (reach_refl s)).
Qed.

Lemma reach_length : forall s y w,
  reach s y w -> String.length (m_rest s) = String.length w + String.length (m_rest y).
Proof.
  intros s y w [R _]. rewrite R. apply length_append.
Qed.

(** Any fuel above the number of mandatory iterations plus the
    length of the remaining input gives the same result. *)
Lemma rep_loop_fuel : forall ma gs greedy k,
  local_cont ma ->
  forall fuel1 fuel2 min max s,
    min + String.length (m_rest s) < fuel1 ->
    min + String.length (m_rest s) < fuel2 ->
    rep_loop ma gs greedy k fuel1 min max s = rep_loop ma gs greedy k fuel2 min max s.
Proof.
  intros ma gs greedy k Hma.
  induction fuel1 as [|fuel1 IH]; intros fuel2 min max s H1 H2; [lia|].
  destruct fuel2 as [|fuel2]; [lia|].
  rewrite !rep_loop_S. cbv zeta.
  assert (Hd : ma (fun y => if ((min =? 0) && (m_pos y =? m_pos s))%nat then None
                            else rep_loop ma gs greedy k fuel1 (Nat.pred min) (dec_max max) y)
                  (clear_caps gs s)
               = ma (fun y => if ((min =? 0) && (m_pos y =? m_pos s))%nat then None
                              else rep_loop ma gs greedy k fuel2 (Nat.pred min) (dec_max max) y)
                    (clear_caps gs s)).
  { apply Hma. intros y w Hr. apply reach_clear in Hr.
    destruct ((min =? 0) && (m_pos y =? m_pos s))%nat eqn:Hc; [reflexivity|].
    pose proof (reach_length s y w Hr) as Hlen. destruct Hr as [_ Hpos].
    assert (Hlt : Nat.pred min + String.length (m_rest y) < min + String.length (m_rest s)).
    { apply andb_false_iff in Hc as [Hc|Hc]; apply Nat.eqb_neq in Hc; lia. }
    apply IH; lia. }
  rewrite Hd. reflexivity.
Qed.

(** The fuel that [rmatch] gives the quantifier is enough. *)
Lemma rmatch_rep_fuel : forall ic min max greedy a k s extra,
  rep_loop (rmatch ic a) (groups_of a) greedy k
           (S (min + String.length (m_rest s)) + extra) min max s
  = rmatch ic (RRep min max greedy a) k s.
Proof.
  intros. cbn [rmatch]. apply rep_loop_fuel; [apply rmatch_local | lia | lia].
Qed.

(** The two forms of [replace] agree. *)
Lemma replace_go_fn : forall re f s i skip active,
  replace_go re (fun m => Ok (f m)) i s skip active
  = Ok (replace_fn_go re f i s skip active).
Proof.
  intros re f. induction s as [|c s IH]; intros i skip active.
  - destruct skip; simpl; [|reflexivity].
    destruct (if active then match_at re i "" else None); reflexivity.
  - destruct skip as [|skip]; cbn [replace_go replace_fn_go]; [|apply IH].
    destruct (if active then match_at re i (String c s) else None) as [m|].
    + cbn [rbind]. destruct (String.length (mt_text m) =? 0)%nat; rewrite IH; reflexivity.
    + rewrite IH. reflexivity.
Qed.

End FuelFacts.

(** ** [parseText] when every reference resolves *)

Lemma replace_go_total : forall re f,
  (forall m, exists v, f m = Ok v) ->
  forall s i skip active, exists t, replace_go re f i s skip active = Ok t.
Proof.
  intros re f Hf. induction s as [|c s IH]; intros i skip active.
  - destruct skip; simpl; [|now eexists].
    destruct (if active then match_at re i "" else None) as [m|]; [|now eexists].
    destruct (Hf m) as [v ->]. now eexists.
  - destruct skip as [|skip]; cbn [replace_go]; [|apply IH].
    destruct (if active then match_at re i (String c s) else None) as [m|].
    + destruct (Hf m) as [v ->]. cbn [rbind].
      destruct (String.length (mt_text m) =? 0)%nat.
      * destruct (IH (S i) 0 (re_global re)) as [t ->]. now eexists.
      * destruct (IH (S i) (String.length (mt_text m) - 1) (re_global re)) as [t ->].
        now eexists.
    + destruct (IH (S i) 0 active) as [t ->]. now eexists.
Qed.

(** With a directory that answers every lookup, [parseText] gives a
    text for every input. *)
Lemma parseText_total_when_resolved : forall emojis bot text,
  (forall id, exists c, getChannelById (dataStore bot) id = Some c) ->
  (forall id, exists u, getUserById (dataStore bot) id = Some u) ->
  exists parsed, parseText emojis bot text = Ok parsed.
Proof.
  intros emojis bot text Hc Hu. unfold parseText. cbv zeta.
  match goal with
  | |- context [replaceR re_channel_ref ?f ?s] =>
      assert (H8 : exists t, replaceR re_channel_ref f s = Ok t)
        by (apply replace_go_total; intros m;
            destruct (Hc (cap_text m 1)) as [c ->]; now eexists)
  end.
  destruct H8 as [t8 H8]. rewrite H8. cbn [rbind].
  match goal with
  | |- context [replaceR re_user_ref ?f ?s] =>
      assert (H9 : exists t, replaceR re_user_ref f s = Ok t)
        by (apply replace_go_total; intros m;
            destruct (Hu (cap_text m 1)) as [u ->]; now eexists)
  end.
  destruct H9 as [t9 H9]. rewrite H9. cbn [rbind]. now eexists.
Qed.

(** ** The expressions of the program *)

(** Every expression literal of the program is a well-formed
    pattern. *)
Lemma literals_well_formed :
  RegExp_new "@(\S+)" "g" = Ok SLACK_REGEX /\
  RegExp_new "```([^]*)```" "" = Ok CODE_REGEX /\
  RegExp_new "\n|\r\n|\r" "g" = Ok re_newline /\
  RegExp_new "&amp;" "g" = Ok re_amp /\
  RegExp_new "&lt;" "g" = Ok re_lt /\
  RegExp_new "&gt;" "g" = Ok re_gt /\
  RegExp_new "<!channel>" "g" = Ok re_bang_channel /\
  RegExp_new "<!group>" "g" = Ok re_bang_group /\
  RegExp_new "<!everyone>" "g" = Ok re_bang_everyone /\
  RegExp_new "<#(C\w+)\|?(\w+)?>" "g" = Ok re_channel_ref /\
  RegExp_new "<@(U\w+)\|?(\w+)?>" "g" = Ok re_user_ref /\
  RegExp_new "<(?!!)([^|]+?)>" "g" = Ok re_link /\
  RegExp_new "<!(\w+)\|?(\w+)?>" "g" = Ok re_command_ref /\
  RegExp_new ":(\w+):" "g" = Ok re_emoji /\
  RegExp_new "<.+?\|(.+?)>" "g" = Ok re_labelled /\
  RegExp_new "\." "g" = Ok re_dot /\
  RegExp_new "^#" "" = Ok re_hash /\
  RegExp_new "\$username" "g" = Ok re_username /\
  RegExp_new "\x03\d{2}(.+?)\x0F" "g" = Ok re_color /\
  RegExp_new "\x02(.+?)\x0F" "g" = Ok re_bold /\
  RegExp_new "^(\w+)\s?(\S+)?\s?(.*)$" "i" = Ok re_command.
Proof.
  repeat split; vm_compute; reflexivity.
Qed.

(** The matcher at work on the expression of commands. *)
Example command_with_argument_and_text :
  exec re_command "msg bob hello there"
  = Some (MkMatch 0 "msg bob hello there" [Some "msg"; Some "bob"; Some "hello there"]).
Proof. reflexivity. Qed.

Example command_alone :
  exec re_command "help" = Some (MkMatch 0 "help" [Some "help"; None; Some ""]).
Proof. reflexivity. Qed.

Example command_after_space :
  exec re_command " help" = None.
Proof. reflexivity. Qed.

(** Greedy and lazy quantifiers, an empty match, a group inside a
    repetition. *)
Example replace_empty_matches :
  replace_str (lit "a*" "g") "X" "aab" = "XXbX".
Proof. reflexivity. Qed.

Example replace_lazy :
  replace_str (lit "<(.+?)>" "g") "[$1]" "<a> and <b>" = "[a] and [b]".
Proof. reflexivity. Qed.

Example replace_greedy :
  replace_str (lit "<(.+)>" "g") "[$1]" "<a> and <b>" = "[a> and <b]".
Proof. reflexivity. Qed.

Example group_reset_in_repetition :
  exec (lit "(?:(a)|b)+" "") "ab" = Some (MkMatch 0 "ab" [None]).
Proof. reflexivity. Qed.

(** ** Nicknames of the shadow sessions *)

Lemma expand_dash : forall input m, expand "-" input m = "-".
Proof.
  reflexivity.
Qed.

Lemma match_at_dot : forall i a s,
  match_at re_dot i (String a s) =
  if Ascii.eqb a "." then Some (MkMatch i (String a "") []) else None.
Proof.
  intros i a s. unfold match_at, re_dot. cbn [re_ast re_ignoreCase rmatch].
  unfold step_char. cbn [m_rest m_pos m_caps]. unfold char_eq.
  destruct (Ascii.eqb a "."); [|reflexivity].
  cbn [m_pos m_caps ngroups groups_of app max_list seq map].
  replace (S i - i) with 1 by lia. destruct s; reflexivity.
Qed.

Lemma match_at_dot_end : forall i, match_at re_dot i "" = None.
Proof.
  reflexivity.
Qed.

Lemma replace_dots_go : forall input s i,
  replace_fn_go re_dot (fun m => expand "-" input m) i s 0 true = Js.map_chars dash s.
Proof.
  intros input. induction s as [|a s IH]; intros i.
  - reflexivity.
  - cbn [replace_fn_go Js.map_chars]. rewrite match_at_dot. unfold dash.
    destruct (Ascii.eqb a ".").
    + cbn [mt_text String.length Nat.eqb Nat.sub re_global re_dot].
      rewrite expand_dash. cbn [append]. f_equal. apply IH.
    + f_equal. apply IH.
Qed.

(** The replacement of the dots, character by character. *)
Lemma replace_dots : forall s, replace_str re_dot "-" s = Js.map_chars dash s.
Proof.
  intros s. unfold replace_str, replace_fn. apply replace_dots_go.
Qed.

Lemma length_map_chars : forall f s, String.length (Js.map_chars f s) = String.length s.
Proof.
  intros f. induction s as [|a s IH]; simpl; [reflexivity | now rewrite IH].
Qed.

Lemma map_chars_append : forall f a b,
  Js.map_chars f (a ++ b) = Js.map_chars f a ++ Js.map_chars f b.
Proof.
  intros f. induction a as [|x a IH]; intros b; simpl; [reflexivity | now rewrite IH].
Qed.

Lemma length_substr0 : forall n s,
  String.length (Js.substr0 n s) = Nat.min n (String.length s).
Proof.
  unfold Js.substr0. induction n as [|n IH]; intros s.
  - destruct s; reflexivity.
  - destruct s as [|a s]; [reflexivity|]. cbn [String.substring String.length Nat.min].
    now rewrite IH.
Qed.

Lemma substr0_append : forall n a b,
  n <= String.length a -> Js.substr0 n (a ++ b) = Js.substr0 n a.
Proof.
  unfold Js.substr0. induction n as [|n IH]; intros a b Hn.
  - destruct a, b; reflexivity.
  - destruct a as [|x a]; [simpl in Hn; lia|].
    cbn [append String.substring]. f_equal. apply IH. simpl in Hn. lia.
Qed.

Lemma contains_substr0 : forall c n s,
  contains c s = false -> contains c (Js.substr0 n s) = false.
Proof.
  unfold Js.substr0. intros c. induction n as [|n IH]; intros s H.
  - destruct s; reflexivity.
  - destruct s as [|a s]; [reflexivity|]. simpl in H. apply orb_false_iff in H as [Ha Hs].
    cbn [String.substring contains]. now rewrite Ha, IH.
Qed.

Lemma contains_dot_dashed : forall s, contains "." (Js.map_chars dash s) = false.
Proof.
  induction s as [|a s IH]; [reflexivity|]. cbn [Js.map_chars contains]. rewrite IH.
  unfold dash. destruct (Ascii.eqb a ".") eqn:Ha; [reflexivity|]. now rewrite Ha.
Qed.

Lemma dash_idempotent : forall s,
  Js.map_chars dash (Js.map_chars dash s) = Js.map_chars dash s.
Proof.
  induction s as [|a s IH]; [reflexivity|]. cbn [Js.map_chars]. rewrite IH. f_equal.
  unfold dash. destruct (Ascii.eqb a ".") eqn:Ha; [reflexivity|]. now rewrite Ha.
Qed.

(** The nickname is a stem followed by the suffix; the stem is the
    beginning of the name, as many characters as the suffix leaves
    of the sixteen, with every dot turned into a dash. *)
Theorem ircNick_shape : forall bot slackName,
  let stem := Js.substr0 (SERVER_NICKLEN - String.length (nickSuffix bot))
                         (Js.map_chars dash slackName) in
  ircNick bot slackName = stem ++ nickSuffix bot /\
  contains "." stem = false /\
  String.length stem
  = Nat.min (SERVER_NICKLEN - String.length (nickSuffix bot)) (String.length slackName).
Proof.
  intros bot slackName stem. unfold ircNick. rewrite replace_dots. fold stem.
  split; [reflexivity|]. split.
  - apply contains_substr0, contains_dot_dashed.
  - unfold stem. now rewrite length_substr0, length_map_chars.
Qed.

(** With a suffix of at most sixteen characters no nickname is longer
    than sixteen characters. *)
Theorem ircNick_length : forall bot slackName,
  String.length (nickSuffix bot) <= SERVER_NICKLEN ->
  String.length (ircNick bot slackName) <= SERVER_NICKLEN.
Proof.
  intros bot slackName Hs. unfold ircNick.
  rewrite length_append, length_substr0. lia.
Qed.

Lemma ircNick_length_witness :
  String.length (ircNick Example.bot "a.very.long.workspace.user.name") <= SERVER_NICKLEN.
Proof.
  apply ircNick_length. vm_compute. lia.
Defined.

(** Two names get the same nickname when they agree on the characters
    that the suffix leaves room for, and a name and the name with its
    dots written as dashes always do. *)
Theorem ircNick_collisions : forall bot common a b,
  SERVER_NICKLEN - String.length (nickSuffix bot) <= String.length common ->
  ircNick bot (common ++ a) = ircNick bot (common ++ b) /\
  ircNick bot (Js.map_chars dash a) = ircNick bot a.
Proof.
  intros bot common a b Hlen. unfold ircNick. rewrite !replace_dots. split.
  - rewrite !map_chars_append.
    rewrite !substr0_append by (rewrite length_map_chars; exact Hlen). reflexivity.
  - now rewrite dash_idempotent.
Qed.

Lemma ircNick_collisions_witness :
  ircNick Example.bot ("christopher.w" ++ "alker") = ircNick Example.bot ("christopher.w" ++ "ong") /\
  ircNick Example.bot (Js.map_chars dash "alker") = ircNick Example.bot "alker".
Proof.
  apply ircNick_collisions. vm_compute. lia.
Defined.

(** ** Replacements that change nothing *)

Lemma substring_prefix_drop : forall n s,
  String.substring 0 n s ++ Js.substring_from (String.length (String.substring 0 n s)) s = s.
Proof.
  induction n as [|n IH]; intros s.
  - destruct s; reflexivity.
  - destruct s as [|a s]; [reflexivity|].
    cbn [String.substring String.length Js.substring_from append]. now rewrite IH.
Qed.

Lemma substring_empty : forall n, String.substring 0 n "" = "".
Proof.
  destruct n; reflexivity.
Qed.

Lemma length_zero : forall s, String.length s = 0 -> s = "".
Proof.
  destruct s; [reflexivity | discriminate].
Qed.

Lemma match_at_text : forall re i s m,
  match_at re i s = Some m -> exists n, mt_text m = String.substring 0 n s.
Proof.
  intros re i s m H. unfold match_at in H.
  destruct (rmatch _ _ _ _) as [e|]; [|discriminate].
  injection H as <-. now eexists.
Qed.

Lemma substring_from_empty : forall n, Js.substring_from n "" = "".
Proof.
  destruct n; reflexivity.
Qed.

(** Replacing every match by its own text gives the text back. *)
Lemma replace_self_go : forall re s i skip active,
  replace_fn_go re (fun m => mt_text m) i s skip active = Js.substring_from skip s.
Proof.
  intros re. induction s as [|c s IH]; intros i skip active.
  - rewrite substring_from_empty. destruct skip; cbn [replace_fn_go]; [|reflexivity].
    destruct (if active then match_at re i "" else None) as [m|] eqn:Hm; [|reflexivity].
    destruct active; [|discriminate].
    apply match_at_text in Hm as [n ->]. apply substring_empty.
  - destruct skip as [|skip]; cbn [replace_fn_go Js.substring_from]; [|apply IH].
    destruct (if active then match_at re i (String c s) else None) as [m|] eqn:Hm.
    + destruct active; [|discriminate].
      apply match_at_text in Hm as [n Hn].
      destruct (String.length (mt_text m) =? 0)%nat eqn:Hz.
      * apply Nat.eqb_eq, length_zero in Hz. rewrite Hz, IH. reflexivity.
      * apply Nat.eqb_neq in Hz. rewrite IH.
        pose proof (substring_prefix_drop n (String c s)) as Hs. rewrite <- Hn in Hs.
        destruct (String.length (mt_text m)) as [|k]; [congruence|].
        cbn [Js.substring_from] in Hs. now replace (S k - 1) with k by lia.
    + now rewrite IH.
Qed.

Lemma replace_self : forall re s, replace_fn re (fun m => mt_text m) s = s.
Proof.
  intros re s. unfold replace_fn. apply replace_self_go.
Qed.

Lemma replace_fn_go_ext : forall re f g,
  (forall m, f m = g m) ->
  forall s i skip active,
    replace_fn_go re f i s skip active = replace_fn_go re g i s skip active.
Proof.
  intros re f g Hfg. induction s as [|c s IH]; intros i skip active.
  - destruct skip; cbn [replace_fn_go]; [|reflexivity].
    destruct (if active then match_at re i "" else None); [apply Hfg | reflexivity].
  - destruct skip as [|skip]; cbn [replace_fn_go]; [|apply IH].
    destruct (if active then match_at re i (String c s) else None) as [m|].
    + rewrite Hfg. destruct (String.length (mt_text m) =? 0)%nat; now rewrite IH.
    + now rewrite IH.
Qed.

(** Without a shadow session, whether the table is missing or
    empty, [replaceUsernames] gives the text back, whatever the
    suffix of the nicknames. *)
Theorem replaceUsernames_without_sessions : forall bot text,
  ircClients bot = None \/ ircClients bot = Some [] ->
  replaceUsernames bot text = text.
Proof.
  intros bot text H. unfold replaceUsernames, replace_fn.
  rewrite (replace_fn_go_ext _ _ (fun m => mt_text m)); [apply replace_self_go|].
  intros m. destruct H as [-> | ->]; reflexivity.
Qed.

Lemma replaceUsernames_without_sessions_witness :
  replaceUsernames constructed "hello bob-sl, hi @alice-sl2" = "hello bob-sl, hi @alice-sl2".
Proof.
  apply replaceUsernames_without_sessions. left. reflexivity.
Defined.

(** ** [parseText] on texts without markup *)

Lemma contains_any_append : forall p a b,
  contains_any p (a ++ b) = contains_any p a || contains_any p b.
Proof.
  intros p. induction a as [|x a IH]; intros b; simpl; [reflexivity|].
  now rewrite IH, orb_assoc.
Qed.

Lemma rmatch_requires_in : forall p r,
  requires_in p r = true ->
  forall k s e, rmatch false r k s = Some e ->
  exists s' w, k s' = Some e /\ reach s s' w /\ contains_any p w = true.
Proof.
  intros p. induction r as [|c'| |neg items| | |a IHa b IHb|a IHa b IHb
                           |min max greedy a IHa|i a IHa|neg a IHa];
    intros Hreq k s e H; simpl in Hreq; try discriminate; cbn [rmatch] in H.
  - apply RegexFacts.step_char_inv in H as (x & t & Hr & Hp & Hk).
    exists (MState (S (m_pos s)) t (m_caps s)), (String x "").
    split; [exact Hk|]. split; [split; simpl; [exact Hr | lia]|].
    simpl. unfold char_eq in Hp. apply Ascii.eqb_eq in Hp. subst.
    now rewrite Hreq.
  - destruct (requires_in p a) eqn:Ha.
    + apply (IHa eq_refl) in H as (s1 & w1 & H & R1 & C1).
      apply RegexFacts.rmatch_forward in H as (s2 & w2 & H & R2).
      exists s2, (w1 ++ w2). split; [exact H|].
      split; [now apply RegexFacts.reach_trans with s1|].
      now rewrite contains_any_append, C1.
    + simpl in Hreq.
      apply RegexFacts.rmatch_forward in H as (s1 & w1 & H & R1).
      apply (IHb Hreq) in H as (s2 & w2 & H & R2 & C2).
      exists s2, (w1 ++ w2). split; [exact H|].
      split; [now apply RegexFacts.reach_trans with s1|].
      rewrite contains_any_append, C2. apply orb_true_r.
  - apply andb_true_iff in Hreq as [Ha Hb].
    apply RegexFacts.orelse_Some in H as [H|[_ H]]; [now apply IHa | now apply IHb].
  - apply andb_true_iff in Hreq as [Hmin Ha].
    apply andb_true_iff in Hmin as [Hmin Hmax].
    destruct (min =? 0)%nat eqn:Hz; [discriminate|]. clear Hmin.
    destruct (max_is_zero max) eqn:Hmz; [discriminate|]. clear Hmax.
    rewrite RegexFacts.rep_loop_S, Hz, Hmz in H. cbv zeta in H.
    apply (IHa Ha) in H as (y & w1 & Hd & R1 & C1).
    cbn [andb] in Hd.
    apply (RegexFacts.rep_loop_forward _ _ _ _ (RegexFacts.rmatch_forward false a))
      in Hd as (s' & w2 & Hk & R2).
    exists s', (w1 ++ w2). split; [exact Hk|].
    split; [|now rewrite contains_any_append, C1].
    apply RegexFacts.reach_trans with y; [|exact R2].
    now apply RegexFacts.reach_same with (clear_caps (groups_of a) s).
  - apply (IHa Hreq) in H as (s1 & w1 & H & R1 & C1).
    eexists _, w1. split; [exact H|]. split; [|exact C1].
    destruct R1 as [R P]. split; simpl; assumption.
Qed.

Lemma match_at_requires_in : forall p re i s,
  re_ignoreCase re = false ->
  requires_in p (re_ast re) = true ->
  contains_any p s = false ->
  match_at re i s = None.
Proof.
  intros p re i s Hic Hreq Hc. unfold match_at. rewrite Hic.
  destruct (rmatch false (re_ast re) Some _) as [e|] eqn:H; [|reflexivity].
  apply (rmatch_requires_in p _ Hreq) in H as (s' & w & _ & [R _] & C).
  simpl in R. rewrite R, contains_any_append, C in Hc. discriminate.
Qed.

Lemma active_match_none : forall p re i s (active : bool),
  re_ignoreCase re = false ->
  requires_in p (re_ast re) = true ->
  contains_any p s = false ->
  (if active then match_at re i s else None) = None.
Proof.
  intros p re i s active Hic Hreq Hc. destruct active; [|reflexivity].
  now apply (match_at_requires_in p).
Qed.

Lemma replace_fn_go_requires_in : forall p re f,
  re_ignoreCase re = false ->
  requires_in p (re_ast re) = true ->
  forall s i active,
    contains_any p s = false ->
    replace_fn_go re f i s 0 active = s.
Proof.
  intros p re f Hic Hreq.
  induction s as [|a s IH]; intros i active Hc; cbn [replace_fn_go];
    rewrite (active_match_none p re i _ active Hic Hreq Hc); [reflexivity|].
  simpl in Hc. apply orb_false_iff in Hc as [_ Hc]. now rewrite IH.
Qed.

Lemma replace_fn_requires_in : forall p re f s,
  re_ignoreCase re = false ->
  requires_in p (re_ast re) = true ->
  contains_any p s = false ->
  replace_fn re f s = s.
Proof.
  intros. unfold replace_fn. now apply (replace_fn_go_requires_in p).
Qed.

Lemma replace_go_requires_in : forall p re f,
  re_ignoreCase re = false ->
  requires_in p (re_ast re) = true ->
  forall s i active,
    contains_any p s = false ->
    replace_go re f i s 0 active = Ok s.
Proof.
  intros p re f Hic Hreq.
  induction s as [|a s IH]; intros i active Hc; cbn [replace_go];
    rewrite (active_match_none p re i _ active Hic Hreq Hc); [reflexivity|].
  simpl in Hc. apply orb_false_iff in Hc as [_ Hc]. now rewrite IH.
Qed.

Lemma replaceR_requires_in : forall p re f s,
  re_ignoreCase re = false ->
  requires_in p (re_ast re) = true ->
  contains_any p s = false ->
  replaceR re f s = Ok s.
Proof.
  intros. unfold replaceR. now apply (replace_go_requires_in p).
Qed.

Lemma replace_str_requires_in : forall p re repl s,
  re_ignoreCase re = false ->
  requires_in p (re_ast re) = true ->
  contains_any p s = false ->
  replace_str re repl s = s.
Proof.
  intros. unfold replace_str. now apply (replace_fn_requires_in p).
Qed.

(** A replacement writes only characters of the text and of what the
    callback gives. *)
Lemma replace_fn_go_chars : forall p re f,
  (forall m, contains_any p (f m) = false) ->
  forall s i skip active,
    contains_any p s = false ->
    contains_any p (replace_fn_go re f i s skip active) = false.
Proof.
  intros p re f Hf. induction s as [|c s IH]; intros i skip active Hc.
  - destruct skip; cbn [replace_fn_go]; [|reflexivity].
    destruct (if active then match_at re i "" else None); [apply Hf | reflexivity].
  - simpl in Hc. apply orb_false_iff in Hc as [Hx Hc].
    destruct skip as [|skip]; cbn [replace_fn_go]; [|now apply IH].
    destruct (if active then match_at re i (String c s) else None) as [m|].
    + destruct (String.length (mt_text m) =? 0)%nat;
        rewrite contains_any_append, Hf; cbn [orb contains_any];
        rewrite ?Hx; now apply IH.
    + cbn [contains_any]. rewrite Hx. now apply IH.
Qed.

Section PlainText.

Variable emojis : obj string.

(** On a text with no line break and none of [&], [<], [:] and [@],
    [parseText] gives the text back, whatever the directory, the
    emoji table and the shadow sessions. *)
Theorem parseText_plain : forall bot text,
  contains_any markup_char text = false ->
  parseText emojis bot text = Ok text.
Proof.
  intros bot text H. unfold parseText. cbv zeta.
  rewrite !(replace_str_requires_in markup_char _ _ text) by (reflexivity || exact H).
  rewrite (replaceR_requires_in markup_char _ _ text) by (reflexivity || exact H).
  cbn [rbind].
  rewrite (replaceR_requires_in markup_char _ _ text) by (reflexivity || exact H).
  cbn [rbind].
  rewrite !(replace_fn_requires_in markup_char _ _ text) by (reflexivity || exact H).
  reflexivity.
Qed.

(** On a text with neither [&] nor [<], no reference is looked up:
    [parseText] gives a text whatever the directory holds. *)
Theorem parseText_without_references : forall bot text,
  contains_any reference_char text = false ->
  exists parsed, parseText emojis bot text = Ok parsed.
Proof.
  intros bot text H. unfold parseText. cbv zeta.
  assert (H1 : contains_any reference_char (replace_str re_newline " " text) = false).
  { unfold replace_str, replace_fn. apply replace_fn_go_chars; [reflexivity | exact H]. }
  rewrite !(replace_str_requires_in reference_char _ _ (replace_str re_newline " " text))
    by (reflexivity || exact H1).
  rewrite (replaceR_requires_in reference_char _ _ (replace_str re_newline " " text))
    by (reflexivity || exact H1).
  cbn [rbind].
  rewrite (replaceR_requires_in reference_char _ _ (replace_str re_newline " " text))
    by (reflexivity || exact H1).
  cbn [rbind]. now eexists.
Qed.

End PlainText.

Lemma parseText_plain_witness :
  parseText Example.emoji_table Example.bot "see you at 5pm, ok?" = Ok "see you at 5pm, ok?".
Proof.
  apply parseText_plain. reflexivity.
Defined.

Lemma parseText_without_references_witness :
  exists parsed,
    parseText Example.emoji_table constructed ("@bob :smile:" ++ nl ++ "bye") = Ok parsed.
Proof.
  apply parseText_without_references. reflexivity.
Defined.

(** ** What highlighting does to the tokens *)

Lemma Forall2_map_same : forall (R : string -> string -> Prop) (f : string -> string) l,
  (forall x, R x (f x)) -> Forall2 R l (map f l).
Proof.
  intros R f l HR. induction l as [|x l IH]; simpl; constructor; auto.
Qed.

(** Whatever the name, when [highlightUsername] gives a text, the
    text has the tokens of the input in the same order, each one as
    it was or with one [@] in front: no token is removed, merged,
    split or otherwise rewritten. *)
Theorem highlightUsername_only_prefixes : forall user text highlighted,
  highlightUsername user text = Ok highlighted ->
  Forall2 prefixed_or_same (Js.split " " text) (Js.split " " highlighted).
Proof.
  intros user text highlighted H. unfold highlightUsername in H.
  destruct (RegExp_new _ _) as [re|]; [|discriminate]. cbn [rbind] in H.
  injection H as <-.
  rewrite tokens_highlighted.
  - apply Forall2_map_same. intros w. unfold prefixed_or_same. cbv beta.
    destruct (Js.indexOf w _ =? 0)%Z; [now left|].
    destruct (test re w); [now right | now left].
  - intros w Hw. cbv beta. destruct (Js.indexOf w _ =? 0)%Z; [exact Hw|].
    destruct (test re w); [|exact Hw]. unfold sep_free in *. simpl. exact Hw.
Qed.

Lemma highlightUsername_only_prefixes_witness :
  Forall2 prefixed_or_same (Js.split " " "ask j.doe, jxdoe or @j.doe")
                           (Js.split " " "ask @j.doe, @jxdoe or @j.doe").
Proof.
  apply (highlightUsername_only_prefixes "j.doe"). reflexivity.
Defined.

Lemma guard_never_met : forall u c t,
  is_punct c = false -> tail_ok t = true ->
  String.prefix (String c u) (u ++ t) = false.
Proof.
  induction u as [|d u IH]; intros c t Hc Ht.
  - cbn [append]. destruct t as [|p [|q t]]; cbn [tail_ok] in Ht; try discriminate.
    + reflexivity.
    + rewrite prefix_String. destruct (Ascii.eqb_spec c p) as [->|]; [congruence | reflexivity].
  - cbn [append]. rewrite prefix_String.
    destruct (Ascii.eqb_spec c d) as [->|]; [|reflexivity].
    cbn [andb]. now apply IH.
Qed.

Lemma names_user_unguarded : forall u w,
  names_user u w = true -> String.prefix ("@" ++ u) w = false.
Proof.
  intros u w H. pose proof (MatchFacts.names_user_prefix u w H) as Hp.
  apply MatchFacts.prefix_split in Hp as [t ->].
  rewrite MatchFacts.names_user_append in H. now apply guard_never_met.
Qed.

(** A token that starts with [@] names no user whose name does not
    start with [@]. *)
Lemma names_user_at : forall u w,
  String.prefix "@" u = false -> String.prefix "@" w = true -> names_user u w = false.
Proof.
  intros u w Hu Hw. destruct (names_user u w) eqn:Hn; [|reflexivity].
  pose proof (MatchFacts.names_user_prefix u w Hn) as Hp.
  apply MatchFacts.prefix_split in Hp as [t ->].
  rewrite MatchFacts.names_user_append in Hn.
  destruct u as [|c u].
  - cbn [append] in Hw. destruct t as [|p [|q t]]; cbn [tail_ok] in Hn; try discriminate.
    rewrite prefix_String in Hw. apply andb_true_iff in Hw as [Hw _].
    apply Ascii.eqb_eq in Hw. subst p. discriminate.
  - cbn [append] in Hw. rewrite prefix_String in Hu, Hw. rewrite prefix_nil in Hu, Hw.
    congruence.
Qed.

(** For a name without pattern characters, the tokens that get the
    [@] are exactly the tokens that are the name, or the name followed
    by one of [,.:!?]; the comparison is case-sensitive.  When the
    name does not itself start with [@], no token that starts with
    [@] is one of them. *)
Theorem highlightUsername_exact_for_plain_names : forall user text,
  plain user = true ->
  highlightUsername user text
  = Ok (Js.join " " (map (fun w => if names_user user w then "@" ++ w else w)
                         (Js.split " " text))) /\
  (String.prefix "@" user = false ->
   forall w, String.prefix "@" w = true -> names_user user w = false).
Proof.
  intros user text Hu. split.
  - rewrite (highlightUsername_plain user text Hu).
    f_equal. f_equal. apply map_ext. intros w. unfold highlight_word.
    destruct (names_user user w) eqn:Hn; [|now rewrite andb_false_r].
    now rewrite (names_user_unguarded user w Hn).
  - intros Hat w Hw. now apply names_user_at.
Qed.

Lemma highlightUsername_exact_for_plain_names_witness :
  highlightUsername "bob" "bob Bob bob: bobby @bob bob?! bob,"
  = Ok "@bob Bob @bob: bobby @bob bob?! @bob,".
Proof.
  apply (proj1 (highlightUsername_exact_for_plain_names
                  "bob" "bob Bob bob: bobby @bob bob?! bob," eq_refl)).
Defined.

(** A name that starts with [@] is different: the guard looks for
    [@] followed by the whole name, so the token that is the name is
    prefixed once more. *)
Example highlightUsername_name_with_at :
  plain "@bob" = true /\ highlightUsername "@bob" "@bob hi" = Ok "@@bob hi".
Proof. split; reflexivity. Qed.

Lemma highlightUsername_idempotent_witness :
  highlightUsername "bob" "@bob: hi @bob" = Ok "@bob: hi @bob".
Proof.
  apply (highlightUsername_idempotent "bob" "bob: hi @bob" "@bob: hi @bob");
    reflexivity.
Defined.

Lemma mapSlackUsers_idempotent_witness :
  mapSlackUsers Example.bot Example.general "@alice: ask @bob" = Ok "@alice: ask @bob".
Proof.
  apply (mapSlackUsers_idempotent Example.bot Example.general ["alice"; "bob"]
           "alice: ask bob" "@alice: ask @bob").
  - reflexivity.
  - repeat constructor.
  - reflexivity.
Defined.

(** With a member whose name starts with [@] a second pass can
    change the text: for the members [@a] and [a], the text [a]
    becomes [@a], and [@a] becomes [@@a]. *)
Example mapSlackUsers_name_with_at :
  let store := MkDataStore (Example.by_id [("U1", MkUser "U1" "@a"); ("U2", MkUser "U2" "a")])
                           (fun _ => None) (fun _ => None) (fun _ => None) in
  let bot := MkBot store "" "" [] [] [] false "-sl" re_dot (MkMuteUsers [] []) None ""
                   [] [] None None in
  mapSlackUsers bot Example.general "a" = Ok "@a" /\
  mapSlackUsers bot Example.general "@a" = Ok "@@a".
Proof. split; reflexivity. Qed.

(** ** What the dispatch of a command may do *)

Lemma in_trace_bind : forall A B (m : M A) (f : A -> M B) a,
  In a (trace (bind m f)) ->
  In a (trace m) \/ exists x, outcome m = Ok x /\ In a (trace (f x)).
Proof.
  intros A B [t [x|e]] f a H; unfold bind, trace, outcome in *; cbn [fst snd] in *.
  - destruct (f x) as [t' r] eqn:Hf. cbn [fst] in H. apply in_app_or in H as [H|H].
    + now left.
    + right. exists x. rewrite Hf. now split.
  - now left.
Qed.

Lemma channel_request_actions : forall bot message event l args a,
  (forall ircChannel,
      args ircChannel = [Str "NAMES"; ircChannel] \/ args ircChannel = [Str "TOPIC"; ircChannel]
      \/ exists topic : string, args ircChannel = [Str "TOPIC"; ircChannel; Str topic]) ->
  event = "names" \/ event = "topic" ->
  In a (trace (bind (lift (getIRCChannel bot (msg_channel message)))
                 (fun ircChannel : option value =>
                    match ircChannel with
                    | None => ret tt
                    | Some ircChannel =>
                        bind (emit (IrcOnce event (l ircChannel)))
                             (fun _ => emit (IrcSend (args ircChannel)))
                    end))) ->
  command_action bot message a.
Proof.
  intros bot message event l args a Hargs Hevent H.
  destruct (getIRCChannel bot (msg_channel message)) as [[c|]|e] eqn:Hc;
    unfold bind, lift, emit, ret, trace in H; cbn in H; try contradiction.
  destruct H as [<-|[<-|[]]]; cbn [command_action].
  - exact Hevent.
  - exists c. split; [exact Hc | apply Hargs].
Qed.

Lemma onlineIRCUsers_actions : forall bot message query a,
  In a (trace (onlineIRCUsers bot message query)) -> command_action bot message a.
Proof.
  intros bot message query a H. unfold onlineIRCUsers in H.
  apply (channel_request_actions bot message "names"
           (fun c => OnlineNames message query c) (fun c => [Str "NAMES"; c]));
    [intros c; now left | now left | exact H].
Qed.

Lemma ircTopic_actions : forall bot message a,
  In a (trace (ircTopic bot message)) -> command_action bot message a.
Proof.
  intros bot message a H. unfold ircTopic in H.
  apply (channel_request_actions bot message "topic"
           (fun _ => TopicReply message) (fun c => [Str "TOPIC"; c]));
    [intros c; right; now left | now right | exact H].
Qed.

Lemma setNewTopic_actions : forall bot message argument data a,
  In a (trace (setNewTopic bot message argument data)) -> command_action bot message a.
Proof.
  intros bot message argument data a H. unfold setNewTopic in H.
  destruct argument as [argument|].
  - apply (channel_request_actions bot message "topic"
             (fun _ => TopicSet message)
             (fun c => [Str "TOPIC"; c; Str (argument ++ " " ++ data)]));
      [intros c; right; right; now eexists | now right | exact H].
  - destruct (getIRCChannel bot (msg_channel message)) as [[c|]|e];
      unfold bind, lift, raise, ret, trace in H; cbn in H; contradiction.
Qed.

Lemma processCommandMessage_actions : forall bot message a,
  In a (trace (processCommandMessage bot message)) -> command_action bot message a.
Proof.
  intros bot message a H. unfold processCommandMessage in H.
  destruct (exec re_command _) as [m|]; [|contradiction].
  destruct (1 <? S (List.length (mt_groups m)))%nat; [|contradiction].
  destruct (String.eqb (cap_text m 1) "online"); [now apply onlineIRCUsers_actions in H|].
  destruct (String.eqb (cap_text m 1) "irctopic"); [now apply ircTopic_actions in H|].
  destruct (String.eqb (cap_text m 1) "help").
  { destruct H as [<-|[]]. reflexivity. }
  destruct (String.eqb (cap_text m 1) "topic"); [now apply setNewTopic_actions in H|].
  destruct (String.eqb (cap_text m 1) "msg"); [|contradiction].
  destruct (Js.truthy (cap_text m 3)); [contradiction|].
  destruct H as [<-|[]]. reflexivity.
Qed.

(** Whatever the message, the call of [processCommandMessage]
    itself, before any listener that it registers is run, says
    nothing on a legacy channel, asks for no [whois], posts nothing
    and opens no conversation: it only registers a listener for
    names or topic, sends a [NAMES] or [TOPIC] request for what
    [getIRCChannel] reads for the channel of the message (the legacy
    channel stored for its name, or the inherited member of that
    name), or sends a workspace message to that channel.  What the
    listeners do when they are run is not part of the statement. *)
Theorem dispatch_actions : forall bot message a,
  In a (trace (processCommandMessage bot message)) -> command_action bot message a.
Proof.
  exact processCommandMessage_actions.
Qed.



(** The reply to [.online] without a query, from the listener to the
    conversation: for a private group called [constructor] that is
    not mapped, the channel in the answer is the inherited member as
    the template prints it. *)
Example online_without_query :
  onlineIRCUsers_listener (Example.say ".online") None (Str "#general-irc") ["bob"; "alice"]
  = ([WebImOpen "U1" (OnlineOpened (Str "#general-irc") ["bob"; "alice"])], Ok tt) /\
  onlineIRCUsers_opened (to_string (Str "#general-irc")) ["bob"; "alice"] "D1"
  = ([RtmSendMessage "The following users are in #general-irc: alice, bob" "D1"], Ok tt) /\
  onlineIRCUsers_opened (to_string (Builtin "constructor")) ["bob"] "D1"
  = ([RtmSendMessage
        "The following users are in function Object() { [native code] }: bob" "D1"], Ok tt).
Proof. repeat split. Qed.

(** ** Where [sendToIRC] speaks *)

Section Says.

Variable emojis : obj string.

(** Every message that [sendToIRC] says on the legacy network goes
    to what the read [channelMapping[channelName]] gives for the
    channel of the workspace message, commands included: the legacy
    channel stored under the name of the channel or, when nothing is
    stored under it and the name is that of an inherited member (a
    private group called [constructor]), that member. *)
Theorem sendToIRC_says_to_mapped_channel : forall bot message channel target text,
  getChannelGroupOrDMById (dataStore bot) (msg_channel message) = Some channel ->
  In (IrcSay target text) (trace (sendToIRC emojis bot message)) ->
  obj_read (channelMapping bot) (channelName channel) = Some target /\
  match target with
  | Str ircChannel => obj_get (channelMapping bot) (channelName channel) = Some ircChannel
  | Builtin name =>
      name = channelName channel /\ inherited name = true /\
      obj_get (channelMapping bot) name = None
  end.
Proof.
  intros bot message channel target text Hchan H.
  assert (Hread : obj_read (channelMapping bot) (channelName channel) = Some target).
  { unfold sendToIRC in H. rewrite Hchan in H. fold (channelName channel) in H.
    destruct (muteSlackbot bot && _); [contradiction|].
    destruct (getUserById _ _) as [user|]; [|contradiction].
    destruct (negb _); [contradiction|].
    destruct (obj_read (channelMapping bot) (channelName channel)) as [ircChannel|];
      [|contradiction].
    destruct (truthy_value ircChannel); [|contradiction].
    apply in_trace_bind in H as [H|(parsed & _ & H)].
    { destruct (parseText emojis bot (msg_text message)); contradiction. }
    apply in_trace_bind in H as [H|(said & _ & H)].
    - destruct (isCommandMessage bot parsed).
      + apply in_trace_bind in H as [H|(_ & _ & H)].
        * apply processCommandMessage_actions in H. contradiction.
        * apply in_trace_bind in H as [H|(_ & _ & H)]; [|contradiction].
          destruct H as [[= <- _]|[]]. reflexivity.
      + destruct (falsy_opt (msg_subtype message)); [contradiction|].
        destruct (option_eqb (msg_subtype message) "file_share").
        * destruct (msg_file message) as [file|]; [|contradiction].
          destruct (initial_comment file); contradiction.
        * destruct (option_eqb (msg_subtype message) "me_message"); contradiction.
    - destruct H as [[= <- _]|[]]. reflexivity. }
  split; [exact Hread|]. now apply obj_read_cases.
Qed.

(** The text that is said for a message that is no command: with the
    name of the sender in brackets for an ordinary message, as an
    action for [me_message], and bare for any other subtype but
    [file_share]. *)
Theorem sendToIRC_formats : forall bot message channel user ircChannel text,
  relayable bot message channel user ircChannel ->
  parseText emojis bot (msg_text message) = Ok text ->
  isCommandMessage bot text = false ->
  (falsy_opt (msg_subtype message) = true ->
   sendToIRC emojis bot message
   = ([IrcSay ircChannel ("<" ++ user_name user ++ "> " ++ text)], Ok tt)) /\
  (msg_subtype message = Some "me_message" ->
   sendToIRC emojis bot message
   = ([IrcSay ircChannel ("Action: " ++ user_name user ++ " " ++ text)], Ok tt)) /\
  (forall subtype,
     msg_subtype message = Some subtype ->
     Js.truthy subtype = true ->
     subtype <> "file_share" -> subtype <> "me_message" ->
     sendToIRC emojis bot message = ([IrcSay ircChannel text], Ok tt)).
Proof.
  intros bot message channel user ircChannel text
         (Hchan & Hbot & Huser & Hmute & Hmap & Htruthy) Hparse Hcmd.
  unfold sendToIRC. rewrite Hchan, Hbot, Huser.
  rewrite (arr_indexOf_not_In _ _ Hmute). cbn [negb].
  rewrite (obj_read_own _ _ _ Hmap). cbn [truthy_value]. rewrite Htruthy, Hparse.
  unfold lift. cbn [bind]. rewrite Hcmd.
  split; [|split].
  - intros ->. reflexivity.
  - intros ->. reflexivity.
  - intros subtype -> Ht Hf Hm. unfold falsy_opt, option_eqb. rewrite Ht. cbn [negb].
    apply String.eqb_neq in Hf, Hm. rewrite Hf, Hm. reflexivity.
Qed.

End Says.

Lemma sendToIRC_says_to_mapped_channel_witness :
  obj_read (channelMapping Example.bot) (channelName Example.general)
  = Some (Str "#general-irc") /\
  obj_get (channelMapping Example.bot) (channelName Example.general) = Some "#general-irc".
Proof.
  apply (sendToIRC_says_to_mapped_channel Example.emoji_table Example.bot
           (Example.say ".online bo") Example.general "#general-irc" ".online bo").
  - reflexivity.
  - vm_compute. right. right. right. left. reflexivity.
Defined.

(** The same for a private group called [constructor] that the
    configuration does not map: the message is said, to the inherited
    member, and so is a command, after the listener and the request
    for the names. *)
Example relay_from_group_named_constructor :
  sendToIRC Example.emoji_table with_group (MkMessage "G1" "U1" "hello" None None)
  = ([IrcSay (Builtin "constructor") "<alice> hello"], Ok tt) /\
  sendToIRC Example.emoji_table with_group (MkMessage "G1" "U1" ".online" None None)
  = ([IrcOnce "names"
        (OnlineNames (MkMessage "G1" "U1" ".online" None None) None (Builtin "constructor"));
      IrcSend [Str "NAMES"; Builtin "constructor"];
      IrcSay (Builtin "constructor") "Command sent from Slack by alice:";
      IrcSay (Builtin "constructor") ".online"], Ok tt).
Proof. split; reflexivity. Qed.

Lemma sendToIRC_formats_witness :
  sendToIRC Example.emoji_table Example.bot (Example.say "hello &amp; welcome")
  = ([IrcSay "#general-irc" "<alice> hello & welcome"], Ok tt).
Proof.
  apply (proj1 (sendToIRC_formats Example.emoji_table Example.bot
                  (Example.say "hello &amp; welcome") Example.general Example.alice
                  "#general-irc" "hello & welcome"
                  (example_relayable "hello &amp; welcome") eq_refl eq_refl)).
  reflexivity.
Defined.

Lemma dispatch_actions_witness :
  command_action Example.bot (Example.say ".topic new topic")
                 (IrcSend [Str "TOPIC"; Str "#general-irc"; Str "new topic"]).
Proof.
  apply dispatch_actions. vm_compute. right. left. reflexivity.
Defined.

(** ** Command characters *)

Lemma arr_indexOf_found : forall l x,
  (Js.arr_indexOf l x =? -1)%Z = false <-> In x l.
Proof.
  intros l x. split.
  - intros H. destruct (in_dec string_dec x l) as [Hin|Hn]; [exact Hin|].
    rewrite (arr_indexOf_not_In l x Hn) in H. discriminate.
  - apply arr_indexOf_In.
Qed.

(** A text is a command exactly when its first character, taken as a
    string, is one of the configured command characters: the empty
    text is no command, and a configured entry of more than one
    character never makes one. *)
Theorem isCommandMessage_first_character : forall bot text,
  isCommandMessage bot text = true <->
  exists c rest, text = String c rest /\ In (String c "") (commandCharacters bot).
Proof.
  intros bot text. unfold isCommandMessage. destruct text as [|c rest]; cbn [Js.char0].
  - split; [discriminate | intros (c & rest & H & _); discriminate].
  - rewrite negb_true_iff, arr_indexOf_found. split.
    + intros H. now exists c, rest.
    + intros (c' & rest' & [= -> ->] & H). exact H.
Qed.

Lemma isCommandMessage_first_character_witness :
  isCommandMessage Example.bot ".help" = true.
Proof.
  apply (proj2 (isCommandMessage_first_character Example.bot ".help")).
  exists "."%char, "help". split; [reflexivity | simpl; now left].
Defined.

(** ** Where [sendToSlack] posts *)

Lemma arr_indexOf_absent : forall l x,
  (Js.arr_indexOf l x =? -1)%Z = true -> ~ In x l.
Proof.
  intros l x H Hin. rewrite (arr_indexOf_In l x Hin) in H. discriminate.
Qed.

Lemma arr_indexOf_not_gt : forall l x,
  (Js.arr_indexOf l x >? -1)%Z = false -> ~ In x l.
Proof.
  intros l x H Hin. rewrite (arr_indexOf_In_gt l x Hin) in H. discriminate.
Qed.

(** Whatever [sendToSlack] does is one post: to the workspace channel
    that the legacy channel is routed to, under the configured name
    format, for an author that is neither muted nor a shadow
    session.  It never acts on the legacy network. *)
Theorem sendToSlack_posts_once : forall bot author channel text a,
  In a (trace (sendToSlack bot author channel text)) ->
  exists slackChannel posted icon,
    a = WebPostMessage (chan_id slackChannel) posted
          (replace_str re_username author (slackUsernameFormat bot)) icon /\
    trace (sendToSlack bot author channel text) = [a] /\
    routed bot channel slackChannel /\
    ~ In author (mute_irc (muteUsers bot)) /\
    ~ In author (currentShadowNicks bot).
Proof.
  intros bot author channel text a H. unfold sendToSlack in *.
  destruct (obj_read _ _) as [[slackChannelName|builtin]|] eqn:Hinv;
    [|contradiction|contradiction].
  apply obj_read_cases in Hinv.
  destruct (Js.truthy slackChannelName) eqn:Htruthy; [|contradiction].
  destruct (getChannelOrGroupByName _ _) as [slackChannel|] eqn:Hname; [|contradiction].
  destruct (negb (is_member slackChannel) && negb (is_group slackChannel)) eqn:Hmember;
    [contradiction|].
  destruct (negb (Js.arr_indexOf (mute_irc (muteUsers bot)) author =? -1)%Z) eqn:Hmute;
    [contradiction|].
  destruct (currentChannelUsernames bot slackChannel) as [names|e]; [|contradiction].
  unfold lift in *. cbn [bind] in *.
  destruct (Js.arr_indexOf (currentShadowNicks bot) author >? -1)%Z eqn:Hshadow;
    [contradiction|].
  destruct (mapSlackUsers bot slackChannel _) as [mapped|e]; [|contradiction].
  cbn in H. destruct H as [<-|[]]. eexists slackChannel, mapped, _.
  split; [reflexivity|]. split; [reflexivity|]. split; [|split].
  - exists slackChannelName. repeat split; try assumption.
    apply andb_false_iff in Hmember as [Hm|Hm]; apply negb_false_iff in Hm; auto.
  - apply arr_indexOf_absent. now apply negb_false_iff in Hmute.
  - now apply arr_indexOf_not_gt.
Qed.

Lemma sendToSlack_posts_once_witness :
  exists slackChannel posted icon,
    WebPostMessage "C1" "hello" "carol (IRC)"
                   (Some "http://api.adorable.io/avatars/48/carol.png")
    = WebPostMessage (chan_id slackChannel) posted
        (replace_str re_username "carol" (slackUsernameFormat Example.bot)) icon /\
    trace (sendToSlack Example.bot "carol" "#general-irc" "hello")
    = [WebPostMessage "C1" "hello" "carol (IRC)"
         (Some "http://api.adorable.io/avatars/48/carol.png")] /\
    routed Example.bot "#general-irc" slackChannel /\
    ~ In "carol" (mute_irc (muteUsers Example.bot)) /\
    ~ In "carol" (currentShadowNicks Example.bot).
Proof.
  apply sendToSlack_posts_once. vm_compute. left. reflexivity.
Defined.

Lemma currentChannelUsernames_unknown : forall bot slackChannel member,
  In member (members slackChannel) ->
  getUserById (dataStore bot) member = None ->
  currentChannelUsernames bot slackChannel = Throw TypeError.
Proof.
  intros bot slackChannel member Hin Hnone. unfold currentChannelUsernames.
  induction (members slackChannel) as [|x l IH]; [contradiction|].
  cbn [mapR]. destruct Hin as [->|Hin].
  - now rewrite Hnone.
  - destruct (getUserById (dataStore bot) x); [|reflexivity].
    cbn [rbind]. now rewrite (IH Hin).
Qed.

(** When the directory does not know one member of the workspace
    channel, a legacy message for that channel is not relayed:
    [sendToSlack] raises [TypeError] before it posts. *)
Theorem sendToSlack_unknown_member : forall bot author channel text slackChannel member,
  routed bot channel slackChannel ->
  ~ In author (mute_irc (muteUsers bot)) ->
  In member (members slackChannel) ->
  getUserById (dataStore bot) member = None ->
  sendToSlack bot author channel text = ([], Throw TypeError).
Proof.
  intros bot author channel text slackChannel member
         (name & Hinv & Htruthy & Hname & Hmember) Hmute Hin Hnone.
  unfold sendToSlack. rewrite (obj_read_own _ _ _ Hinv), Htruthy, Hname.
  assert (Hm : negb (is_member slackChannel) && negb (is_group slackChannel) = false).
  { destruct Hmember as [-> | ->]; [reflexivity | apply andb_false_r]. }
  rewrite Hm, (arr_indexOf_not_In _ _ Hmute). cbn [negb].
  now rewrite (currentChannelUsernames_unknown bot slackChannel member Hin Hnone).
Qed.

Lemma sendToSlack_unknown_member_witness :
  sendToSlack stale "carol" "#general-irc" "hello" = ([], Throw TypeError).
Proof.
  apply (sendToSlack_unknown_member stale "carol" "#general-irc" "hello"
           Example.general "U2").
  - exists "#general". repeat split. now left.
  - simpl. intros [H|[]]. discriminate.
  - simpl. right. now left.
  - reflexivity.
Defined.

Lemma sendToSlack_no_avatar : forall bot author channel text a,
  avatarUrl bot = None \/ author = nickname bot ->
  In a (trace (sendToSlack bot author channel text)) ->
  no_avatar a.
Proof.
  intros bot author channel text a Hcase H. unfold sendToSlack in H.
  destruct (obj_read _ _) as [[slackChannelName|builtin]|]; [|contradiction|contradiction].
  destruct (Js.truthy slackChannelName); [|contradiction].
  destruct (getChannelOrGroupByName _ _) as [slackChannel|]; [|contradiction].
  destruct (negb (is_member slackChannel) && negb (is_group slackChannel));
    [contradiction|].
  destruct (negb _); [contradiction|].
  destruct (currentChannelUsernames bot slackChannel) as [names|e]; [|contradiction].
  unfold lift in H. cbn [bind] in H.
  destruct (Js.arr_indexOf (currentShadowNicks bot) author >? -1)%Z; [contradiction|].
  destruct (mapSlackUsers bot slackChannel _) as [mapped|e]; [|contradiction].
  cbn in H. destruct H as [<-|[]]. cbn [no_avatar].
  destruct Hcase as [-> | ->]; [reflexivity|].
  destruct (avatarUrl bot); [|reflexivity]. now rewrite String.eqb_refl.
Qed.

(** A post carries no avatar when avatars are disabled, and when the
    author is the bridge's own nickname. *)
Theorem posts_without_avatar : forall bot author channel text a,
  avatarUrl bot = None \/ author = nickname bot ->
  In a (trace (sendToSlack bot author channel text)) ->
  no_avatar a.
Proof.
  intros bot author channel text a Hcase H.
  exact (sendToSlack_no_avatar bot author channel text a Hcase H).
Qed.

Lemma posts_without_avatar_of_bridge : forall bot channel text a,
  In a (trace (sendToSlack bot (nickname bot) channel text)) -> no_avatar a.
Proof.
  intros bot channel text a H.
  apply (sendToSlack_no_avatar bot (nickname bot) channel text a); [now right | exact H].
Qed.

Lemma posts_without_avatar_witness :
  no_avatar (WebPostMessage "C1" "*dave* has left the IRC channel" "bridge (IRC)" None).
Proof.
  apply (posts_without_avatar Example.bot "bridge" "#general-irc"
           "*dave* has left the IRC channel").
  - right. reflexivity.
  - vm_compute. left. reflexivity.
Defined.

Lemma lower_char_idempotent : forall c, Js.lower_char (Js.lower_char c) = Js.lower_char c.
Proof.
  intros [[] [] [] [] [] [] [] []]; reflexivity.
Qed.

Lemma toLowerCase_idempotent : forall s, Js.toLowerCase (Js.toLowerCase s) = Js.toLowerCase s.
Proof.
  unfold Js.toLowerCase. induction s as [|c s IH]; [reflexivity|].
  cbn [Js.map_chars]. now rewrite lower_char_idempotent, IH.
Qed.

(** The legacy channel of a message is looked up without regard to
    the case of its letters. *)
Theorem sendToSlack_ignores_case : forall bot author channel text,
  sendToSlack bot author channel text
  = sendToSlack bot author (Js.toLowerCase channel) text.
Proof.
  intros bot author channel text. unfold sendToSlack.
  now rewrite toLowerCase_idempotent.
Qed.

(** ** Status notices *)

Lemma in_trace_forEachM : forall A (f : A -> M unit) l a,
  In a (trace (forEachM f l)) -> exists x, In x l /\ In a (trace (f x)).
Proof.
  intros A f. induction l as [|x l IH]; intros a H; [contradiction|].
  cbn [forEachM] in H. apply in_trace_bind in H as [H|(_ & _ & H)].
  - exists x. split; [now left | exact H].
  - apply IH in H as (y & Hy & H). exists y. split; [now right | exact H].
Qed.

(** The notices of joins, parts and quits are posted without avatar,
    and the bridge's own join is not announced. *)
Theorem status_notices_without_avatar :
  (forall bot channel nick channels a,
     In a (trace (on_join bot channel nick)) \/
     In a (trace (on_part bot channel nick)) \/
     In a (trace (on_quit bot nick channels)) ->
     no_avatar a) /\
  (forall bot channel, on_join bot channel (nickname bot) = ([], Ok tt)).
Proof.
  split.
  - intros bot channel nick channels a [H|[H|H]].
    + unfold on_join in H. destruct (negb _); [|contradiction].
      apply (posts_without_avatar_of_bridge bot channel _ a H).
    + apply (posts_without_avatar_of_bridge bot channel _ a H).
    + unfold on_quit in H. apply in_trace_forEachM in H as (c & _ & H).
      apply (posts_without_avatar_of_bridge bot c _ a H).
  - intros bot channel. unfold on_join. now rewrite String.eqb_refl.
Qed.

Lemma status_notices_without_avatar_witness :
  no_avatar (WebPostMessage "C1" "*dave* has quit the IRC channel" "bridge (IRC)" None).
Proof.
  apply (proj1 status_notices_without_avatar Example.bot "#general-irc" "dave"
           ["#other"; "#general-irc"]).
  right. right. vm_compute. left. reflexivity.
Defined.

(** ** The tables that the constructor builds *)

Lemma obj_get_set : forall V (o : obj V) k v k',
  obj_get (obj_set o k v) k' = if String.eqb k k' then Some v else obj_get o k'.
Proof.
  induction o as [|[k0 v0] o IH]; intros k v k'; cbn [obj_set obj_get].
  - reflexivity.
  - destruct (String.eqb_spec k0 k) as [->|Hne]; cbn [obj_get].
    + destruct (String.eqb k k'); reflexivity.
    + rewrite IH. destruct (String.eqb_spec k0 k') as [->|Hne'].
      * apply String.eqb_neq in Hne. rewrite String.eqb_sym in Hne. now rewrite Hne.
      * reflexivity.
Qed.

(** An entry of a table after an assignment is the one assigned or
    an entry of the table before. *)
Lemma obj_get_assign : forall o k v k' v',
  obj_get (obj_assign o k v) k' = Some v' ->
  (k = k' /\ v = v') \/ obj_get o k' = Some v'.
Proof.
  intros o k v k' v' H. unfold obj_assign in H.
  assert (Hset : obj_get (obj_set o k v) k' = Some v' ->
                 (k = k' /\ v = v') \/ obj_get o k' = Some v').
  { intros H'. rewrite obj_get_set in H'.
    destruct (String.eqb_spec k k') as [<-|]; [left | now right].
    injection H' as <-. now split. }
  destruct (obj_get o k); [now apply Hset|].
  destruct (String.eqb k "__proto__"); [now right | now apply Hset].
Qed.

(** What holds of every entry written by a loop of assignments holds
    of every entry of the table it leaves. *)
Lemma fold_set_entries : forall (P : string -> string -> Prop)
    (g h : string * string -> string) l acc,
  (forall k v, obj_get acc k = Some v -> P k v) ->
  (forall kv, In kv l -> P (g kv) (h kv)) ->
  forall k v,
    obj_get (fold_left (fun a kv => obj_assign a (g kv) (h kv)) l acc) k = Some v -> P k v.
Proof.
  intros P g h. induction l as [|kv l IH]; intros acc Hacc Hl k v H; cbn [fold_left] in H.
  - now apply Hacc.
  - apply (IH (obj_assign acc (g kv) (h kv))); [| |exact H].
    + intros k' v' H'. apply obj_get_assign in H' as [[<- <-]|H'].
      * apply Hl. now left.
      * now apply Hacc.
    + intros kv' Hin. apply Hl. now right.
Qed.

Lemma obj_set_keys : forall V (o : obj V) k v,
  NoDup (obj_keys o) -> NoDup (obj_keys (obj_set o k v)).
Proof.
  intros V o k v Hnd. destruct (in_dec string_dec k (obj_keys o)) as [Hin|Hn].
  - assert (Hk : obj_keys (obj_set o k v) = obj_keys o).
    { clear Hnd. induction o as [|[k0 v0] o IH]; [contradiction|].
      cbn [obj_set]. destruct (String.eqb_spec k0 k) as [->|Hne]; [reflexivity|].
      cbn [obj_keys map fst]. f_equal. apply IH.
      destruct Hin as [Hin|Hin]; [simpl in Hin; congruence | exact Hin]. }
    now rewrite Hk.
  - rewrite (obj_set_fresh _ o k v Hn). unfold obj_keys. rewrite map_app.
    cbn [map fst]. apply NoDup_app_remove_l with (l := []).
    cbn [app]. apply Permutation_NoDup with (l := k :: map fst o).
    + apply Permutation_cons_append.
    + now constructor.
Qed.

Lemma obj_assign_keys : forall o k v,
  NoDup (obj_keys o) -> NoDup (obj_keys (obj_assign o k v)).
Proof.
  intros o k v Hnd. unfold obj_assign.
  destruct (obj_get o k); [now apply obj_set_keys|].
  destruct (String.eqb k "__proto__"); [exact Hnd | now apply obj_set_keys].
Qed.

Lemma fold_set_keys : forall (g h : string * string -> string) l acc,
  NoDup (obj_keys acc) ->
  NoDup (obj_keys (fold_left (fun a kv => obj_assign a (g kv) (h kv)) l acc)).
Proof.
  intros g h. induction l as [|kv l IH]; intros acc Hnd; cbn [fold_left]; [exact Hnd|].
  apply IH. now apply obj_assign_keys.
Qed.

Lemma lower_char_space : forall c, Ascii.eqb (Js.lower_char c) " " = Ascii.eqb c " ".
Proof.
  intros [[] [] [] [] [] [] [] []]; reflexivity.
Qed.

Lemma contains_space_lower : forall s,
  contains " " (Js.toLowerCase s) = contains " " s.
Proof.
  unfold Js.toLowerCase. induction s as [|c s IH]; [reflexivity|].
  cbn [Js.map_chars contains]. now rewrite lower_char_space, IH.
Qed.

Lemma normalize_clean : forall ircChan,
  contains " " (normalize ircChan) = false /\
  Js.toLowerCase (normalize ircChan) = normalize ircChan.
Proof.
  intros ircChan. unfold normalize. split; [|apply toLowerCase_idempotent].
  rewrite contains_space_lower.
  pose proof (SplitFacts.split_free " " ircChan) as Hall.
  destruct (Js.split " " ircChan) as [|w ws]; [reflexivity|].
  now inversion Hall.
Qed.

Section Tables.

Variable validateChannelMapping : obj string -> result unit.

Lemma Bot_new_tables : forall options bot,
  Bot_new validateChannelMapping options = Ok bot ->
  exists mapping,
    opt_channelMapping options = Some mapping /\
    channelMapping bot = build_channelMapping mapping /\
    invertedMapping bot = invert (build_channelMapping mapping).
Proof.
  intros options bot Hnew. destruct (opt_channelMapping options) as [mapping|] eqn:Hm.
  - exists mapping. split; [reflexivity|].
    now apply (Bot_new_mappings validateChannelMapping options bot mapping).
  - unfold Bot_new in Hnew. rewrite Hm in Hnew.
    destruct (required (opt_server options)); cbn [rbind] in Hnew; [|discriminate].
    destruct (required (opt_nickname options)); cbn [rbind] in Hnew; discriminate.
Qed.

(** Every legacy channel name that the constructor puts in the
    mapping is the configured name up to its first space, in lower
    case: it holds no space and no capital letter. *)
Theorem channelMapping_normalized : forall options bot mapping s c,
  Bot_new validateChannelMapping options = Ok bot ->
  opt_channelMapping options = Some mapping ->
  obj_get (channelMapping bot) s = Some c ->
  (exists configured, In (s, configured) mapping /\ c = normalize configured) /\
  contains " " c = false /\
  Js.toLowerCase c = c.
Proof.
  intros options bot mapping s c Hnew Hm Hget.
  destruct (Bot_new_mappings validateChannelMapping options bot mapping Hnew Hm) as [Hcm _].
  rewrite Hcm in Hget. unfold build_channelMapping in Hget.
  assert (H : exists configured, In (s, configured) mapping /\ c = normalize configured).
  { apply (fold_set_entries
             (fun k v => exists configured, In (k, configured) mapping /\ v = normalize configured)
             fst (fun kv => normalize (snd kv)) mapping []); [discriminate| |exact Hget].
    intros [k v] Hin. now exists v. }
  split; [exact H|]. destruct H as (configured & _ & ->). apply normalize_clean.
Qed.

(** Whatever the configuration, every entry of the inverted mapping
    is an entry of the mapping: a legacy channel is only ever routed
    to a workspace channel that is mapped to it. *)
Theorem invertedMapping_sound : forall options bot c s,
  Bot_new validateChannelMapping options = Ok bot ->
  obj_get (invertedMapping bot) c = Some s ->
  obj_get (channelMapping bot) s = Some c.
Proof.
  intros options bot c s Hnew Hget.
  destruct (Bot_new_tables options bot Hnew) as (mapping & _ & Hcm & Hinv).
  rewrite Hinv in Hget. rewrite Hcm. unfold invert in Hget.
  set (cm := build_channelMapping mapping) in *.
  assert (Hin : In (s, c) cm).
  { apply (fold_set_entries (fun v k => In (k, v) cm) snd fst cm []);
      [discriminate| |exact Hget].
    intros [k v] Hin. exact Hin. }
  apply obj_get_In; [|exact Hin].
  unfold cm, build_channelMapping. apply fold_set_keys. constructor.
Qed.

(** A required field that is missing or the empty string makes the
    constructor raise [ConfigurationError], before the mapping is
    validated or any pattern is built. *)
Theorem Bot_new_required_fields : forall options,
  falsy_opt (opt_server options) = true \/
  falsy_opt (opt_nickname options) = true \/
  opt_channelMapping options = None \/
  falsy_opt (opt_token options) = true ->
  Bot_new validateChannelMapping options = Throw ConfigurationError.
Proof.
  intros options H. unfold Bot_new.
  assert (Hreq : forall field,
             required field = Throw ConfigurationError \/
             (exists s, required field = Ok s /\ falsy_opt field = false)).
  { intros [[|c s]|]; cbn; [now left | right; now eexists | now left]. }
  destruct (Hreq (opt_server options)) as [-> | (s1 & -> & F1)]; [reflexivity|].
  destruct (Hreq (opt_nickname options)) as [-> | (s2 & -> & F2)]; [reflexivity|].
  cbn [rbind]. destruct (opt_channelMapping options) as [mapping|]; [|reflexivity].
  cbn [rbind]. destruct (Hreq (opt_token options)) as [-> | (s3 & -> & F3)]; [reflexivity|].
  destruct H as [H|[H|[H|H]]]; congruence.
Qed.

End Tables.

Lemma channelMapping_normalized_witness :
  (exists configured,
      In ("#general", configured) [("#general", "#General-IRC secret"); ("private", "#Priv")]
      /\ "#general-irc" = normalize configured) /\
  contains " " "#general-irc" = false /\
  Js.toLowerCase "#general-irc" = "#general-irc".
Proof.
  apply (channelMapping_normalized Example.validate_ok Example.options constructed);
    reflexivity.
Defined.

Lemma invertedMapping_sound_witness :
  obj_get (channelMapping constructed) "private" = Some "#priv".
Proof.
  apply (invertedMapping_sound Example.validate_ok Example.options constructed);
    reflexivity.
Defined.

Lemma Bot_new_required_fields_witness :
  Bot_new Example.validate_ok
    (MkOptions (Some "irc.example.org") (Some "") (Some []) (Some "xoxb-token")
               None None None None AvatarUnset None)
  = Throw ConfigurationError.
Proof.
  apply Bot_new_required_fields. right. left. reflexivity.
Defined.

(** ** Private messages *)

(** The text of [.msg] does not reach the legacy network.  Outside
    a direct conversation [privMessage] only asks for the
    conversation in which the warning is given; in one, its only
    action is the [WHOIS] request for the target.  The callback of
    that request raises [TypeError] without any action when the
    target is online: the text is queued at most, and the method that
    would send it does not exist.  When the target is not online, the
    sender is told so in the channel of the command and the queues
    are left as they are. *)
Theorem privMessage_keeps_private : forall bot message ircUser msg,
  (forall a,
     In a (trace (privMessage bot message ircUser msg)) ->
     (Js.startsWith (msg_channel message) "D" = false /\
      a = WebImOpen (msg_user message) PrivWarn) \/
     (Js.startsWith (msg_channel message) "D" = true /\
      a = IrcWhois ircUser (PrivWhois message ircUser msg))) /\
  (forall host,
     falsy_opt host = false ->
     snd (privMessage_whois bot message ircUser msg host) = ([], Throw TypeError)) /\
  (forall host,
     falsy_opt host = true ->
     privMessage_whois bot message ircUser msg host
     = (bot, ([RtmSendMessage ("`" ++ ircUser ++ "` is not online.") (msg_channel message)],
              Ok tt))).
Proof.
  intros bot message ircUser msg. split; [|split].
  - intros a H. unfold privMessage in H.
    destruct (Js.startsWith (msg_channel message) "D"); cbn [negb] in H.
    + right. split; [reflexivity|].
      destruct (messageQueues bot); [|contradiction].
      destruct H as [<-|[]]. reflexivity.
    + left. split; [reflexivity|]. destruct H as [<-|[]]. reflexivity.
  - intros [h|] Hhost; [|discriminate]. unfold falsy_opt in Hhost.
    apply negb_false_iff in Hhost. unfold privMessage_whois. rewrite Hhost.
    destruct (messageQueues bot) as [queues|]; [|reflexivity].
    destruct (obj_get queues (msg_user message)) as [messageQueue|]; [|reflexivity].
    destruct (obj_get messageQueue ircUser); [reflexivity|].
    destruct (inherited ircUser); reflexivity.
  - intros host H. unfold privMessage_whois. destruct host as [h|]; [|reflexivity].
    unfold falsy_opt in H. apply negb_true_iff in H. now rewrite H.
Qed.

Lemma privMessage_keeps_private_witness :
  snd (privMessage_whois Example.bot (Example.say ".msg bob hello") "bob" "hello"
         (Some "irc.example.org"))
  = ([], Throw TypeError) /\
  privMessage_whois Example.bot (Example.say ".msg bob hello") "bob" "hello" None
  = (Example.bot, ([RtmSendMessage "`bob` is not online." "C1"], Ok tt)).
Proof.
  pose proof (privMessage_keeps_private Example.bot (Example.say ".msg bob hello")
                "bob" "hello") as (_ & Hon & Hoff).
  split; [apply Hon | apply Hoff]; reflexivity.
Defined.

(** ** The list of the users that are online *)

Lemma sort_insert_permutation : forall x l, Permutation (sort_insert x l) (x :: l).
Proof.
  intros x. induction l as [|y l IH]; cbn [sort_insert]; [reflexivity|].
  destruct (String.leb x y); [reflexivity|].
  rewrite IH. apply perm_swap.
Qed.

Lemma js_sort_permutation : forall l, Permutation (js_sort l) l.
Proof.
  induction l as [|x l IH]; cbn [js_sort fold_right]; [constructor|].
  fold (js_sort l). rewrite sort_insert_permutation. now constructor.
Qed.

Lemma sort_insert_sorted : forall x l,
  Sorted code_unit_order l -> Sorted code_unit_order (sort_insert x l).
Proof.
  intros x. induction l as [|y l IH]; intros Hs; cbn [sort_insert].
  - repeat constructor.
  - destruct (String.leb x y) eqn:Hxy.
    + constructor; [exact Hs | constructor; exact Hxy].
    + inversion Hs as [|? ? Hl Hhd]; subst. constructor; [now apply IH|].
      assert (Hyx : code_unit_order y x).
      { destruct (String.leb_total x y) as [H|H]; [congruence | exact H]. }
      destruct l as [|z l]; cbn [sort_insert]; [now constructor|].
      destruct (String.leb x z); constructor; [exact Hyx|].
      now inversion Hhd.
Qed.

Lemma js_sort_sorted : forall l, Sorted code_unit_order (js_sort l).
Proof.
  induction l as [|x l IH]; cbn [js_sort fold_right]; [constructor|].
  now apply sort_insert_sorted.
Qed.

Lemma online_matched_filter : forall query re userNames,
  RegExp_new query "i" = Ok re ->
  online_matched query userNames = Ok (filter (test re) userNames).
Proof.
  intros query re userNames Hre. induction userNames as [|name rest IH]; [reflexivity|].
  cbn [online_matched filter]. rewrite Hre, IH. cbn [rbind]. unfold test.
  destruct (exec re name); reflexivity.
Qed.

(** With a query that [RegExp_new] accepts (it accepts no pattern
    with a word boundary, a backreference, a lookbehind, a named
    group or one of the escapes [\c], [\u], [\k] and octal, so
    nothing is said of those), the callback answers in the channel of
    the command, once: with the users whose name the pattern matches
    somewhere, letter case ignored, each user once and in ascending
    order; or, when it matches none, with
    [No users are online matching '<query>'.] *)
Theorem onlineIRCUsers_answers_query : forall message query re userNames,
  RegExp_new query "i" = Ok re ->
  let matching := filter (test re) userNames in
  onlineIRCUsers_names message query userNames
  = ([RtmSendMessage (online_reply query matching) (msg_channel message)], Ok tt) /\
  Permutation (js_sort matching) matching /\
  Sorted code_unit_order (js_sort matching) /\
  (matching = [] ->
   online_reply query matching = "No users are online matching '" ++ query ++ "'.").
Proof.
  intros message query re userNames Hre matching. split; [|split; [|split]].
  - unfold onlineIRCUsers_names. rewrite (online_matched_filter query re userNames Hre).
    reflexivity.
  - apply js_sort_permutation.
  - apply js_sort_sorted.
  - intros ->. reflexivity.
Qed.

Lemma onlineIRCUsers_answers_query_witness :
  onlineIRCUsers_names (Example.say ".online BO") "BO" ["carol"; "bobby"; "Abol"; "bob"]
  = ([RtmSendMessage "'BO' matched the following users: Abol, bob, bobby" "C1"], Ok tt).
Proof.
  apply (onlineIRCUsers_answers_query (Example.say ".online BO") "BO"
           (lit "BO" "i") ["carol"; "bobby"; "Abol"; "bob"]).
  reflexivity.
Defined.

(** A pattern that begins with a quantifier or with a closing
    parenthesis is malformed. *)
Lemma RegExp_new_nothing_to_repeat : forall c rest flags,
  In c ["*"; "+"; "?"; ")"]%char ->
  RegExp_new (String c rest) flags = Throw SyntaxError.
Proof.
  intros c rest flags Hc. unfold RegExp_new, parse. cbn [String.length].
  replace (3 * S (String.length rest) + 4)
    with (S (S (S (3 * String.length rest + 4)))) by lia.
  destruct Hc as [<-|[<-|[<-|[<-|[]]]]]; reflexivity.
Qed.

(** A query that begins with [*], [+], [?] or [)], as a query
    written like a file pattern does, is no pattern: when a user is
    online the callback raises [SyntaxError] without an answer.  When
    no user is online it answers whatever the query, since the
    pattern is only built for a name to match. *)
Theorem onlineIRCUsers_malformed_query : forall message c rest name names,
  In c ["*"; "+"; "?"; ")"]%char ->
  onlineIRCUsers_names message (String c rest) (name :: names) = ([], Throw SyntaxError) /\
  forall query,
    onlineIRCUsers_names message query []
    = ([RtmSendMessage ("No users are online matching '" ++ query ++ "'.")
          (msg_channel message)], Ok tt).
Proof.
  intros message c rest name names Hc. split; [|reflexivity].
  unfold onlineIRCUsers_names. cbn [online_matched].
  now rewrite (RegExp_new_nothing_to_repeat c rest "i" Hc).
Qed.

Lemma onlineIRCUsers_malformed_query_witness :
  onlineIRCUsers_names (Example.say ".online *bob*") "*bob*" ["bob"]
  = ([], Throw SyntaxError) /\
  onlineIRCUsers_names (Example.say ".online *bob*") "*bob*" []
  = ([RtmSendMessage "No users are online matching '*bob*'." "C1"], Ok tt).
Proof.
  destruct (onlineIRCUsers_malformed_query (Example.say ".online *bob*") "*"%char "bob*"
              "bob" []) as [Hraise Hnone].
  - left. reflexivity.
  - split; [exact Hraise | apply Hnone].
Defined.

(** *** A query without pattern characters *)

Lemma parse_term_last : forall f c idx,
  plain_char c = true ->
  RegexSyntax.parse_term (S f) (String c "") idx = Some (RChar c, "", idx).
Proof.
  intros f c idx Hc. SyntaxFacts.split_plain Hc. cbn [RegexSyntax.parse_term].
  repeat match goal with
         | H : Ascii.eqb c _ = false |- _ => rewrite H; clear H
         end.
  reflexivity.
Qed.

Lemma parse_alt_query : forall u f idx,
  plain u = true ->
  RegexSyntax.parse_alt (String.length u + S (S f)) u idx = Some (lits u REmpty, "", idx).
Proof.
  induction u as [|c u IH]; intros f idx Hu; [reflexivity|].
  simpl in Hu. apply andb_true_iff in Hu as [Hc Hu].
  cbn [String.length Nat.add]. cbn [RegexSyntax.parse_alt].
  assert (Hbar : Ascii.eqb c "|" || Ascii.eqb c ")" = false).
  { SyntaxFacts.split_plain Hc.
    repeat match goal with
           | H : Ascii.eqb c _ = false |- _ => rewrite H; clear H
           end.
    reflexivity. }
  rewrite Hbar.
  assert (Hterm : RegexSyntax.parse_term (String.length u + S (S f)) (String c u) idx
                  = Some (RChar c, u, idx)).
  { replace (String.length u + S (S f)) with (S (String.length u + S f)) by lia.
    destruct u as [|c' u'].
    - now apply parse_term_last.
    - simpl in Hu. apply andb_true_iff in Hu as [Hc' _]. SyntaxFacts.split_plain Hc'.
      apply SyntaxFacts.parse_term_plain; assumption. }
  rewrite Hterm, (IH f idx Hu). reflexivity.
Qed.

Lemma RegExp_new_query : forall u flags,
  plain u = true ->
  RegExp_new u flags
  = Ok (MkRegExp (lits u REmpty) (has_flag "g" flags) (has_flag "i" flags)).
Proof.
  intros u flags Hu. unfold RegExp_new, RegexSyntax.parse.
  set (n := String.length u).
  replace (3 * n + 4) with (S (n + S (S (2 * n + 1)))) by lia.
  rewrite SyntaxFacts.parse_disj_S. unfold n. rewrite (parse_alt_query u _ 0 Hu).
  reflexivity.
Qed.

Lemma rmatch_query : forall u p w caps,
  rmatch true (lits u REmpty) Some (MState p w caps) = None <-> ci_prefix u w = false.
Proof.
  induction u as [|c u IH]; intros p w caps.
  - cbn. split; discriminate.
  - cbn [lits rmatch ci_prefix]. unfold step_char. cbn [m_rest m_pos m_caps].
    destruct w as [|a w]; [split; reflexivity|].
    destruct (char_eq true a c); cbn [andb]; [apply IH | split; reflexivity].
Qed.

Lemma test_query : forall u w,
  test (MkRegExp (lits u REmpty) false true) w = ci_contains u w.
Proof.
  intros u w. unfold test, exec. generalize 0 as i.
  induction w as [|a w IH]; intros i; cbn [search ci_contains]; unfold match_at;
    cbn [re_ast re_ignoreCase];
    pose proof (rmatch_query u i) as Hq.
  - specialize (Hq "" []). destruct (rmatch true _ Some _).
    + destruct (ci_prefix u ""); [reflexivity|]. discriminate (proj2 Hq eq_refl).
    + now rewrite (proj1 Hq eq_refl).
  - specialize (Hq (String a w) []). destruct (rmatch true _ Some _).
    + destruct (ci_prefix u (String a w)); [reflexivity|].
      discriminate (proj2 Hq eq_refl).
    + rewrite (proj1 Hq eq_refl). cbn [orb]. apply IH.
Qed.

(** With a query without pattern characters, the names in the answer
    are the names in which the query occurs, letter case ignored. *)
Theorem onlineIRCUsers_plain_query : forall message query userNames,
  plain query = true ->
  onlineIRCUsers_names message query userNames
  = ([RtmSendMessage (online_reply query (filter (ci_contains query) userNames))
        (msg_channel message)], Ok tt).
Proof.
  intros message query userNames Hq. unfold onlineIRCUsers_names.
  rewrite (online_matched_filter query _ userNames (RegExp_new_query query "i" Hq)).
  cbn [has_flag Ascii.eqb Bool.eqb orb]. 
  rewrite (filter_ext _ _ (test_query query)). reflexivity.
Qed.

Lemma onlineIRCUsers_plain_query_witness :
  onlineIRCUsers_names (Example.say ".online Bo") "Bo" ["carol"; "BOB"; "abo"; "b-o"]
  = ([RtmSendMessage "'Bo' matched the following users: BOB, abo" "C1"], Ok tt).
Proof.
  apply (onlineIRCUsers_plain_query (Example.say ".online Bo") "Bo"
           ["carol"; "BOB"; "abo"; "b-o"]).
  reflexivity.
Defined.

(** Without a query, the answer in the direct conversation lists
    every user of the legacy channel once, in ascending order of the
    code units. *)
Theorem onlineIRCUsers_lists_everyone : forall ircChannel userNames dm,
  exists listed,
    Permutation listed userNames /\
    Sorted code_unit_order listed /\
    onlineIRCUsers_opened ircChannel userNames dm
    = ([RtmSendMessage ("The following users are in " ++ ircChannel ++ ": "
                        ++ Js.join ", " listed) dm], Ok tt).
Proof.
  intros ircChannel userNames dm. exists (js_sort userNames).
  split; [apply js_sort_permutation|]. split; [apply js_sort_sorted | reflexivity].
Qed.
